(** * gofetch: retry manager and per-endpoint circuit breaker

    Shallow embedding of
      - [domain/models/retry.go]        (RetryOptions, ShouldRetryStatus,
                                          BackoffStrategy, CircuitBreakerState)
      - the retry manager of package [infrastructure]
                                         (RetryManager: ShouldRetry,
                                          CalculateDelay, applyJitter)
      - [infrastructure/circuit_breaker.go] (CircuitBreaker)

    Conventions.
    - Go [int] and [time.Duration] are 64-bit two's-complement integers; they
      are modelled as [Z] with the wrap-around of [+], [*] and [++] written
      out ([GoInt.wrap]).
    - [time.Time] is modelled as a number of nanoseconds on the Unix time
      line ([Z], unbounded); [time.Now()] is an explicit clock reading passed
      to the operation that performs it, and [time.Since] is the saturating
      difference of [time.Time.Sub].
    - The breaker's [map[string]*circuitState] is a [gmap string circuitState].
      Every pointer stored in the map is freshly allocated by the breaker and
      never shared between keys, so in-place mutation of a record is the
      replacement of the record stored under that key.
    - The mutex only serialises the operations; each operation is modelled as
      one atomic state transformer.
    - [float64] arithmetic is modelled by exact dyadic numbers and IEEE 754
      rounding to nearest even ([Float64]); the random generator of the retry
      manager is the value its next draw returns. *)

From Stdlib Require Import ZArith QArith Qpower Qround Lia Lqa Bool List.
From Stdlib Require SpecFloat.
From stdpp Require Import gmap strings.

Local Open Scope Z_scope.

(** ** Go's 64-bit integers *)

Module GoInt.

Definition min_int : Z := - 2 ^ 63.
Definition max_int : Z := 2 ^ 63 - 1.

Definition in_range (z : Z) : Prop := min_int <= z <= max_int.

(** Two's-complement wrap-around into [min_int, max_int]. *)
Definition wrap (z : Z) : Z := (z + 2 ^ 63) mod 2 ^ 64 - 2 ^ 63.

Definition add (x y : Z) : Z := wrap (x + y).
Definition mul (x y : Z) : Z := wrap (x * y).

(** The statement [x++]. *)
Definition incr (x : Z) : Z := add x 1.

(** Saturation, as done by [time.Time.Sub]. *)
Definition saturate (z : Z) : Z :=
  if z <? min_int then min_int else if max_int <? z then max_int else z.

End GoInt.

(** ** time *)

Module GoTime.

(** Nanoseconds since the Unix epoch. *)
Definition Time : Type := Z.
(** Nanoseconds, an int64. *)
Definition Duration : Type := Z.

(** The zero [time.Time]: January 1, year 1, 00:00:00 UTC. *)
Definition zeroTime : Time := -62135596800 * 1000000000.

(** [time.Since(t)] evaluated when the clock reads [now]. *)
Definition Since (now t : Time) : Duration := GoInt.saturate (now - t).

Definition Millisecond : Duration := 1000000.
Definition Second : Duration := 1000 * Millisecond.

End GoTime.

(** ** float64

    IEEE 754 binary64 arithmetic as Go performs it on [float64]: every
    operation returns the exact result rounded to the nearest representable
    number, ties to even. A finite number is kept as [Fin m e], standing for
    [m * 2^e]; the sign of zero is not kept (no operation used here observes
    it). Each operation is rounded on its own (no fused multiply-add). *)

Module Float64.

Inductive float64 : Type :=
| NaN
| Inf (negative : bool)
| Fin (m e : Z).

Definition prec : Z := 53.
Definition emin : Z := -1074.
Definition emax : Z := 1024.

(** Number of binary digits of [m]. *)
Definition digits (m : Z) : Z := Z.log2 (Z.abs m) + 1.

(** [m / 2^s] rounded to the nearest integer, ties to even ([0 < s]). *)
Definition rne (m s : Z) : Z :=
  let q := m / 2 ^ s in
  let r := m mod 2 ^ s in
  let h := 2 ^ (s - 1) in
  if r <? h then q
  else if h <? r then q + 1
  else if Z.even q then q else q + 1.

(** [m * 2^e] rounded to 53 significant digits, exponent at least [emin]. *)
Definition round_fin (m e : Z) : Z * Z :=
  let s := Z.max (digits m - prec) (emin - e) in
  if 0 <? s then (rne m s, e + s) else (m, e).

(** [2^emax <= |m * 2^e|]. *)
Definition overflows (m e : Z) : bool :=
  (0 <=? e) && (2 ^ emax <=? Z.abs m * 2 ^ e).

Definition round (m e : Z) : float64 :=
  let '(m', e') := round_fin m e in
  if overflows m' e' then Inf (m' <? 0) else Fin m' e'.

Definition is_zero (m : Z) : bool := m =? 0.

Definition mul (x y : float64) : float64 :=
  match x, y with
  | NaN, _ | _, NaN => NaN
  | Inf s, Inf t => Inf (xorb s t)
  | Inf s, Fin m _ | Fin m _, Inf s =>
      if is_zero m then NaN else Inf (xorb s (m <? 0))
  | Fin m1 e1, Fin m2 e2 => round (m1 * m2) (e1 + e2)
  end.

Definition add (x y : float64) : float64 :=
  match x, y with
  | NaN, _ | _, NaN => NaN
  | Inf s, Inf t => if Bool.eqb s t then Inf s else NaN
  | Inf s, Fin _ _ | Fin _ _, Inf s => Inf s
  | Fin m1 e1, Fin m2 e2 =>
      let e := Z.min e1 e2 in
      round (m1 * 2 ^ (e1 - e) + m2 * 2 ^ (e2 - e)) e
  end.

Definition opp (x : float64) : float64 :=
  match x with
  | NaN => NaN
  | Inf s => Inf (negb s)
  | Fin m e => Fin (- m) e
  end.

Definition sub (x y : float64) : float64 := add x (opp y).

(** [x < y]; false as soon as one side is NaN. *)
Definition ltb (x y : float64) : bool :=
  match x, y with
  | NaN, _ | _, NaN => false
  | Inf s, Inf t => s && negb t
  | Inf s, Fin _ _ => s
  | Fin _ _, Inf t => negb t
  | Fin m1 e1, Fin m2 e2 =>
      let e := Z.min e1 e2 in
      m1 * 2 ^ (e1 - e) <? m2 * 2 ^ (e2 - e)
  end.

(** [x <= y]; false as soon as one side is NaN. *)
Definition leb (x y : float64) : bool :=
  match x, y with
  | NaN, _ | _, NaN => false
  | Inf s, Inf t => s || negb t
  | Inf s, Fin _ _ => s
  | Fin _ _, Inf t => negb t
  | Fin m1 e1, Fin m2 e2 =>
      let e := Z.min e1 e2 in
      m1 * 2 ^ (e1 - e) <=? m2 * 2 ^ (e2 - e)
  end.

(** [float64(z)] for an integer [z]. *)
Definition of_int (z : Z) : float64 := round z 0.

(** Integer part, towards zero. *)
Definition trunc (m e : Z) : Z :=
  if 0 <=? e then m * 2 ^ e else Z.quot m (2 ^ (- e)).

(** What a conversion to int64 yields when the value has no int64
    representation (NaN, infinities, out of range): the Go specification
    leaves it to the implementation. *)
Record Arch : Type := mkArch { out_of_range : float64 -> Z }.

(** amd64: CVTTSD2SQ answers the "integer indefinite" value. *)
Definition amd64 : Arch := mkArch (fun _ => GoInt.min_int).

(** arm64: FCVTZS saturates, NaN becomes 0. *)
Definition arm64 : Arch :=
  mkArch (fun x =>
            match x with
            | NaN => 0
            | Inf s => if s then GoInt.min_int else GoInt.max_int
            | Fin m _ => if m <? 0 then GoInt.min_int else GoInt.max_int
            end).

(** [int64(x)], also [time.Duration(x)]. *)
Definition to_int64 (arch : Arch) (x : float64) : Z :=
  match x with
  | Fin m e =>
      let t := trunc m e in
      if (GoInt.min_int <=? t) && (t <=? GoInt.max_int) then t
      else out_of_range arch x
  | _ => out_of_range arch x
  end.

(** [math.Pow(2, float64(n))] for an integer [n]: the power of two itself,
    +Inf above the range of float64 and 0 below it. *)
Definition pow2 (n : Z) : float64 :=
  if emax <=? n then Inf false
  else if n <? emin then Fin 0 0
  else Fin 1 n.

(** The rational number a finite float stands for. *)
Definition dyadic (m e : Z) : Q := (inject_Z m * 2 ^ e)%Q.

Definition to_Q (x : float64) : Q :=
  match x with
  | Fin m e => dyadic m e
  | _ => 0%Q
  end.

Definition is_finite (x : float64) : bool :=
  match x with
  | Fin _ _ => true
  | _ => false
  end.

(** The rationals on the grid of float64: at most 53 significant digits
    above the smallest exponent. *)
Definition representable (q : Q) : Prop :=
  exists m e, (q == dyadic m e)%Q /\ Z.abs m <= 2 ^ prec /\ emin <= e.

(** The constants of the source, each the float64 nearest to its literal. *)
Definition zero : float64 := Fin 0 0.
Definition one : float64 := Fin 1 0.
Definition two : float64 := Fin 2 0.
(** [0.3] = 0x3FD3333333333333. *)
Definition three_tenths : float64 := Fin 5404319552844595 (-54).

End Float64.

(** ** The Standard Library's IEEE 754 reference

    [SpecFloat] is the executable specification of binary64 behind Rocq's
    primitive floats. The conversions below let the operations of [Float64]
    be run side by side with it. *)

Module Float64Reference.

Import Float64.

Definition of_spec (x : SpecFloat.spec_float) : float64 :=
  match x with
  | SpecFloat.S754_nan => NaN
  | SpecFloat.S754_infinity s => Inf s
  | SpecFloat.S754_zero _ => Fin 0 0
  | SpecFloat.S754_finite s m e => Fin (if s then Z.neg m else Z.pos m) e
  end.

Definition to_spec (x : float64) : SpecFloat.spec_float :=
  match x with
  | NaN => SpecFloat.S754_nan
  | Inf s => SpecFloat.S754_infinity s
  | Fin m e => SpecFloat.binary_normalize 53 1024 m e false
  end.

(** Same number (or both NaN). *)
Definition same_value (x y : float64) : bool :=
  match x, y with
  | NaN, NaN => true
  | _, _ => leb x y && leb y x
  end.

Definition samples : list float64 :=
  [ Fin 0 0; Fin 1 0; Fin 2 0; Fin 3 0; three_tenths;
    Fin (-5404319552844595) (-54); Fin (2 ^ 53 - 1) (-53); Fin (2 ^ 53 - 1) 0;
    Fin 6004799503160661 (-56); Fin 1000000000 0; Fin 100000000 0; Fin (-7) 3;
    Fin (2 ^ 52 + 1) (-30); Fin 1 37; Fin 4503599627370497 (-105);
    Inf true; Inf false; NaN ].

(** Samples at the ends of the exponent range. *)
Definition wide_samples : list float64 :=
  [ Fin 1 0; Fin (-3) 0; three_tenths; Fin (2 ^ 53 - 1) 971; Fin 1 (-1074);
    Fin 3 (-1074); Fin 7 (-1070); Fin 4503599627370497 (-1074);
    Fin 123456789012345 500; Fin (-123456789012345) (-600); Fin 1 1023 ].

Definition int_samples : list Z :=
  [ 0; 1; -1; 100000000; 2 ^ 53; 2 ^ 53 + 1; 2 ^ 53 + 3; 2 ^ 63 - 1; - 2 ^ 63;
    2 ^ 62 + 2 ^ 9; 2 ^ 62 + 2 ^ 9 + 1; 2 ^ 62 + 3 * 2 ^ 9; 999999999999999999 ].

(** [f] and [g] give the same value on every pair of the samples [l]. *)
Definition agree (l : list float64) (f : float64 -> float64 -> float64)
    (g : SpecFloat.spec_float -> SpecFloat.spec_float -> SpecFloat.spec_float) : bool :=
  forallb (fun x =>
    forallb (fun y => same_value (f x y) (of_spec (g (to_spec x) (to_spec y))))
            l) l.

End Float64Reference.

(** ** domain/models/retry.go *)

Module Models.

Import GoTime Float64.

(** [type BackoffStrategy string]. *)
Definition BackoffStrategy : Type := string.
Definition BackoffExponential : BackoffStrategy := "exponential".
Definition BackoffLinear : BackoffStrategy := "linear".
Definition BackoffFixed : BackoffStrategy := "fixed".

Record RetryOptions : Type := mkRetryOptions {
  MaxRetries : Z;
  InitialDelay : Duration;
  MaxDelay : Duration;
  Backoff : BackoffStrategy;
  Jitter : bool;
  JitterFraction : float64;
  RetryOnStatusCodes : list Z;
  CircuitBreaker : bool;
  CircuitBreakerThreshold : Z;
  CircuitBreakerTimeout : Duration;
  CircuitBreakerHalfOpenRequests : Z
}.

Definition NewRetryOptions : RetryOptions :=
  mkRetryOptions 3 (100 * Millisecond) (30 * Second) BackoffExponential
                 true three_tenths [] false 5 (60 * Second) 1.

(** The loop over [RetryOnStatusCodes]. *)
Fixpoint code_listed (statusCode : Z) (codes : list Z) : bool :=
  match codes with
  | [] => false
  | code :: codes' => if statusCode =? code then true else code_listed statusCode codes'
  end.

Definition ShouldRetryStatus (r : RetryOptions) (statusCode : Z) : bool :=
  (* Always retry 5xx errors *)
  if (500 <=? statusCode) && (statusCode <? 600) then true
  else (* Check custom retry status codes *)
    code_listed statusCode (RetryOnStatusCodes r).

Inductive CircuitBreakerState : Type :=
| CircuitBreakerClosed
| CircuitBreakerOpen
| CircuitBreakerHalfOpen.

Definition CircuitBreakerState_eqb (a b : CircuitBreakerState) : bool :=
  match a, b with
  | CircuitBreakerClosed, CircuitBreakerClosed => true
  | CircuitBreakerOpen, CircuitBreakerOpen => true
  | CircuitBreakerHalfOpen, CircuitBreakerHalfOpen => true
  | _, _ => false
  end.

End Models.

(** ** infrastructure/circuit_breaker.go *)

Module Breaker.

Import Models GoTime.

Record circuitState : Type := mkCircuit {
  state : CircuitBreakerState;
  failureCount : Z;
  lastFailureTime : Time;
  openedAt : Time;
  halfOpenSuccessCount : Z;
  halfOpenAttempts : Z
}.

Record CircuitBreaker : Type := mkBreaker {
  circuits : gmap string circuitState;
  threshold : Z;
  timeout : Duration;
  halfOpenRequests : Z
}.

(** Field assignments [circuit.f = v]. *)
Definition set_state (v : CircuitBreakerState) (c : circuitState) : circuitState :=
  mkCircuit v (failureCount c) (lastFailureTime c) (openedAt c)
            (halfOpenSuccessCount c) (halfOpenAttempts c).
Definition set_failureCount (v : Z) (c : circuitState) : circuitState :=
  mkCircuit (state c) v (lastFailureTime c) (openedAt c)
            (halfOpenSuccessCount c) (halfOpenAttempts c).
Definition set_lastFailureTime (v : Time) (c : circuitState) : circuitState :=
  mkCircuit (state c) (failureCount c) v (openedAt c)
            (halfOpenSuccessCount c) (halfOpenAttempts c).
Definition set_openedAt (v : Time) (c : circuitState) : circuitState :=
  mkCircuit (state c) (failureCount c) (lastFailureTime c) v
            (halfOpenSuccessCount c) (halfOpenAttempts c).
Definition set_halfOpenSuccessCount (v : Z) (c : circuitState) : circuitState :=
  mkCircuit (state c) (failureCount c) (lastFailureTime c) (openedAt c)
            v (halfOpenAttempts c).
Definition set_halfOpenAttempts (v : Z) (c : circuitState) : circuitState :=
  mkCircuit (state c) (failureCount c) (lastFailureTime c) (openedAt c)
            (halfOpenSuccessCount c) v.

(** [cb.circuits = m]. *)
Definition set_circuits (m : gmap string circuitState) (cb : CircuitBreaker) : CircuitBreaker :=
  mkBreaker m (threshold cb) (timeout cb) (halfOpenRequests cb).

(** The record now stored under [endpoint] is [c]: either
    [cb.circuits[endpoint] = &c] or the in-place mutation of the record the
    map already points to. *)
Definition store (endpoint : string) (c : circuitState) (cb : CircuitBreaker) : CircuitBreaker :=
  set_circuits (<[endpoint := c]> (circuits cb)) cb.

(** [&circuitState{state: models.CircuitBreakerClosed}]: every other field
    has its zero value. *)
Definition newCircuit : circuitState :=
  mkCircuit CircuitBreakerClosed 0 zeroTime zeroTime 0 0.

Definition NewCircuitBreaker (threshold : Z) (timeout : Duration) (halfOpenRequests : Z) : CircuitBreaker :=
  mkBreaker ∅ threshold timeout halfOpenRequests.

(** [IsOpen]; [now] is the clock reading of [time.Since]. *)
Definition IsOpen (now : Time) (endpoint : string) (cb : CircuitBreaker) : bool :=
  match circuits cb !! endpoint with
  | None => false
  | Some circuit =>
      if CircuitBreakerState_eqb (state circuit) CircuitBreakerOpen then
        if timeout cb <=? Since now (openedAt circuit) then false else true
      else false
  end.

(** [CanAttempt]; [now] is the clock reading of [time.Since]. *)
Definition CanAttempt (now : Time) (endpoint : string) (cb : CircuitBreaker) : bool * CircuitBreaker :=
  match circuits cb !! endpoint with
  | None => (true, store endpoint newCircuit cb)
  | Some circuit =>
      (* Transition from open to half-open if timeout expired *)
      let after_open : option circuitState :=
        if CircuitBreakerState_eqb (state circuit) CircuitBreakerOpen then
          if timeout cb <=? Since now (openedAt circuit) then
            Some (set_halfOpenSuccessCount 0
                   (set_halfOpenAttempts 0
                     (set_state CircuitBreakerHalfOpen circuit)))
          else None
        else Some circuit in
      match after_open with
      | None => (false, cb)
      | Some circuit =>
          (* In half-open state, limit concurrent requests *)
          if CircuitBreakerState_eqb (state circuit) CircuitBreakerHalfOpen then
            if halfOpenRequests cb <=? halfOpenAttempts circuit then
              (false, store endpoint circuit cb)
            else
              (true, store endpoint
                       (set_halfOpenAttempts (GoInt.incr (halfOpenAttempts circuit)) circuit) cb)
          else (true, store endpoint circuit cb)
      end
  end.

(** [RecordSuccess]. *)
Definition RecordSuccess (endpoint : string) (cb : CircuitBreaker) : CircuitBreaker :=
  match circuits cb !! endpoint with
  | None => cb
  | Some circuit =>
      if CircuitBreakerState_eqb (state circuit) CircuitBreakerHalfOpen then
        let circuit :=
          set_halfOpenSuccessCount (GoInt.incr (halfOpenSuccessCount circuit)) circuit in
        (* If we got enough successes, close the circuit *)
        if halfOpenRequests cb <=? halfOpenSuccessCount circuit then
          store endpoint (set_failureCount 0 (set_state CircuitBreakerClosed circuit)) cb
        else store endpoint circuit cb
      else if CircuitBreakerState_eqb (state circuit) CircuitBreakerClosed then
        (* Reset failure count on success *)
        store endpoint (set_failureCount 0 circuit) cb
      else cb
  end.

(** [RecordFailure]. [tFail] is the clock reading stored in
    [lastFailureTime]; [tOpen] is the later reading stored in [openedAt] by
    whichever of the two (mutually exclusive) opening branches runs. *)
Definition RecordFailure (tFail tOpen : Time) (endpoint : string) (cb : CircuitBreaker) : CircuitBreaker :=
  let circuit :=
    match circuits cb !! endpoint with
    | None => newCircuit
    | Some circuit => circuit
    end in
  let circuit := set_failureCount (GoInt.incr (failureCount circuit)) circuit in
  let circuit := set_lastFailureTime tFail circuit in
  (* Open circuit if threshold exceeded *)
  let circuit :=
    if CircuitBreakerState_eqb (state circuit) CircuitBreakerClosed
       && (threshold cb <=? failureCount circuit)
    then set_openedAt tOpen (set_state CircuitBreakerOpen circuit)
    else circuit in
  (* If half-open request failed, reopen the circuit *)
  let circuit :=
    if CircuitBreakerState_eqb (state circuit) CircuitBreakerHalfOpen
    then set_halfOpenSuccessCount 0
           (set_halfOpenAttempts 0
             (set_openedAt tOpen (set_state CircuitBreakerOpen circuit)))
    else circuit in
  store endpoint circuit cb.

(** [GetState]. *)
Definition GetState (endpoint : string) (cb : CircuitBreaker) : CircuitBreakerState :=
  match circuits cb !! endpoint with
  | None => CircuitBreakerClosed
  | Some circuit => state circuit
  end.

(** [Reset]. *)
Definition Reset (endpoint : string) (cb : CircuitBreaker) : CircuitBreaker :=
  set_circuits (delete endpoint (circuits cb)) cb.

(** [ResetAll]. *)
Definition ResetAll (cb : CircuitBreaker) : CircuitBreaker :=
  set_circuits ∅ cb.

(** *** Call sequences on one endpoint

    A client of the breaker only ever calls its exported methods; [op] lists
    them, [step] performs one call for [endpoint] and returns what the caller
    observes. *)

Inductive op : Type :=
| OpIsOpen (now : Time)
| OpCanAttempt (now : Time)
| OpRecordSuccess
| OpRecordFailure (tFail tOpen : Time)
| OpGetState
| OpReset.

Inductive observation : Type :=
| ObsBool (b : bool)
| ObsState (s : CircuitBreakerState)
| ObsNone.

Definition step (endpoint : string) (o : op) (cb : CircuitBreaker) : observation * CircuitBreaker :=
  match o with
  | OpIsOpen now => (ObsBool (IsOpen now endpoint cb), cb)
  | OpCanAttempt now =>
      let '(b, cb') := CanAttempt now endpoint cb in (ObsBool b, cb')
  | OpRecordSuccess => (ObsNone, RecordSuccess endpoint cb)
  | OpRecordFailure tFail tOpen => (ObsNone, RecordFailure tFail tOpen endpoint cb)
  | OpGetState => (ObsState (GetState endpoint cb), cb)
  | OpReset => (ObsNone, Reset endpoint cb)
  end.

Fixpoint run (endpoint : string) (os : list op) (cb : CircuitBreaker) : list observation * CircuitBreaker :=
  match os with
  | [] => ([], cb)
  | o :: os' =>
      let '(x, cb1) := step endpoint o cb in
      let '(xs, cb2) := run endpoint os' cb1 in
      (x :: xs, cb2)
  end.

(** The calls that neither record a success nor discard the record. *)
Definition records_no_success (o : op) : bool :=
  match o with
  | OpRecordSuccess | OpReset => false
  | _ => true
  end.

(** Successive gate checks for [endpoint], one per clock reading. *)
Fixpoint CanAttempts (nows : list Time) (endpoint : string) (cb : CircuitBreaker) : list bool * CircuitBreaker :=
  match nows with
  | [] => ([], cb)
  | now :: nows' =>
      let '(b, cb1) := CanAttempt now endpoint cb in
      let '(bs, cb2) := CanAttempts nows' endpoint cb1 in
      (b :: bs, cb2)
  end.

(** Number of permits among the answers of the gate. *)
Fixpoint permits (bs : list bool) : Z :=
  match bs with
  | [] => 0
  | b :: bs' => (if b then 1 else 0) + permits bs'
  end.

(** What a call contributes to the number of permits. *)
Definition permit_of (o : op) (x : observation) : Z :=
  match o, x with
  | OpCanAttempt _, ObsBool true => 1
  | _, _ => 0
  end.

(** Permits granted by the calls [os] for as long as the record of [endpoint]
    is half-open when the call is made: the permits of the current half-open
    window. *)
Fixpoint window_permits (os : list op) (endpoint : string) (cb : CircuitBreaker) : Z :=
  match os with
  | [] => 0
  | o :: os' =>
      if CircuitBreakerState_eqb (GetState endpoint cb) CircuitBreakerHalfOpen then
        let '(x, cb1) := step endpoint o cb in
        permit_of o x + window_permits os' endpoint cb1
      else 0
  end.

(** Two breakers that a caller using only [endpoint] cannot tell apart: same
    configuration, same record (or none) under [endpoint]. *)
Definition same_for (endpoint : string) (cb1 cb2 : CircuitBreaker) : Prop :=
  threshold cb1 = threshold cb2 /\
  timeout cb1 = timeout cb2 /\
  halfOpenRequests cb1 = halfOpenRequests cb2 /\
  circuits cb1 !! endpoint = circuits cb2 !! endpoint.

(** Calls for several endpoints, in the order the mutex serialises them. *)
Fixpoint run_all (calls : list (string * op)) (cb : CircuitBreaker) : list observation * CircuitBreaker :=
  match calls with
  | [] => ([], cb)
  | (endpoint, o) :: calls' =>
      let '(x, cb1) := step endpoint o cb in
      let '(xs, cb2) := run_all calls' cb1 in
      (x :: xs, cb2)
  end.

(** Consecutive failures recorded for [endpoint], one pair of clock readings
    per call. *)
Definition RecordFailures (ts : list (Time * Time)) (endpoint : string) (cb : CircuitBreaker) : CircuitBreaker :=
  fold_left (fun cb t => RecordFailure (fst t) (snd t) endpoint cb) ts cb.

(** [n] consecutive successes recorded for [endpoint]. *)
Definition RecordSuccesses (n : nat) (endpoint : string) (cb : CircuitBreaker) : CircuitBreaker :=
  Nat.iter n (RecordSuccess endpoint) cb.

(** What the counters of a record satisfy in every state the breaker can
    reach: a closed record has counted fewer failures than the threshold, a
    half-open record fewer successes than trials are configured and at most
    that many attempts. *)
Definition record_ok (cb : CircuitBreaker) (r : circuitState) : Prop :=
  (state r = CircuitBreakerClosed -> 0 <= failureCount r < threshold cb) /\
  (state r = CircuitBreakerHalfOpen ->
   0 <= halfOpenSuccessCount r < halfOpenRequests cb /\
   0 <= halfOpenAttempts r <= halfOpenRequests cb).

Definition breaker_ok (cb : CircuitBreaker) : Prop :=
  forall k r, circuits cb !! k = Some r -> record_ok cb r.

End Breaker.

(** ** package infrastructure: the retry manager *)

Module Retry.

Import GoTime Float64 Models.

(** A Go [error]: [None] is nil, [Some msg] an error with that message. *)
Definition error : Type := option string.

(** The retry manager. Its random generator is represented by the value its
    next [Float64()] call returns, passed to the operation making the call. *)
Record RetryManager : Type := mkRetryManager { options : RetryOptions }.

Definition ShouldRetry (rm : RetryManager) (attempt statusCode : Z) (err : error) : bool :=
  (* Don't retry if max retries reached *)
  if MaxRetries (options rm) <=? attempt then false
  else
    (* Retry on network errors *)
    match err with
    | Some _ => true
    | None =>
        (* Retry on configured status codes *)
        ShouldRetryStatus (options rm) statusCode
    end.

Definition calculateExponentialBackoff (arch : Arch) (rm : RetryManager) (attempt : Z) : Duration :=
  let multiplier := pow2 attempt in
  to_int64 arch (mul (of_int (InitialDelay (options rm))) multiplier).

Definition calculateLinearBackoff (rm : RetryManager) (attempt : Z) : Duration :=
  GoInt.mul (InitialDelay (options rm)) (GoInt.add attempt 1).

(** [u] is the value returned by [rm.rng.Float64()]. *)
Definition applyJitter (arch : Arch) (rm : RetryManager) (u : float64) (delay : Duration) : Duration :=
  let jitterFraction := JitterFraction (options rm) in
  let jitterFraction :=
    if leb jitterFraction zero then three_tenths else jitterFraction in
  let jitterFraction :=
    if ltb one jitterFraction then one else jitterFraction in
  let jitterRange := mul (of_int delay) jitterFraction in
  let randomJitter := sub (mul (mul u two) jitterRange) jitterRange in
  let newDelay := add (of_int delay) randomJitter in
  let newDelay := if ltb newDelay zero then zero else newDelay in
  to_int64 arch newDelay.

(** The fraction [applyJitter] works with, after its two adjustments. *)
Definition effectiveJitterFraction (rm : RetryManager) : float64 :=
  let jitterFraction := JitterFraction (options rm) in
  let jitterFraction :=
    if leb jitterFraction zero then three_tenths else jitterFraction in
  if ltb one jitterFraction then one else jitterFraction.

(** The cap applied by [CalculateDelay]. *)
Definition cap (maxDelay v : Duration) : Duration :=
  if maxDelay <? v then maxDelay else v.

Definition CalculateDelay (arch : Arch) (rm : RetryManager) (u : float64) (attempt : Z) : Duration :=
  let delay :=
    if String.eqb (Backoff (options rm)) BackoffExponential then
      calculateExponentialBackoff arch rm attempt
    else if String.eqb (Backoff (options rm)) BackoffLinear then
      calculateLinearBackoff rm attempt
    else if String.eqb (Backoff (options rm)) BackoffFixed then
      InitialDelay (options rm)
    else calculateExponentialBackoff arch rm attempt in
  (* Apply max delay cap *)
  let delay := if MaxDelay (options rm) <? delay then MaxDelay (options rm) else delay in
  (* Apply jitter if enabled *)
  if Jitter (options rm) then applyJitter arch rm u delay else delay.

(** The delay of [CalculateDelay] before jitter: the strategy value, capped. *)
Definition baseDelay (arch : Arch) (rm : RetryManager) (attempt : Z) : Duration :=
  CalculateDelay arch
    (mkRetryManager
       (mkRetryOptions (MaxRetries (options rm)) (InitialDelay (options rm))
          (MaxDelay (options rm)) (Backoff (options rm)) false
          (JitterFraction (options rm)) (RetryOnStatusCodes (options rm))
          (CircuitBreaker (options rm)) (CircuitBreakerThreshold (options rm))
          (CircuitBreakerTimeout (options rm))
          (CircuitBreakerHalfOpenRequests (options rm))))
    zero attempt.

(** A one-hour linear backoff capped at 30 s. *)
Definition linearOverflowOptions : RetryOptions :=
  mkRetryOptions 3 (3600 * Second) (30 * Second) BackoffLinear
                 false three_tenths [] false 5 (60 * Second) 1.

(** The default delays with jitter off and forty retries. *)
Definition exponentialOverflowOptions : RetryOptions :=
  mkRetryOptions 40 (100 * Millisecond) (30 * Second) BackoffExponential
                 false three_tenths [] false 5 (60 * Second) 1.

End Retry.

(** ** domain/models: the client configuration

    A [Config] refers to heap objects: its [Headers] map (a Go map is a
    reference), the [RetryOptions] struct it points to, and the backing
    array of that struct's [RetryOnStatusCodes] slice. All three are kept in
    a [heap], so that sharing between configurations is visible. *)

Module Configs.

Import GoTime.

Definition loc : Type := positive.

(** A slice value: the backing array it points into ([None] for a nil
    slice), the index of its first element in that array, its length and
    its capacity. *)
Record slice : Type := mkSlice {
  slice_array : option loc;
  slice_offset : nat;
  slice_len : nat;
  slice_cap : nat
}.

(** The [RetryOptions] struct as it lies in memory: the field
    [RetryOnStatusCodes] holds a slice value, the elements are in the
    backing array. *)
Module Mem.

Record RetryOptions : Type := mkRetryOptions {
  MaxRetries : Z;
  InitialDelay : Duration;
  MaxDelay : Duration;
  Backoff : Models.BackoffStrategy;
  Jitter : bool;
  JitterFraction : Float64.float64;
  RetryOnStatusCodes : slice;
  CircuitBreaker : bool;
  CircuitBreakerThreshold : Z;
  CircuitBreakerTimeout : Duration;
  CircuitBreakerHalfOpenRequests : Z
}.

(** [o.RetryOnStatusCodes = s]. *)
Definition set_RetryOnStatusCodes (s : slice) (o : RetryOptions) : RetryOptions :=
  mkRetryOptions (MaxRetries o) (InitialDelay o) (MaxDelay o) (Backoff o)
                 (Jitter o) (JitterFraction o) s (CircuitBreaker o)
                 (CircuitBreakerThreshold o) (CircuitBreakerTimeout o)
                 (CircuitBreakerHalfOpenRequests o).

(** The struct with the slice [s] and every other field as in [o]. *)
Definition with_codes (s : slice) (o : Models.RetryOptions) : RetryOptions :=
  mkRetryOptions (Models.MaxRetries o) (Models.InitialDelay o) (Models.MaxDelay o)
                 (Models.Backoff o) (Models.Jitter o) (Models.JitterFraction o) s
                 (Models.CircuitBreaker o) (Models.CircuitBreakerThreshold o)
                 (Models.CircuitBreakerTimeout o)
                 (Models.CircuitBreakerHalfOpenRequests o).

End Mem.

Record heap : Type := mkHeap {
  header_maps : gmap loc (gmap string string);
  retry_options : gmap loc Mem.RetryOptions;
  arrays : gmap loc (list Z)
}.

Definition empty_heap : heap := mkHeap ∅ ∅ ∅.

Record Config : Type := mkConfig {
  BaseURL : string;
  Timeout : Duration;
  (** nil or a map *)
  Headers : option loc;
  (** nil or a function *)
  StatusValidator : option (Z -> bool);
  (** nil or a pointer *)
  RetryOptions : option loc
}.

(** [make(map[string]string)] filled with [m]. *)
Definition new_map (m : gmap string string) (h : heap) : loc * heap :=
  let l := fresh (dom (header_maps h)) in
  (l, mkHeap (<[l := m]> (header_maps h)) (retry_options h) (arrays h)).

(** [&o] for a struct value [o] that escapes. *)
Definition new_options (o : Mem.RetryOptions) (h : heap) : loc * heap :=
  let l := fresh (dom (retry_options h)) in
  (l, mkHeap (header_maps h) (<[l := o]> (retry_options h)) (arrays h)).

(** [make([]int, n)]: a new array of [n] zeros and the slice of all of it. *)
Definition make_slice (n : nat) (h : heap) : slice * heap :=
  let a := fresh (dom (arrays h)) in
  (mkSlice (Some a) 0 n n,
   mkHeap (header_maps h) (retry_options h) (<[a := replicate n 0]> (arrays h))).

(** The contents of a map value; a nil map reads as empty. *)
Definition headers_at (h : heap) (p : option loc) : gmap string string :=
  match p with
  | Some l => default ∅ (header_maps h !! l)
  | None => ∅
  end.

(** The elements of a slice, [s[0]] to [s[len(s)-1]]. *)
Definition elements (h : heap) (s : slice) : list Z :=
  match slice_array s with
  | Some a => take (slice_len s) (drop (slice_offset s) (default [] (arrays h !! a)))
  | None => []
  end.

(** A struct in memory read as a value: the slice by its elements. *)
Definition read_options (h : heap) (o : Mem.RetryOptions) : Models.RetryOptions :=
  Models.mkRetryOptions
    (Mem.MaxRetries o) (Mem.InitialDelay o) (Mem.MaxDelay o) (Mem.Backoff o)
    (Mem.Jitter o) (Mem.JitterFraction o) (elements h (Mem.RetryOnStatusCodes o))
    (Mem.CircuitBreaker o) (Mem.CircuitBreakerThreshold o)
    (Mem.CircuitBreakerTimeout o) (Mem.CircuitBreakerHalfOpenRequests o).

(** The value [o] with the status codes [codes]. *)
Definition with_status_codes (codes : list Z) (o : Models.RetryOptions) : Models.RetryOptions :=
  Models.mkRetryOptions
    (Models.MaxRetries o) (Models.InitialDelay o) (Models.MaxDelay o) (Models.Backoff o)
    (Models.Jitter o) (Models.JitterFraction o) codes
    (Models.CircuitBreaker o) (Models.CircuitBreakerThreshold o)
    (Models.CircuitBreakerTimeout o) (Models.CircuitBreakerHalfOpenRequests o).

(** The struct behind a pointer, read as a value. *)
Definition options_at (h : heap) (p : option loc) : option Models.RetryOptions :=
  match p with
  | Some l => read_options h <$> retry_options h !! l
  | None => None
  end.

(** [m[k] = v] for the map at [l]. *)
Definition store_header (l : loc) (k v : string) (h : heap) : heap :=
  mkHeap (<[l := <[k := v]> (default ∅ (header_maps h !! l))]> (header_maps h))
         (retry_options h) (arrays h).

(** [*p = o] for the pointer [l]. *)
Definition store_options (l : loc) (o : Mem.RetryOptions) (h : heap) : heap :=
  mkHeap (header_maps h) (<[l := o]> (retry_options h)) (arrays h).

(** [s[i] = v]. Out of range the assignment panics and nothing is written. *)
Definition store_element (s : slice) (i : nat) (v : Z) (h : heap) : heap :=
  match slice_array s with
  | Some a =>
      if (i <? slice_len s)%nat then
        mkHeap (header_maps h) (retry_options h)
               (<[a := <[(slice_offset s + i)%nat := v]> (default [] (arrays h !! a))]>
                  (arrays h))
      else h
  | None => h
  end.

(** [copy(dst, src)]: the first min(len(dst), len(src)) elements of [src]
    are written over those of [dst]. *)
Definition copy_slice (dst src : slice) (h : heap) : heap :=
  match slice_array dst with
  | Some a =>
      let n := (slice_len dst `min` slice_len src)%nat in
      mkHeap (header_maps h) (retry_options h)
             (<[a := list_inserts (slice_offset dst) (take n (elements h src))
                                  (default [] (arrays h !! a))]> (arrays h))
  | None => h
  end.

(** [append(s, v)]. Within the capacity the element is written into the
    backing array of [s]; otherwise the elements move to a new array, whose
    capacity beyond the new length, [spare], is the runtime's choice. *)
Definition append (s : slice) (v : Z) (spare : nat) (h : heap) : slice * heap :=
  match slice_array s with
  | Some a =>
      if (slice_len s <? slice_cap s)%nat then
        (mkSlice (Some a) (slice_offset s) (S (slice_len s)) (slice_cap s),
         mkHeap (header_maps h) (retry_options h)
                (<[a := <[(slice_offset s + slice_len s)%nat := v]>
                          (default [] (arrays h !! a))]> (arrays h)))
      else
        let a' := fresh (dom (arrays h)) in
        (mkSlice (Some a') 0 (S (slice_len s)) (S (slice_len s) + spare),
         mkHeap (header_maps h) (retry_options h)
                (<[a' := elements h s ++ v :: replicate spare 0]> (arrays h)))
  | None =>
      let a' := fresh (dom (arrays h)) in
      (mkSlice (Some a') 0 1 (1 + spare),
       mkHeap (header_maps h) (retry_options h)
              (<[a' := v :: replicate spare 0]> (arrays h)))
  end.

Definition DefaultStatusValidator (statusCode : Z) : bool :=
  (200 <=? statusCode) && (statusCode <? 300).

Definition NewConfig (h : heap) : Config * heap :=
  let '(l, h1) := new_map ∅ h in
  (mkConfig "" (30 * Second) (Some l) (Some DefaultStatusValidator) None, h1).

(** [for k, v := range src { dst[k] = v }] on map contents. *)
Definition copy_entries (src dst : gmap string string) : gmap string string :=
  map_fold (fun k v m => <[k := v]> m) dst src.

Definition Clone (c : Config) (h : heap) : Config * heap :=
  let '(headers, h1) := new_map (copy_entries (headers_at h (Headers c)) ∅) h in
  let '(retryOpts, h2) :=
    match RetryOptions c with
    | Some l =>
        match retry_options h1 !! l with
        | Some retryOptsCopy =>
            (* the struct is copied, slice value included; only a slice with
               elements gets an array of its own *)
            let codes := Mem.RetryOnStatusCodes retryOptsCopy in
            let '(retryOptsCopy, h2) :=
              if (0 <? slice_len codes)%nat then
                let '(codes', h2) := make_slice (slice_len codes) h1 in
                (Mem.set_RetryOnStatusCodes codes' retryOptsCopy,
                 copy_slice codes' codes h2)
              else (retryOptsCopy, h1) in
            let '(l', h3) := new_options retryOptsCopy h2 in (Some l', h3)
        | None => (None, h1) (* a non-nil pointer always has its struct *)
        end
    | None => (None, h1)
    end in
  (mkConfig (BaseURL c) (Timeout c) (Some headers) (StatusValidator c) retryOpts, h2).

Definition Merge (c other : Config) (h : heap) : Config * heap :=
  let '(merged, h1) := Clone c h in
  let baseURL :=
    if String.eqb (BaseURL other) "" then BaseURL merged else BaseURL other in
  let timeout :=
    if Timeout other =? 0 then Timeout merged else Timeout other in
  let h2 :=
    match Headers merged with
    | Some l =>
        mkHeap (<[l := copy_entries (headers_at h1 (Headers other))
                                    (headers_at h1 (Some l))]> (header_maps h1))
               (retry_options h1) (arrays h1)
    | None => h1
    end in
  let statusValidator :=
    match StatusValidator other with
    | Some f => Some f
    | None => StatusValidator merged
    end in
  let retryOptions :=
    match RetryOptions other with
    | Some l => Some l
    | None => RetryOptions merged
    end in
  (mkConfig baseURL timeout (Headers merged) statusValidator retryOptions, h2).

(** *** What the holder of a configuration can write

    [SetHeader k v] is [c.Headers[k] = v]; [SetScalars o] assigns every
    field of [*c.RetryOptions] other than the slice from [o];
    [SetCode i v] is [c.RetryOptions.RetryOnStatusCodes[i] = v];
    [AppendCode v spare] is
    [c.RetryOptions.RetryOnStatusCodes = append(c.RetryOptions.RetryOnStatusCodes, v)].
    A write through a nil map or pointer, or out of range, panics: nothing
    is written. *)
Inductive write : Type :=
| SetHeader (k v : string)
| SetScalars (o : Models.RetryOptions)
| SetCode (i : nat) (v : Z)
| AppendCode (v : Z) (spare : nat).

Definition apply_write (c : Config) (w : write) (h : heap) : heap :=
  match w with
  | SetHeader k v =>
      match Headers c with
      | Some l => store_header l k v h
      | None => h
      end
  | SetScalars o =>
      match RetryOptions c with
      | Some l =>
          match retry_options h !! l with
          | Some cur => store_options l (Mem.with_codes (Mem.RetryOnStatusCodes cur) o) h
          | None => h
          end
      | None => h
      end
  | SetCode i v =>
      match RetryOptions c with
      | Some l =>
          match retry_options h !! l with
          | Some cur => store_element (Mem.RetryOnStatusCodes cur) i v h
          | None => h
          end
      | None => h
      end
  | AppendCode v spare =>
      match RetryOptions c with
      | Some l =>
          match retry_options h !! l with
          | Some cur =>
              let '(s, h1) := append (Mem.RetryOnStatusCodes cur) v spare h in
              store_options l (Mem.set_RetryOnStatusCodes s cur) h1
          | None => h
          end
      | None => h
      end
  end.

(** Writes made through one configuration, in order. *)
Definition apply_writes (c : Config) (ws : list write) (h : heap) : heap :=
  fold_left (fun h w => apply_write c w h) ws h.

(** Writes made through two configurations, in the order given: [(true, w)]
    is made through [x], [(false, w)] through [y]. *)
Definition apply_both (x y : Config) (ws : list (bool * write)) (h : heap) : heap :=
  fold_left (fun h (bw : bool * write) =>
               apply_write (if fst bw then x else y) (snd bw) h) ws h.

(** The writes of [ws] made through the first ([true]) or the second
    ([false]) configuration. *)
Fixpoint own_writes (first : bool) (ws : list (bool * write)) : list write :=
  match ws with
  | [] => []
  | (b, w) :: ws' =>
      if Bool.eqb b first then w :: own_writes first ws' else own_writes first ws'
  end.

(** A slice lies within its backing array; a nil slice has no capacity. *)
Definition slice_ok (h : heap) (s : slice) : Prop :=
  (slice_len s <= slice_cap s)%nat /\
  match slice_array s with
  | Some a => exists xs, arrays h !! a = Some xs /\
                         (slice_offset s + slice_cap s <= length xs)%nat
  | None => slice_cap s = 0%nat
  end.

(** The pointers of a configuration point into the heap. *)
Definition allocated (h : heap) (c : Config) : Prop :=
  (forall l, Headers c = Some l -> is_Some (header_maps h !! l)) /\
  (forall l, RetryOptions c = Some l ->
     exists o, retry_options h !! l = Some o /\ slice_ok h (Mem.RetryOnStatusCodes o)).

(** What a configuration says, pointers followed. *)
Definition contents (h : heap) (c : Config)
  : string * Duration * gmap string string * option (Z -> bool) * option Models.RetryOptions :=
  (BaseURL c, Timeout c, headers_at h (Headers c), StatusValidator c,
   options_at h (RetryOptions c)).

(** Length and capacity of the status-code slice. *)
Definition codes_room (h : heap) (c : Config) : option (nat * nat) :=
  match RetryOptions c with
  | Some l =>
      (fun o => (slice_len (Mem.RetryOnStatusCodes o), slice_cap (Mem.RetryOnStatusCodes o)))
        <$> retry_options h !! l
  | None => None
  end.

(** The status-code slice is empty but has capacity: [make([]int, 0, n)],
    or a longer slice cut back to [s[:0]]. *)
Definition has_spare_capacity (h : heap) (c : Config) : bool :=
  match codes_room h c with
  | Some (len, cap) => (len =? 0)%nat && (0 <? cap)%nat
  | None => false
  end.

(** [h'] has everything [h] has, unchanged. *)
Definition extends (h h' : heap) : Prop :=
  (forall l m, header_maps h !! l = Some m -> header_maps h' !! l = Some m) /\
  (forall l o, retry_options h !! l = Some o -> retry_options h' !! l = Some o) /\
  (forall l xs, arrays h !! l = Some xs -> arrays h' !! l = Some xs).

(** Two configurations hold different maps and different structs, and
    backing arrays that are different or without capacity. *)
Definition separate (h : heap) (x y : Config) : Prop :=
  (forall l, Headers x = Some l -> Headers y <> Some l) /\
  (forall l, RetryOptions x = Some l -> RetryOptions y <> Some l) /\
  (forall lx ly ox oy a,
     RetryOptions x = Some lx -> retry_options h !! lx = Some ox ->
     RetryOptions y = Some ly -> retry_options h !! ly = Some oy ->
     slice_array (Mem.RetryOnStatusCodes ox) = Some a ->
     slice_array (Mem.RetryOnStatusCodes oy) = Some a ->
     slice_cap (Mem.RetryOnStatusCodes ox) = 0%nat /\
     slice_cap (Mem.RetryOnStatusCodes oy) = 0%nat).

(** The zero value [Config{}]. *)
Definition zeroConfig : Config := mkConfig "" 0 None None None.

End Configs.

(** ** wasm/helpers.go *)

Module Wasm.

Import GoTime.

Definition durationFromMillis (ms : Z) : Duration := GoInt.mul ms Millisecond.

End Wasm.

(** * Properties *)

(** ** Arithmetic of Go integers *)

Section GoIntFacts.
Import GoInt.

Lemma wrap_in_range z : in_range z -> wrap z = z.
Proof.
  unfold in_range, wrap, min_int, max_int. intros H.
  rewrite Z.mod_small by lia. lia.
Qed.

Lemma wrap_range z : in_range (wrap z).
Proof.
  unfold in_range, wrap, min_int, max_int.
  pose proof (Z.mod_pos_bound (z + 2 ^ 63) (2 ^ 64) ltac:(lia)). lia.
Qed.

Lemma incr_no_overflow x : min_int <= x < max_int -> incr x = x + 1.
Proof.
  intros H. unfold incr, add. apply wrap_in_range. unfold in_range. lia.
Qed.

Lemma saturate_in_range z : in_range z -> saturate z = z.
Proof.
  unfold in_range, saturate. intros H.
  destruct (Z.ltb_spec z min_int); [lia|].
  destruct (Z.ltb_spec max_int z); [lia|]. reflexivity.
Qed.

End GoIntFacts.

(** ** The circuit breaker *)

Section BreakerFacts.
Import Models GoTime Breaker.

Lemma store_lookup_eq k c cb : circuits (store k c cb) !! k = Some c.
Proof. unfold store. simpl. apply lookup_insert_eq. Qed.

Lemma store_lookup_ne k k' c cb :
  k <> k' -> circuits (store k c cb) !! k' = circuits cb !! k'.
Proof. intros Hne. unfold store. simpl. by apply lookup_insert_ne. Qed.

Lemma store_same k c cb : circuits cb !! k = Some c -> store k c cb = cb.
Proof.
  intros H. destruct cb as [m th to ho]. unfold store, set_circuits. simpl in *.
  f_equal. by apply insert_id.
Qed.

Lemma store_store k c c' cb : store k c' (store k c cb) = store k c' cb.
Proof.
  destruct cb as [m th to ho]. unfold store, set_circuits. simpl.
  f_equal. apply insert_insert_eq.
Qed.

Lemma store_config k c cb :
  threshold (store k c cb) = threshold cb /\
  timeout (store k c cb) = timeout cb /\
  halfOpenRequests (store k c cb) = halfOpenRequests cb.
Proof. done. Qed.

(** The gate denies an open circuit whose timeout has not elapsed and leaves
    the breaker as it was. *)
Lemma CanAttempt_open_waiting now k cb r :
  circuits cb !! k = Some r ->
  state r = CircuitBreakerOpen ->
  Since now (openedAt r) < timeout cb ->
  CanAttempt now k cb = (false, cb).
Proof.
  intros Hk Hs Ht. unfold CanAttempt. rewrite Hk, Hs. simpl.
  destruct (Z.leb_spec (timeout cb) (Since now (openedAt r))); [lia | done].
Qed.

(** The gate on a half-open circuit. *)
Lemma CanAttempt_half_open now k cb r :
  circuits cb !! k = Some r ->
  state r = CircuitBreakerHalfOpen ->
  CanAttempt now k cb =
    if halfOpenRequests cb <=? halfOpenAttempts r
    then (false, cb)
    else (true, store k (set_halfOpenAttempts (GoInt.incr (halfOpenAttempts r)) r) cb).
Proof.
  intros Hk Hs. unfold CanAttempt. rewrite Hk, Hs. simpl. rewrite Hs. simpl.
  destruct (halfOpenRequests cb <=? halfOpenAttempts r); [|done].
  by rewrite store_same.
Qed.

(** An open circuit whose timeout has elapsed is first moved to half-open with
    fresh counters, then judged as a half-open circuit. *)
Lemma CanAttempt_open_elapsed now k cb r :
  circuits cb !! k = Some r ->
  state r = CircuitBreakerOpen ->
  timeout cb <= Since now (openedAt r) ->
  CanAttempt now k cb =
    CanAttempt now k
      (store k (set_halfOpenSuccessCount 0
                 (set_halfOpenAttempts 0 (set_state CircuitBreakerHalfOpen r))) cb).
Proof.
  intros Hk Hs Ht.
  erewrite (CanAttempt_half_open now k (store k _ cb)) by (apply store_lookup_eq || done).
  unfold CanAttempt. rewrite Hk, Hs. simpl.
  destruct (Z.leb_spec (timeout cb) (Since now (openedAt r))); [|lia]. simpl.
  destruct (halfOpenRequests cb <=? 0); [done|].
  by rewrite store_store.
Qed.

(** The gate on a closed circuit. *)
Lemma CanAttempt_closed now k cb r :
  circuits cb !! k = Some r ->
  state r = CircuitBreakerClosed ->
  CanAttempt now k cb = (true, cb).
Proof.
  intros Hk Hs. unfold CanAttempt. rewrite Hk, Hs. simpl. rewrite Hs. simpl.
  by rewrite store_same.
Qed.

(** ** C1 *)

(** C1. For a closed record, [RecordFailure] increments [failureCount] (and
    stamps [lastFailureTime]); as soon as the new count has reached the
    threshold the record becomes open with [openedAt] the current clock
    reading, otherwise it stays closed. Whenever a record is open and its
    timeout has not elapsed, [CanAttempt] answers false (and changes
    nothing). *)
Theorem closed_failures_open_the_circuit cb k r tFail tOpen :
  circuits cb !! k = Some r ->
  state r = CircuitBreakerClosed ->
  let cb' := RecordFailure tFail tOpen k cb in
  (exists r',
      circuits cb' !! k = Some r' /\
      failureCount r' = GoInt.incr (failureCount r) /\
      (GoInt.min_int <= failureCount r < GoInt.max_int ->
       failureCount r' = failureCount r + 1) /\
      lastFailureTime r' = tFail /\
      (threshold cb <= failureCount r' ->
       state r' = CircuitBreakerOpen /\ openedAt r' = tOpen) /\
      (failureCount r' < threshold cb ->
       state r' = CircuitBreakerClosed /\ openedAt r' = openedAt r) /\
      halfOpenSuccessCount r' = halfOpenSuccessCount r /\
      halfOpenAttempts r' = halfOpenAttempts r) /\
  (forall cb2 r2 now,
      circuits cb2 !! k = Some r2 ->
      state r2 = CircuitBreakerOpen ->
      Since now (openedAt r2) < timeout cb2 ->
      CanAttempt now k cb2 = (false, cb2)).
Proof.
  intros Hk Hs cb'. split.
  - subst cb'. unfold RecordFailure. rewrite Hk.
    destruct r as [st fc lf oa hs ha]. simpl in Hs. subst st. simpl.
    destruct (Z.leb_spec (threshold cb) (GoInt.incr fc)) as [Hth|Hth];
      simpl; eexists; (split; [apply store_lookup_eq|]); simpl;
      (split; [reflexivity|]); (split; [apply incr_no_overflow|]);
      (split; [reflexivity|]); repeat split; intros; try reflexivity; lia.
  - intros cb2 r2 now. apply CanAttempt_open_waiting.
Qed.

(** A closed record with two recorded failures, threshold 3. *)
Lemma closed_failures_open_the_circuit_witness :
  let r := mkCircuit CircuitBreakerClosed 2 5 zeroTime 0 0 in
  let cb := store "/test" r (NewCircuitBreaker 3 Second 1) in
  circuits cb !! "/test"%string = Some r /\
  state r = CircuitBreakerClosed /\
  (exists r',
      circuits (RecordFailure 10 11 "/test" cb) !! "/test"%string = Some r' /\
      failureCount r' = 3 /\ state r' = CircuitBreakerOpen /\ openedAt r' = 11) /\
  CanAttempt 12 "/test" (RecordFailure 10 11 "/test" cb)
    = (false, RecordFailure 10 11 "/test" cb).
Proof.
  intros r cb.
  pose proof (closed_failures_open_the_circuit cb "/test" r 10 11 eq_refl eq_refl)
    as [[r' (Hk & Hfc & _ & _ & Hopen & _)] Hgate].
  split; [reflexivity|]. split; [reflexivity|].
  assert (Hfc3 : failureCount r' = 3) by (rewrite Hfc; reflexivity).
  destruct Hopen as [Hst Hoa]; [rewrite Hfc3; simpl; lia|].
  split.
  - exists r'. auto.
  - apply (Hgate _ r' 12); [exact Hk | exact Hst |].
    rewrite Hoa. vm_compute. reflexivity.
Defined.

(** Threshold 3 and a failing endpoint: three requests pass the gate and
    fail, the fourth is denied. *)
Example threshold_three_scenario :
  fst (run "/test"
         [OpCanAttempt 1; OpRecordFailure 2 2;
          OpCanAttempt 3; OpRecordFailure 4 4;
          OpCanAttempt 5; OpRecordFailure 6 6;
          OpCanAttempt 7; OpGetState]
         (NewCircuitBreaker 3 Second 0))
  = [ObsBool true; ObsNone; ObsBool true; ObsNone; ObsBool true; ObsNone;
     ObsBool false; ObsState CircuitBreakerOpen].
Proof. vm_compute. reflexivity. Qed.

(** ** C10 *)

(** C10. [RecordFailure] on an open record changes [failureCount] and
    [lastFailureTime] only: the record stays open, [openedAt] is kept, the
    half-open counters are kept, and no other key and no configuration field
    is touched. *)
Theorem failure_on_open_keeps_window cb k r tFail tOpen :
  circuits cb !! k = Some r ->
  state r = CircuitBreakerOpen ->
  (RecordFailure tFail tOpen k cb =
    store k (set_lastFailureTime tFail
              (set_failureCount (GoInt.incr (failureCount r)) r)) cb) /\
  (exists r',
      circuits (RecordFailure tFail tOpen k cb) !! k = Some r' /\
      state r' = CircuitBreakerOpen /\
      openedAt r' = openedAt r /\
      halfOpenSuccessCount r' = halfOpenSuccessCount r /\
      halfOpenAttempts r' = halfOpenAttempts r /\
      failureCount r' = GoInt.incr (failureCount r) /\
      lastFailureTime r' = tFail) /\
  (forall k', k <> k' ->
      circuits (RecordFailure tFail tOpen k cb) !! k' = circuits cb !! k') /\
  (threshold (RecordFailure tFail tOpen k cb) = threshold cb) /\
  (timeout (RecordFailure tFail tOpen k cb) = timeout cb) /\
  (halfOpenRequests (RecordFailure tFail tOpen k cb) = halfOpenRequests cb).
Proof.
  intros Hk Hs.
  assert (Heq : RecordFailure tFail tOpen k cb =
    store k (set_lastFailureTime tFail
              (set_failureCount (GoInt.incr (failureCount r)) r)) cb).
  { unfold RecordFailure. rewrite Hk.
    destruct r as [st fc lf oa hs ha]. simpl in Hs. subst st. reflexivity. }
  split; [exact Heq|]. rewrite Heq. split.
  - eexists. split; [apply store_lookup_eq|]. simpl. by rewrite Hs.
  - split; [intros k' Hne; by apply store_lookup_ne | done].
Qed.

Lemma failure_on_open_keeps_window_witness :
  let r := mkCircuit CircuitBreakerOpen 3 10 11 0 0 in
  let cb := store "/test" r (NewCircuitBreaker 3 Second 1) in
  circuits cb !! "/test"%string = Some r /\
  state r = CircuitBreakerOpen /\
  RecordFailure 20 21 "/test" cb =
    store "/test" (mkCircuit CircuitBreakerOpen 4 20 11 0 0) cb.
Proof.
  intros r cb. split; [reflexivity|]. split; [reflexivity|].
  exact (proj1 (failure_on_open_keeps_window cb "/test" r 20 21 eq_refl eq_refl)).
Defined.

(** ** C4 *)

(** C4. On a half-open record [RecordSuccess] increments
    [halfOpenSuccessCount]; the record becomes closed with [failureCount]
    zero exactly when the new count has reached the configured
    [halfOpenRequests], and otherwise stays half-open with [failureCount]
    untouched. [RecordFailure] on a half-open record makes it open with
    [openedAt] the current clock reading and both half-open counters zero. *)
Theorem half_open_outcomes cb k r tFail tOpen :
  circuits cb !! k = Some r ->
  state r = CircuitBreakerHalfOpen ->
  (exists r',
      circuits (RecordSuccess k cb) !! k = Some r' /\
      halfOpenSuccessCount r' = GoInt.incr (halfOpenSuccessCount r) /\
      (GoInt.min_int <= halfOpenSuccessCount r < GoInt.max_int ->
       halfOpenSuccessCount r' = halfOpenSuccessCount r + 1) /\
      (state r' = CircuitBreakerClosed <->
       halfOpenRequests cb <= halfOpenSuccessCount r') /\
      (halfOpenRequests cb <= halfOpenSuccessCount r' ->
       state r' = CircuitBreakerClosed /\ failureCount r' = 0) /\
      (halfOpenSuccessCount r' < halfOpenRequests cb ->
       state r' = CircuitBreakerHalfOpen /\ failureCount r' = failureCount r) /\
      openedAt r' = openedAt r /\
      lastFailureTime r' = lastFailureTime r /\
      halfOpenAttempts r' = halfOpenAttempts r) /\
  (exists r',
      circuits (RecordFailure tFail tOpen k cb) !! k = Some r' /\
      state r' = CircuitBreakerOpen /\
      openedAt r' = tOpen /\
      halfOpenSuccessCount r' = 0 /\
      halfOpenAttempts r' = 0 /\
      failureCount r' = GoInt.incr (failureCount r) /\
      lastFailureTime r' = tFail).
Proof.
  intros Hk Hs. destruct r as [st fc lf oa hs ha]. simpl in Hs. subst st. split.
  - unfold RecordSuccess. rewrite Hk. simpl.
    destruct (Z.leb_spec (halfOpenRequests cb) (GoInt.incr hs)) as [Hge|Hlt];
      eexists; (split; [apply store_lookup_eq|]); simpl;
      (split; [reflexivity|]); (split; [apply incr_no_overflow|]);
      repeat split; intros; try reflexivity; try discriminate; lia.
  - unfold RecordFailure. rewrite Hk. simpl.
    eexists. split; [apply store_lookup_eq|]. done.
Qed.

(** Three trial successes are configured; the third one closes the circuit. *)
Lemma half_open_outcomes_witness :
  let r := mkCircuit CircuitBreakerHalfOpen 5 10 11 2 3 in
  let cb := store "/test" r (NewCircuitBreaker 5 Second 3) in
  circuits cb !! "/test"%string = Some r /\
  state r = CircuitBreakerHalfOpen /\
  (exists r', circuits (RecordSuccess "/test" cb) !! "/test"%string = Some r' /\
              state r' = CircuitBreakerClosed /\ failureCount r' = 0) /\
  (exists r', circuits (RecordFailure 20 21 "/test" cb) !! "/test"%string = Some r' /\
              state r' = CircuitBreakerOpen /\ openedAt r' = 21).
Proof.
  intros r cb. split; [reflexivity|]. split; [reflexivity|].
  destruct (half_open_outcomes cb "/test" r 20 21 eq_refl eq_refl)
    as [[r1 (Hk1 & Hc1 & _ & _ & Hclose & _)] [r2 (Hk2 & Hs2 & Ho2 & _)]].
  split.
  - exists r1. split; [exact Hk1|]. apply Hclose. rewrite Hc1. vm_compute. discriminate.
  - exists r2. auto.
Defined.

(** ** C9 *)

(** C9 as stated fails when no half-open trial is configured
    ([halfOpenRequests = 0], the zero value of the field): the open record's
    timeout has elapsed, [GetState] says open and [IsOpen] says false, but the
    gate moves the record to half-open and then denies. *)
Lemma stale_open_gate_counterexample :
  ~ (forall cb k r now,
        circuits cb !! k = Some r ->
        state r = CircuitBreakerOpen ->
        timeout cb <= Since now (openedAt r) ->
        GetState k cb = CircuitBreakerOpen /\
        IsOpen now k cb = false /\
        fst (CanAttempt now k cb) = true).
Proof.
  intros H.
  pose (r := mkCircuit CircuitBreakerOpen 3 10 11 0 0).
  pose (cb := store "/test" r (NewCircuitBreaker 3 Second 0)).
  destruct (H cb "/test"%string r (11 + 2 * Second) eq_refl eq_refl) as (_ & _ & Hgate).
  - vm_compute. discriminate.
  - vm_compute in Hgate. discriminate.
Qed.

(** C9, amended. For an open record whose timeout has elapsed, [GetState]
    returns open (it performs no time-based transition), [IsOpen] returns
    false, and [CanAttempt] moves the record to half-open; it permits the
    attempt exactly when at least one half-open trial is configured. *)
Theorem stale_open_state_query cb k r now :
  circuits cb !! k = Some r ->
  state r = CircuitBreakerOpen ->
  timeout cb <= Since now (openedAt r) ->
  GetState k cb = CircuitBreakerOpen /\
  IsOpen now k cb = false /\
  (fst (CanAttempt now k cb) = true <-> 1 <= halfOpenRequests cb) /\
  (1 <= halfOpenRequests cb -> fst (CanAttempt now k cb) = true) /\
  GetState k (snd (CanAttempt now k cb)) = CircuitBreakerHalfOpen.
Proof.
  intros Hk Hs Ht.
  assert (Hget : GetState k cb = CircuitBreakerOpen).
  { unfold GetState. by rewrite Hk. }
  assert (His : IsOpen now k cb = false).
  { unfold IsOpen. rewrite Hk, Hs. simpl.
    destruct (Z.leb_spec (timeout cb) (Since now (openedAt r))); [done | lia]. }
  split; [exact Hget|]. split; [exact His|].
  unfold CanAttempt, GetState. rewrite Hk, Hs. simpl.
  destruct (Z.leb_spec (timeout cb) (Since now (openedAt r))); [|lia]. simpl.
  destruct (Z.leb_spec (halfOpenRequests cb) 0); simpl;
    rewrite lookup_insert_eq; simpl; repeat split; intros; try done; lia.
Qed.

Lemma stale_open_state_query_witness :
  let r := mkCircuit CircuitBreakerOpen 3 10 11 0 0 in
  let cb := store "/test" r (NewCircuitBreaker 3 Second 1) in
  let now := 11 + 2 * Second in
  circuits cb !! "/test"%string = Some r /\
  state r = CircuitBreakerOpen /\
  timeout cb <= Since now (openedAt r) /\
  GetState "/test" cb = CircuitBreakerOpen /\
  IsOpen now "/test" cb = false /\
  fst (CanAttempt now "/test" cb) = true.
Proof.
  intros r cb now.
  assert (Ht : timeout cb <= Since now (openedAt r)) by (vm_compute; discriminate).
  destruct (stale_open_state_query cb "/test" r now eq_refl eq_refl Ht)
    as (Hget & His & _ & Hgate & _).
  split; [reflexivity|]. split; [reflexivity|]. split; [exact Ht|].
  split; [exact Hget|]. split; [exact His|].
  apply Hgate. vm_compute. discriminate.
Defined.

(** ** C3 *)

Lemma permits_nonneg bs : 0 <= permits bs.
Proof. induction bs as [|[] bs IH]; simpl; lia. Qed.

(** Within a half-open window, [halfOpenAttempts] counts the permits and never
    passes the configured budget. *)
Lemma CanAttempts_half_open nows : forall k cb r,
  circuits cb !! k = Some r ->
  state r = CircuitBreakerHalfOpen ->
  GoInt.min_int <= halfOpenAttempts r ->
  halfOpenRequests cb <= GoInt.max_int ->
  exists r',
    circuits (snd (CanAttempts nows k cb)) !! k = Some r' /\
    state r' = CircuitBreakerHalfOpen /\
    halfOpenAttempts r' = halfOpenAttempts r + permits (fst (CanAttempts nows k cb)) /\
    halfOpenAttempts r' <= Z.max (halfOpenAttempts r) (halfOpenRequests cb) /\
    halfOpenSuccessCount r' = halfOpenSuccessCount r.
Proof.
  induction nows as [|now nows IH]; intros k cb r Hk Hs Hlo Hhi; simpl.
  - exists r. repeat split; try done; lia.
  - rewrite (CanAttempt_half_open now k cb r Hk Hs).
    destruct (Z.leb_spec (halfOpenRequests cb) (halfOpenAttempts r)) as [Hfull|Hfree].
    + destruct (IH k cb r Hk Hs Hlo Hhi) as (r' & Hk' & Hs' & Ha' & Hb' & Hc').
      destruct (CanAttempts nows k cb) as [bs cb2]. simpl in *.
      exists r'. repeat split; try done; lia.
    + set (r1 := set_halfOpenAttempts (GoInt.incr (halfOpenAttempts r)) r).
      assert (Hincr : halfOpenAttempts r1 = halfOpenAttempts r + 1).
      { simpl. apply incr_no_overflow. lia. }
      destruct (IH k (store k r1 cb) r1 (store_lookup_eq _ _ _) Hs) as
        (r' & Hk' & Hs' & Ha' & Hb' & Hc'); [lia | simpl; lia |].
      destruct (CanAttempts nows k (store k r1 cb)) as [bs cb2]. simpl in *.
      exists r'. repeat split; try done; lia.
Qed.

(** Whatever is called while the record is half-open, the permits of the
    window never exceed what is left of the budget. *)
Lemma window_permits_budget os : forall k cb r,
  circuits cb !! k = Some r ->
  state r = CircuitBreakerHalfOpen ->
  GoInt.min_int <= halfOpenAttempts r ->
  halfOpenRequests cb <= GoInt.max_int ->
  window_permits os k cb <= Z.max 0 (halfOpenRequests cb - halfOpenAttempts r).
Proof.
  induction os as [|o os IH]; intros k cb r Hk Hs Hlo Hhi; simpl; [lia|].
  unfold GetState at 1. rewrite Hk, Hs. simpl.
  assert (Hend : forall cb1, GetState k cb1 <> CircuitBreakerHalfOpen ->
                             window_permits os k cb1 = 0).
  { intros cb1 Hne. destruct os as [|o' os']; simpl; [done|].
    destruct (GetState k cb1); simpl; congruence. }
  destruct o as [t|t| |tF tO| |]; simpl.
  - pose proof (IH k cb r Hk Hs Hlo Hhi). lia.
  - rewrite (CanAttempt_half_open t k cb r Hk Hs).
    destruct (Z.leb_spec (halfOpenRequests cb) (halfOpenAttempts r)) as [Hfull|Hfree].
    + pose proof (IH k cb r Hk Hs Hlo Hhi). simpl. lia.
    + set (r1 := set_halfOpenAttempts (GoInt.incr (halfOpenAttempts r)) r).
      assert (Hincr : halfOpenAttempts r1 = halfOpenAttempts r + 1).
      { simpl. apply incr_no_overflow. lia. }
      pose proof (IH k (store k r1 cb) r1 (store_lookup_eq _ _ _) Hs) as IH1.
      simpl. rewrite Hincr in IH1. simpl in IH1. lia.
  - unfold RecordSuccess. rewrite Hk, Hs. simpl.
    destruct (Z.leb_spec (halfOpenRequests cb) (GoInt.incr (halfOpenSuccessCount r))).
    + rewrite Hend; [lia|]. unfold GetState. rewrite store_lookup_eq. simpl. congruence.
    + set (r1 := set_halfOpenSuccessCount (GoInt.incr (halfOpenSuccessCount r)) r).
      pose proof (IH k (store k r1 cb) r1 (store_lookup_eq _ _ _) Hs) as IH1.
      simpl in IH1. lia.
  - rewrite Hend; [lia|]. unfold GetState, RecordFailure. rewrite Hk.
    destruct r as [st fc lf oa hs ha]. simpl in Hs. subst st. simpl.
    rewrite lookup_insert_eq. simpl. congruence.
  - pose proof (IH k cb r Hk Hs Hlo Hhi). lia.
  - rewrite Hend; [lia|]. unfold GetState, Reset. simpl.
    rewrite lookup_delete_eq. congruence.
Qed.

(** C3. When the gate is asked about an open record whose timeout has elapsed
    it first makes the record half-open with both half-open counters zero and
    then judges it as a half-open record. On a half-open record the gate
    permits, incrementing [halfOpenAttempts], exactly while
    [halfOpenAttempts < halfOpenRequests], and otherwise denies and changes
    nothing. Hence however often the gate is asked in the window opened by the
    first call, the record stays half-open, [halfOpenAttempts] equals the
    number of permits, and that number is at most [halfOpenRequests]. *)
Theorem half_open_window_budget cb k r now :
  circuits cb !! k = Some r ->
  state r = CircuitBreakerOpen ->
  timeout cb <= Since now (openedAt r) ->
  halfOpenRequests cb <= GoInt.max_int ->
  (CanAttempt now k cb =
     CanAttempt now k
       (store k (set_halfOpenSuccessCount 0
                  (set_halfOpenAttempts 0 (set_state CircuitBreakerHalfOpen r))) cb)) /\
  (forall cb2 r2 now2,
      circuits cb2 !! k = Some r2 ->
      state r2 = CircuitBreakerHalfOpen ->
      CanAttempt now2 k cb2 =
        if halfOpenAttempts r2 <? halfOpenRequests cb2
        then (true, store k (set_halfOpenAttempts (GoInt.incr (halfOpenAttempts r2)) r2) cb2)
        else (false, cb2)) /\
  (forall nows,
      exists r',
        circuits (snd (CanAttempts (now :: nows) k cb)) !! k = Some r' /\
        state r' = CircuitBreakerHalfOpen /\
        halfOpenSuccessCount r' = 0 /\
        halfOpenAttempts r' = permits (fst (CanAttempts (now :: nows) k cb)) /\
        permits (fst (CanAttempts (now :: nows) k cb)) <= Z.max 0 (halfOpenRequests cb)) /\
  (forall os,
      permit_of (OpCanAttempt now) (ObsBool (fst (CanAttempt now k cb)))
      + window_permits os k (snd (CanAttempt now k cb))
      <= Z.max 0 (halfOpenRequests cb)).
Proof.
  intros Hk Hs Ht Hhi.
  pose proof (CanAttempt_open_elapsed now k cb r Hk Hs Ht) as Hfirst.
  split; [exact Hfirst|]. split; [|split].
  - intros cb2 r2 now2 Hk2 Hs2. rewrite (CanAttempt_half_open now2 k cb2 r2 Hk2 Hs2).
    destruct (Z.leb_spec (halfOpenRequests cb2) (halfOpenAttempts r2));
      destruct (Z.ltb_spec (halfOpenAttempts r2) (halfOpenRequests cb2)); try done; lia.
  - intros nows.
    set (r0 := set_halfOpenSuccessCount 0
                 (set_halfOpenAttempts 0 (set_state CircuitBreakerHalfOpen r))) in *.
    assert (Hsame : CanAttempts (now :: nows) k cb = CanAttempts (now :: nows) k (store k r0 cb)).
    { simpl. by rewrite Hfirst. }
    rewrite Hsame.
    destruct (CanAttempts_half_open (now :: nows) k (store k r0 cb) r0
                (store_lookup_eq _ _ _) eq_refl) as (r' & Hk' & Hs' & Ha' & Hb' & Hc');
      [simpl; unfold GoInt.min_int; lia | simpl; lia |].
    exists r'. simpl in Ha', Hb', Hc'. repeat split; try done; simpl in *; lia.
  - intros os. rewrite Hfirst.
    set (r0 := set_halfOpenSuccessCount 0
                 (set_halfOpenAttempts 0 (set_state CircuitBreakerHalfOpen r))).
    rewrite (CanAttempt_half_open now k (store k r0 cb) r0 (store_lookup_eq _ _ _) eq_refl).
    simpl. destruct (Z.leb_spec (halfOpenRequests cb) 0) as [Hnone|Hsome]; simpl.
    + pose proof (window_permits_budget os k (store k r0 cb) r0
                    (store_lookup_eq _ _ _) eq_refl) as Hb.
      simpl in Hb. unfold GoInt.min_int in Hb. lia.
    + set (r1 := set_halfOpenAttempts (GoInt.incr 0) r0).
      pose proof (window_permits_budget os k (store k r1 (store k r0 cb)) r1
                    (store_lookup_eq _ _ _) eq_refl) as Hb.
      simpl in Hb. change (GoInt.incr 0) with 1 in Hb.
      unfold GoInt.min_int in Hb. lia.
Qed.

(** Two trials configured, the gate asked four times after the timeout. *)
Lemma half_open_window_budget_witness :
  let r := mkCircuit CircuitBreakerOpen 3 10 11 7 7 in
  let cb := store "/test" r (NewCircuitBreaker 3 Second 2) in
  let now := 11 + 2 * Second in
  circuits cb !! "/test"%string = Some r /\
  state r = CircuitBreakerOpen /\
  timeout cb <= Since now (openedAt r) /\
  halfOpenRequests cb <= GoInt.max_int /\
  fst (CanAttempts [now; now + 1; now + 2; now + 3] "/test" cb) = [true; true; false; false] /\
  permits (fst (CanAttempts [now; now + 1; now + 2; now + 3] "/test" cb)) <= 2.
Proof.
  intros r cb now.
  assert (Ht : timeout cb <= Since now (openedAt r)) by (vm_compute; discriminate).
  assert (Hhi : halfOpenRequests cb <= GoInt.max_int) by (vm_compute; discriminate).
  destruct (half_open_window_budget cb "/test" r now eq_refl eq_refl Ht Hhi)
    as (_ & _ & Hwin & _).
  destruct (Hwin [now + 1; now + 2; now + 3]) as (r' & _ & _ & _ & _ & Hle).
  split; [reflexivity|]. split; [reflexivity|]. split; [exact Ht|]. split; [exact Hhi|].
  split; [vm_compute; reflexivity | exact Hle].
Defined.

(** ** C8 *)

Lemma same_for_refl k cb : same_for k cb cb.
Proof. by unfold same_for. Qed.

Lemma same_for_store k c cb1 cb2 :
  same_for k cb1 cb2 -> same_for k (store k c cb1) (store k c cb2).
Proof.
  intros (Hth & Hto & Hho & _). unfold same_for. rewrite !store_lookup_eq. done.
Qed.

(** Every exported method answers, and updates the record of [k], from the
    configuration and the record of [k] alone. *)
Lemma step_same_for k o cb1 cb2 :
  same_for k cb1 cb2 ->
  fst (step k o cb1) = fst (step k o cb2) /\
  same_for k (snd (step k o cb1)) (snd (step k o cb2)).
Proof.
  intros Hsame. pose proof Hsame as (Hth & Hto & Hho & Hk).
  destruct o as [t|t| |tF tO| |]; simpl.
  - unfold IsOpen. rewrite Hk, Hto. done.
  - unfold CanAttempt. rewrite Hk, Hto, Hho.
    destruct (circuits cb2 !! k) as [c|]; simpl.
    + destruct (CircuitBreakerState_eqb (state c) CircuitBreakerOpen).
      * destruct (timeout cb2 <=? Since t (openedAt c)); simpl; [|done].
        destruct (halfOpenRequests cb2 <=? 0); simpl; by auto using same_for_store.
      * destruct (CircuitBreakerState_eqb (state c) CircuitBreakerHalfOpen); simpl;
          [destruct (halfOpenRequests cb2 <=? halfOpenAttempts c); simpl|];
          by auto using same_for_store.
    + by auto using same_for_store.
  - unfold RecordSuccess. rewrite Hk, Hho. split; [done|].
    destruct (circuits cb2 !! k) as [c|]; [|done].
    destruct (CircuitBreakerState_eqb (state c) CircuitBreakerHalfOpen).
    + simpl. destruct (halfOpenRequests cb2 <=? GoInt.incr (halfOpenSuccessCount c));
        by auto using same_for_store.
    + destruct (CircuitBreakerState_eqb (state c) CircuitBreakerClosed);
        by auto using same_for_store.
  - unfold RecordFailure. rewrite Hk, Hth. split; [done|]. by apply same_for_store.
  - unfold GetState. by rewrite Hk.
  - split; [done|]. unfold same_for, Reset. simpl. by rewrite !lookup_delete_eq.
Qed.

Lemma run_same_for k os : forall cb1 cb2,
  same_for k cb1 cb2 ->
  fst (run k os cb1) = fst (run k os cb2) /\
  same_for k (snd (run k os cb1)) (snd (run k os cb2)).
Proof.
  induction os as [|o os IH]; intros cb1 cb2 Hsame; simpl; [done|].
  destruct (step_same_for k o cb1 cb2 Hsame) as [Hobs Hnext].
  destruct (step k o cb1) as [x1 cb1'], (step k o cb2) as [x2 cb2']. simpl in *.
  destruct (IH cb1' cb2' Hnext) as [Hobs' Hlast].
  destruct (run k os cb1') as [xs1 cb1''], (run k os cb2') as [xs2 cb2'']. simpl in *.
  split; [congruence | done].
Qed.

(** C8. For a key without a record, [RecordSuccess] changes nothing: the
    breaker is the same and the key still has no record. [RecordFailure]
    creates one: afterwards the key has a record, the one that the call
    makes of a closed record with every counter at zero, that is, one
    failure counted at [tFail], still closed (or, when the threshold is at
    most 1, opened at [tOpen] by the same call), and no other key is
    touched. [Reset] removes the record of its key and nothing else, after
    which [GetState] answers closed, [IsOpen] false, the gate permits, and
    every sequence of calls for that key is answered exactly as by a
    breaker that has never seen the key; [ResetAll] yields the breaker as
    constructed. *)
Theorem unseen_key_baseline cb k :
  (circuits cb !! k = None ->
   RecordSuccess k cb = cb /\ circuits (RecordSuccess k cb) !! k = None) /\
  (circuits cb !! k = None ->
   forall tFail tOpen,
     state newCircuit = CircuitBreakerClosed /\
     RecordFailure tFail tOpen k cb =
       RecordFailure tFail tOpen k (store k newCircuit cb) /\
     circuits (RecordFailure tFail tOpen k cb) !! k =
       Some (if threshold cb <=? 1
             then mkCircuit CircuitBreakerOpen 1 tFail tOpen 0 0
             else mkCircuit CircuitBreakerClosed 1 tFail zeroTime 0 0) /\
     (forall k', k <> k' ->
        circuits (RecordFailure tFail tOpen k cb) !! k' = circuits cb !! k')) /\
  (circuits (Reset k cb) !! k = None) /\
  (forall k', k <> k' -> circuits (Reset k cb) !! k' = circuits cb !! k') /\
  (GetState k (Reset k cb) = CircuitBreakerClosed) /\
  (forall now, IsOpen now k (Reset k cb) = false) /\
  (forall now, fst (CanAttempt now k (Reset k cb)) = true) /\
  (forall os,
     let fresh := NewCircuitBreaker (threshold cb) (timeout cb) (halfOpenRequests cb) in
     fst (run k os (Reset k cb)) = fst (run k os fresh) /\
     same_for k (snd (run k os (Reset k cb))) (snd (run k os fresh))) /\
  (ResetAll cb = NewCircuitBreaker (threshold cb) (timeout cb) (halfOpenRequests cb)).
Proof.
  assert (Hgone : circuits (Reset k cb) !! k = None).
  { unfold Reset. simpl. apply lookup_delete_eq. }
  split; [intros Hk; unfold RecordSuccess; by rewrite Hk|].
  split.
  { intros Hk tFail tOpen. split; [reflexivity|]. split; [|split].
    - unfold RecordFailure. rewrite Hk, store_lookup_eq. simpl.
      by rewrite store_store.
    - unfold RecordFailure. rewrite Hk, store_lookup_eq. simpl.
      change (GoInt.incr 0) with 1. by destruct (threshold cb <=? 1).
    - intros k' Hne. unfold RecordFailure. by apply store_lookup_ne. }
  split; [exact Hgone|].
  split; [intros k' Hne; unfold Reset; simpl; by apply lookup_delete_ne|].
  split; [unfold GetState; by rewrite Hgone|].
  split; [intros now; unfold IsOpen; by rewrite Hgone|].
  split; [intros now; unfold CanAttempt; by rewrite Hgone|].
  split; [|by destruct cb].
  intros os fresh. apply run_same_for. unfold same_for. rewrite Hgone. done.
Qed.

(** The record of "/fail" is open when the key is reset; "/other" has never
    been seen. *)
Lemma unseen_key_baseline_witness :
  let r := mkCircuit CircuitBreakerOpen 3 10 11 0 0 in
  let cb := store "/fail" r (NewCircuitBreaker 3 Second 1) in
  circuits cb !! "/other"%string = None /\
  RecordSuccess "/other" cb = cb /\
  circuits (RecordFailure 20 21 "/other" cb) !! "/other"%string =
    Some (mkCircuit CircuitBreakerClosed 1 20 zeroTime 0 0) /\
  circuits (RecordFailure 20 21 "/other" cb) !! "/fail"%string = Some r /\
  GetState "/fail" (Reset "/fail" cb) = CircuitBreakerClosed /\
  fst (CanAttempt 12 "/fail" (Reset "/fail" cb)) = true.
Proof.
  intros r cb.
  destruct (unseen_key_baseline cb "/other") as (Hsucc & Hfail & _).
  destruct (unseen_key_baseline cb "/fail") as (_ & _ & _ & _ & Hget & _ & Hgate & _).
  destruct (Hfail eq_refl 20 21) as (_ & _ & Hrec & Hrest).
  split; [reflexivity|]. split; [exact (proj1 (Hsucc eq_refl))|].
  split; [exact Hrec|].
  split; [exact (Hrest "/fail"%string ltac:(discriminate))|].
  split; [exact Hget | exact (Hgate 12)].
Defined.

End BreakerFacts.

(** ** The retry decision *)

Section RetryDecision.
Import GoTime Float64 Models Retry.

Lemma code_listed_In statusCode codes :
  code_listed statusCode codes = true <-> In statusCode codes.
Proof.
  induction codes as [|code codes IH]; simpl.
  - split; [discriminate | tauto].
  - destruct (Z.eqb_spec statusCode code) as [->|Hne].
    + split; auto.
    + rewrite IH. split; [auto | intros [Heq|Hin]; [congruence | exact Hin]].
Qed.

Lemma ShouldRetryStatus_spec r statusCode :
  ShouldRetryStatus r statusCode = true <->
  500 <= statusCode < 600 \/ In statusCode (RetryOnStatusCodes r).
Proof.
  unfold ShouldRetryStatus.
  destruct (Z.leb_spec 500 statusCode), (Z.ltb_spec statusCode 600); simpl;
    rewrite ?code_listed_In; split; auto; try lia; intros [?|?]; auto; lia.
Qed.

(** ** C5 *)

(** C5. [ShouldRetry] answers true exactly when the attempt index is below
    [MaxRetries] and either a transport error occurred or the status code is
    in the retry set: 500..599 or one of the configured additional codes. *)
Theorem ShouldRetry_iff rm attempt statusCode (err : error) :
  ShouldRetry rm attempt statusCode err = true <->
  attempt < MaxRetries (options rm) /\
  (err <> None \/
   500 <= statusCode < 600 \/
   In statusCode (RetryOnStatusCodes (options rm))).
Proof.
  unfold ShouldRetry.
  destruct (Z.leb_spec (MaxRetries (options rm)) attempt) as [Hmax|Hmax].
  - split; [discriminate | lia].
  - destruct err as [msg|].
    + split; [intros _; split; [lia | left; discriminate] | reflexivity].
    + rewrite ShouldRetryStatus_spec. split.
      * intros H. split; [lia | right; exact H].
      * intros [_ [Herr|H]]; [congruence | exact H].
Qed.

End RetryDecision.

(** ** float64 arithmetic *)

Section ReferenceChecks.
Import Float64 Float64Reference.

(** On the samples multiplication, addition and subtraction return the
    values of the reference implementation, and so does the conversion from
    integers. *)
Example operations_agree_with_reference :
  agree samples mul (SpecFloat.SFmul 53 1024) = true /\
  agree wide_samples mul (SpecFloat.SFmul 53 1024) = true /\
  agree samples add (SpecFloat.SFadd 53 1024) = true /\
  agree samples sub (SpecFloat.SFsub 53 1024) = true /\
  forallb (fun z => same_value (of_int z)
                      (of_spec (SpecFloat.binary_normalize 53 1024 z 0 false)))
          int_samples = true.
Proof.
  split; [vm_compute; reflexivity|].
  split; [vm_compute; reflexivity|].
  split; [vm_compute; reflexivity|].
  split; vm_compute; reflexivity.
Qed.

(** [three_tenths] is the float64 nearest to 3/10: it lies below 3/10 and
    closer to it than the next float64 above. *)
Example three_tenths_nearest :
  (to_Q three_tenths < 3 # 10)%Q /\
  ((3 # 10) - to_Q three_tenths < to_Q (Fin 5404319552844596 (-54)) - (3 # 10))%Q.
Proof. split; vm_compute; reflexivity. Qed.

End ReferenceChecks.

Section Pow2.
Import Float64.
Local Open Scope Q_scope.

Lemma p2_pos e : 0 < 2 ^ e.
Proof. apply Qpower_0_lt. reflexivity. Qed.

Lemma p2_add a b : 2 ^ (a + b) == 2 ^ a * 2 ^ b.
Proof. apply Qpower_plus. discriminate. Qed.

Lemma p2_mono a b : (a <= b)%Z -> 2 ^ a <= 2 ^ b.
Proof. intros H. apply Qpower_le_compat_l; [exact H | discriminate]. Qed.

Lemma p2_Z k : (0 <= k)%Z -> 2 ^ k == inject_Z (2 ^ k).
Proof. intros H. symmetry. apply (Zpower_Qpower 2 k H). Qed.

Lemma dyadic_shift m e k : (0 <= k)%Z -> dyadic (m * 2 ^ k) (e - k) == dyadic m e.
Proof.
  intros Hk. unfold dyadic. rewrite inject_Z_mult, <- (p2_Z k Hk).
  replace e with ((e - k) + k)%Z at 2 by ring. rewrite p2_add. ring.
Qed.

Lemma dyadic_le m1 m2 e : dyadic m1 e <= dyadic m2 e <-> (m1 <= m2)%Z.
Proof.
  unfold dyadic. rewrite Qmult_le_r by apply p2_pos. rewrite Zle_Qle. reflexivity.
Qed.

Lemma dyadic_lt m1 m2 e : dyadic m1 e < dyadic m2 e <-> (m1 < m2)%Z.
Proof.
  unfold dyadic. rewrite Qmult_lt_r by apply p2_pos. rewrite Zlt_Qlt. reflexivity.
Qed.

Lemma dyadic_int m : dyadic m 0 == inject_Z m.
Proof. unfold dyadic. simpl. ring. Qed.

Lemma dyadic_opp m e : dyadic (- m) e == - dyadic m e.
Proof. unfold dyadic. rewrite inject_Z_opp. ring. Qed.

Lemma dyadic_mul m1 e1 m2 e2 :
  dyadic (m1 * m2) (e1 + e2) == dyadic m1 e1 * dyadic m2 e2.
Proof. unfold dyadic. rewrite inject_Z_mult, p2_add. ring. Qed.

Lemma dyadic_add m1 e1 m2 e2 :
  let e := Z.min e1 e2 in
  dyadic (m1 * 2 ^ (e1 - e) + m2 * 2 ^ (e2 - e)) e == dyadic m1 e1 + dyadic m2 e2.
Proof.
  intros e.
  rewrite <- (dyadic_shift m1 e1 (e1 - e)) by lia.
  rewrite <- (dyadic_shift m2 e2 (e2 - e)) by lia.
  replace (e1 - (e1 - e))%Z with e by ring.
  replace (e2 - (e2 - e))%Z with e by ring.
  unfold dyadic. rewrite inject_Z_plus. ring.
Qed.

End Pow2.

Section Rounding.
Import Float64.

Lemma rne_upper m s B : 0 < s -> m <= B * 2 ^ s -> rne m s <= B.
Proof.
  intros Hs Hm. unfold rne.
  assert (Hp : 0 < 2 ^ s) by (apply Z.pow_pos_nonneg; lia).
  assert (Hh : 0 < 2 ^ (s - 1)) by (apply Z.pow_pos_nonneg; lia).
  pose proof (Z.div_mod m (2 ^ s) ltac:(lia)) as Hdm.
  pose proof (Z.mod_pos_bound m (2 ^ s) Hp) as Hr.
  set (q := m / 2 ^ s) in *. set (r := m mod 2 ^ s) in *.
  assert (Hq : q <= B) by nia.
  assert (Hq1 : 0 < r -> q + 1 <= B) by nia.
  destruct (Z.ltb_spec r (2 ^ (s - 1))); [exact Hq|].
  destruct (Z.ltb_spec (2 ^ (s - 1)) r); [apply Hq1; lia|].
  destruct (Z.even q); [exact Hq | apply Hq1; lia].
Qed.

Lemma rne_lower m s B : 0 < s -> B * 2 ^ s <= m -> B <= rne m s.
Proof.
  intros Hs Hm. unfold rne.
  assert (Hp : 0 < 2 ^ s) by (apply Z.pow_pos_nonneg; lia).
  pose proof (Z.div_mod m (2 ^ s) ltac:(lia)) as Hdm.
  pose proof (Z.mod_pos_bound m (2 ^ s) Hp) as Hr.
  set (q := m / 2 ^ s) in *. set (r := m mod 2 ^ s) in *.
  assert (Hq : B <= q) by nia.
  destruct (Z.ltb_spec r (2 ^ (s - 1))); [exact Hq|].
  destruct (Z.ltb_spec (2 ^ (s - 1)) r); [lia|].
  destruct (Z.even q); lia.
Qed.

Lemma digits_upper m : Z.abs m < 2 ^ digits m.
Proof.
  unfold digits. destruct (Z.eq_dec m 0) as [->|Hm]; [reflexivity|].
  pose proof (Z.log2_spec (Z.abs m) ltac:(lia)). unfold Z.succ in *. lia.
Qed.

Lemma digits_lower m : m <> 0 -> 2 ^ (digits m - 1) <= Z.abs m.
Proof.
  intros Hm. unfold digits.
  pose proof (Z.log2_spec (Z.abs m) ltac:(lia)).
  replace (Z.log2 (Z.abs m) + 1 - 1) with (Z.log2 (Z.abs m)) by ring. lia.
Qed.

Lemma digits_bound m k : 0 < k -> Z.abs m < 2 ^ k -> digits m <= k.
Proof.
  intros Hk Hm. unfold digits.
  destruct (Z.eq_dec m 0) as [->|Hne].
  - simpl. lia.
  - pose proof (Z.log2_lt_pow2 (Z.abs m) k ltac:(lia)) as [H _]. specialize (H Hm). lia.
Qed.

End Rounding.

Section RoundFin.
Import Float64.
Local Open Scope Q_scope.

(** A representable number below the exponent [E] lies within the binade
    boundary [2^52 * 2^E]. *)
Lemma binade_bound mb eb E :
  (Z.abs mb <= 2 ^ prec)%Z -> (eb < E)%Z ->
  - dyadic (2 ^ 52) E <= dyadic mb eb /\ dyadic mb eb <= dyadic (2 ^ 52) E.
Proof.
  intros Hmb He.
  assert (Hc : dyadic (2 ^ 53) (E - 1) == dyadic (2 ^ 52) E).
  { rewrite <- (dyadic_shift (2 ^ 52) E 1) by lia. reflexivity. }
  assert (Hstep : dyadic (2 ^ 53) eb <= dyadic (2 ^ 53) (E - 1)).
  { unfold dyadic. apply Qmult_le_l; [reflexivity | apply p2_mono; lia]. }
  unfold prec in Hmb.
  assert (Hhi : dyadic mb eb <= dyadic (2 ^ 53) eb) by (apply dyadic_le; lia).
  assert (Hlo : dyadic (- 2 ^ 53) eb <= dyadic mb eb) by (apply dyadic_le; lia).
  rewrite dyadic_opp in Hlo. rewrite <- Hc. split; lra.
Qed.

Lemma round_fin_representable m e :
  representable (dyadic (fst (round_fin m e)) (snd (round_fin m e))).
Proof.
  unfold round_fin. set (s := Z.max (digits m - prec) (emin - e)).
  destruct (Z.ltb_spec 0 s) as [Hs|Hs]; simpl.
  - exists (rne m s), (e + s)%Z. split; [reflexivity|]. split; [|lia].
    pose proof (digits_upper m) as Hd.
    assert (Hpow : (2 ^ digits m <= 2 ^ prec * 2 ^ s)%Z).
    { rewrite <- Z.pow_add_r by (unfold prec; lia).
      apply Z.pow_le_mono_r; lia. }
    apply Z.abs_le. split.
    + apply rne_lower; lia.
    + apply rne_upper; lia.
  - exists m, e. split; [reflexivity|]. split; [|lia].
    pose proof (digits_upper m) as Hd.
    assert ((2 ^ digits m <= 2 ^ prec)%Z) by (apply Z.pow_le_mono_r; lia). lia.
Qed.

Lemma round_fin_binade m e s :
  s = Z.max (digits m - prec) (emin - e) -> (0 < s)%Z -> (emin < e + s)%Z ->
  (2 ^ 52 * 2 ^ s <= Z.abs m)%Z.
Proof.
  intros Hs Hpos He.
  assert (Hd : digits m = (s + 53)%Z) by (unfold prec in Hs; lia).
  assert (Hm : m <> 0%Z).
  { intros ->. unfold digits in Hd. simpl in Hd. lia. }
  pose proof (digits_lower m Hm) as Hl. rewrite Hd in Hl.
  replace (s + 53 - 1)%Z with (52 + s)%Z in Hl by ring.
  rewrite Z.pow_add_r in Hl by lia. exact Hl.
Qed.

Lemma round_fin_upper m e b :
  representable b -> dyadic m e <= b ->
  dyadic (fst (round_fin m e)) (snd (round_fin m e)) <= b.
Proof.
  intros (mb & eb & Hb & Hmb & Heb) Hx. unfold round_fin.
  set (s := Z.max (digits m - prec) (emin - e)).
  destruct (Z.ltb_spec 0 s) as [Hs|Hs]; simpl; [|exact Hx].
  rewrite Hb in *.
  assert (Hxs : forall B, dyadic (B * 2 ^ s) e == dyadic B (e + s)).
  { intros B. rewrite <- (dyadic_shift B (e + s) s) by lia.
    replace (e + s - s)%Z with e by ring. reflexivity. }
  destruct (Z_le_gt_dec (e + s) eb) as [HA|HB].
  - set (B := (mb * 2 ^ (eb - (e + s)))%Z).
    assert (HbB : dyadic mb eb == dyadic B (e + s)).
    { unfold B. rewrite <- (dyadic_shift mb eb (eb - (e + s))) by lia.
      replace (eb - (eb - (e + s)))%Z with (e + s)%Z by ring. reflexivity. }
    rewrite HbB in *. rewrite <- Hxs in Hx. apply dyadic_le in Hx.
    apply dyadic_le. apply rne_upper; assumption.
  - pose proof (round_fin_binade m e s eq_refl Hs ltac:(lia)) as Hbin.
    destruct (binade_bound mb eb (e + s) Hmb ltac:(lia)) as [Hlo Hhi].
    destruct (Z_lt_le_dec m 0) as [Hneg|Hpos].
    + assert (Hy : dyadic (rne m s) (e + s) <= dyadic (- 2 ^ 52) (e + s)).
      { apply dyadic_le. apply rne_upper; lia. }
      rewrite dyadic_opp in Hy. lra.
    + assert (Hm : (m <= 2 ^ 52 * 2 ^ s)%Z).
      { apply (dyadic_le _ _ e). rewrite Hxs. lra. }
      assert (Hy : dyadic (rne m s) (e + s) <= dyadic (2 ^ 52) (e + s)).
      { apply dyadic_le. apply rne_upper; lia. }
      assert (Hc : dyadic (2 ^ 52) (e + s) <= dyadic m e).
      { rewrite <- Hxs. apply dyadic_le. lia. }
      lra.
Qed.

Lemma round_fin_lower m e a :
  representable a -> a <= dyadic m e ->
  a <= dyadic (fst (round_fin m e)) (snd (round_fin m e)).
Proof.
  intros (ma & ea & Ha & Hma & Hea) Hx. unfold round_fin.
  set (s := Z.max (digits m - prec) (emin - e)).
  destruct (Z.ltb_spec 0 s) as [Hs|Hs]; simpl; [|exact Hx].
  rewrite Ha in *.
  assert (Hxs : forall B, dyadic (B * 2 ^ s) e == dyadic B (e + s)).
  { intros B. rewrite <- (dyadic_shift B (e + s) s) by lia.
    replace (e + s - s)%Z with e by ring. reflexivity. }
  destruct (Z_le_gt_dec (e + s) ea) as [HA|HB].
  - set (B := (ma * 2 ^ (ea - (e + s)))%Z).
    assert (HbB : dyadic ma ea == dyadic B (e + s)).
    { unfold B. rewrite <- (dyadic_shift ma ea (ea - (e + s))) by lia.
      replace (ea - (ea - (e + s)))%Z with (e + s)%Z by ring. reflexivity. }
    rewrite HbB in *. rewrite <- Hxs in Hx. apply dyadic_le in Hx.
    apply dyadic_le. apply rne_lower; assumption.
  - pose proof (round_fin_binade m e s eq_refl Hs ltac:(lia)) as Hbin.
    destruct (binade_bound ma ea (e + s) Hma ltac:(lia)) as [Hlo Hhi].
    destruct (Z_lt_le_dec m 0) as [Hneg|Hpos].
    + assert (Hm : (- 2 ^ 52 * 2 ^ s <= m)%Z).
      { apply (dyadic_le _ _ e). rewrite Hxs, dyadic_opp. lra. }
      assert (Hy : dyadic (- 2 ^ 52) (e + s) <= dyadic (rne m s) (e + s)).
      { apply dyadic_le. apply rne_lower; lia. }
      assert (Hc : dyadic m e <= dyadic (- 2 ^ 52) (e + s)).
      { rewrite <- Hxs. apply dyadic_le. lia. }
      lra.
    + assert (Hy : dyadic (2 ^ 52) (e + s) <= dyadic (rne m s) (e + s)).
      { apply dyadic_le. apply rne_lower; lia. }
      lra.
Qed.

End RoundFin.

Section FloatOps.
Import Float64.
Local Open Scope Q_scope.

Lemma representable_int z : (Z.abs z <= 2 ^ prec)%Z -> representable (inject_Z z).
Proof.
  intros Hz. exists z, 0%Z. split; [symmetry; apply dyadic_int|].
  split; [exact Hz | unfold emin; lia].
Qed.

Lemma representable_opp q : representable q -> representable (- q).
Proof.
  intros (m & e & Hq & Hm & He). exists (- m)%Z, e.
  split; [rewrite Hq; symmetry; apply dyadic_opp|]. split; [lia | exact He].
Qed.

Lemma representable_double q : representable q -> representable (2 * q).
Proof.
  intros (m & e & Hq & Hm & He). exists m, (e + 1)%Z.
  split; [|split; [exact Hm | lia]].
  rewrite Hq. unfold dyadic. rewrite p2_add. simpl. ring.
Qed.

(** Rounding stays between any two representable numbers that enclose the
    exact value, and yields a finite float when these are in range. *)
Lemma round_sandwich m e a b K :
  representable a -> representable b ->
  a <= dyadic m e -> dyadic m e <= b ->
  - inject_Z K <= a -> b <= inject_Z K -> (K < 2 ^ emax)%Z ->
  exists m' e',
    round m e = Fin m' e' /\
    a <= dyadic m' e' /\ dyadic m' e' <= b /\
    representable (dyadic m' e').
Proof.
  intros Ha Hb Hax Hxb HKa HbK HK.
  pose proof (round_fin_lower m e a Ha Hax) as Hlo.
  pose proof (round_fin_upper m e b Hb Hxb) as Hhi.
  pose proof (round_fin_representable m e) as Hrep.
  unfold round. destruct (round_fin m e) as [m' e']. simpl in *.
  exists m', e'. split; [|auto].
  assert (Hov : overflows m' e' = false).
  { unfold overflows. destruct (Z.leb_spec 0 e') as [He|He]; [simpl|reflexivity].
    apply Z.leb_gt.
    assert (Hval : dyadic m' e' == inject_Z (m' * 2 ^ e')).
    { unfold dyadic. rewrite inject_Z_mult, (p2_Z e' He). reflexivity. }
    rewrite Hval in *.
    assert (H1 : - inject_Z K <= inject_Z (m' * 2 ^ e')) by lra.
    assert (H2 : inject_Z (m' * 2 ^ e') <= inject_Z K) by lra.
    rewrite <- inject_Z_opp in H1. rewrite <- Zle_Qle in H1, H2.
    assert (0 < 2 ^ e')%Z by (apply Z.pow_pos_nonneg; lia).
    rewrite <- (Z.abs_eq (2 ^ e')) by lia. rewrite <- Z.abs_mul. lia. }
  rewrite Hov. reflexivity.
Qed.

Lemma float_ltb_spec m1 e1 m2 e2 :
  ltb (Fin m1 e1) (Fin m2 e2) = true <-> dyadic m1 e1 < dyadic m2 e2.
Proof.
  simpl. set (e := Z.min e1 e2).
  rewrite <- (dyadic_shift m1 e1 (e1 - e)) by lia.
  rewrite <- (dyadic_shift m2 e2 (e2 - e)) by lia.
  replace (e1 - (e1 - e))%Z with e by ring.
  replace (e2 - (e2 - e))%Z with e by ring.
  rewrite dyadic_lt. apply Z.ltb_lt.
Qed.

Lemma float_leb_spec m1 e1 m2 e2 :
  leb (Fin m1 e1) (Fin m2 e2) = true <-> dyadic m1 e1 <= dyadic m2 e2.
Proof.
  simpl. set (e := Z.min e1 e2).
  rewrite <- (dyadic_shift m1 e1 (e1 - e)) by lia.
  rewrite <- (dyadic_shift m2 e2 (e2 - e)) by lia.
  replace (e1 - (e1 - e))%Z with e by ring.
  replace (e2 - (e2 - e))%Z with e by ring.
  rewrite dyadic_le. apply Z.leb_le.
Qed.

(** Conversion to int64 stays between any two int64 values that enclose the
    float, whatever the architecture. *)
Lemma to_int64_sandwich arch m e A B :
  inject_Z A <= dyadic m e -> dyadic m e <= inject_Z B ->
  (GoInt.min_int <= A)%Z -> (B <= GoInt.max_int)%Z ->
  (A <= to_int64 arch (Fin m e) <= B)%Z.
Proof.
  intros HA HB Hmin Hmax.
  assert (Ht : (A <= trunc m e <= B)%Z).
  { unfold trunc. destruct (Z.leb_spec 0 e) as [He|He].
    - assert (Hval : dyadic m e == inject_Z (m * 2 ^ e)).
      { unfold dyadic. rewrite inject_Z_mult, (p2_Z e He). reflexivity. }
      rewrite Hval in *. rewrite <- Zle_Qle in HA, HB. lia.
    - assert (Hp : (0 < 2 ^ (- e))%Z) by (apply Z.pow_pos_nonneg; lia).
      assert (Hsh : forall C, inject_Z C == dyadic (C * 2 ^ (- e)) e).
      { intros C. rewrite <- dyadic_int.
        rewrite <- (dyadic_shift C 0 (- e)) by lia.
        replace (0 - - e)%Z with e by ring. reflexivity. }
      rewrite (Hsh A) in HA. rewrite (Hsh B) in HB.
      apply dyadic_le in HA. apply dyadic_le in HB.
      split.
      + rewrite <- (Z.quot_mul A (2 ^ (- e))) by lia.
        apply Z.quot_le_mono; lia.
      + rewrite <- (Z.quot_mul B (2 ^ (- e))) by lia.
        apply Z.quot_le_mono; lia. }
  unfold to_int64.
  destruct (Z.leb_spec GoInt.min_int (trunc m e)); [|lia].
  destruct (Z.leb_spec (trunc m e) GoInt.max_int); [|lia].
  simpl. exact Ht.
Qed.

End FloatOps.

Create HintDb float64.
#[global] Hint Resolve representable_int representable_opp representable_double : float64.

Section Jitter.
Import GoTime Float64 Models Retry.
Local Open Scope Q_scope.

Lemma of_int_exact z : (Z.abs z < 2 ^ prec)%Z -> of_int z = Fin z 0.
Proof.
  intros Hz. unfold of_int, round, round_fin.
  pose proof (digits_bound z prec ltac:(unfold prec; lia) Hz) as Hd.
  destruct (Z.ltb_spec 0 (Z.max (digits z - prec) (emin - 0))) as [Hs|Hs];
    [unfold emin in Hs; lia|].
  assert (Hov : overflows z 0 = false).
  { unfold overflows. apply andb_false_intro2. apply Z.leb_gt.
    assert ((2 ^ prec < 2 ^ emax)%Z) by reflexivity.
    change (2 ^ 0)%Z with 1%Z. lia. }
  rewrite Hov. reflexivity.
Qed.

(** The fraction used: 0.3 for a configured fraction of at most 0, 1 for one
    above 1, the configured fraction otherwise. *)
Lemma effectiveJitterFraction_cases rm m e :
  JitterFraction (options rm) = Fin m e ->
  (dyadic m e <= 0 -> effectiveJitterFraction rm = three_tenths) /\
  (1 < dyadic m e -> effectiveJitterFraction rm = one) /\
  (0 < dyadic m e -> dyadic m e <= 1 -> effectiveJitterFraction rm = Fin m e).
Proof.
  intros Hjf. unfold effectiveJitterFraction. rewrite Hjf.
  pose proof (float_leb_spec m e 0 0) as Hle.
  pose proof (float_ltb_spec 1 0 m e) as Hlt.
  rewrite dyadic_int in Hle, Hlt.
  change (inject_Z 0) with 0 in Hle. change (inject_Z 1) with 1 in Hlt.
  unfold zero, one.
  destruct (leb (Fin m e) (Fin 0 0)) eqn:E1.
  - assert (dyadic m e <= 0) by (apply Hle; reflexivity).
    split; [reflexivity|]. split; intros; lra.
  - assert (~ dyadic m e <= 0) by (intros H; apply Hle in H; discriminate).
    split; [intros; contradiction|].
    destruct (ltb (Fin 1 0) (Fin m e)) eqn:E2.
    + assert (1 < dyadic m e) by (apply Hlt; reflexivity).
      split; [reflexivity | intros; lra].
    + assert (~ 1 < dyadic m e) by (intros H1; apply Hlt in H1; discriminate).
      split; [intros; contradiction | reflexivity].
Qed.

Lemma applyJitter_unfold arch rm u delay :
  applyJitter arch rm u delay =
    let jitterFraction := effectiveJitterFraction rm in
    let jitterRange := mul (of_int delay) jitterFraction in
    let randomJitter := sub (mul (mul u two) jitterRange) jitterRange in
    let newDelay := add (of_int delay) randomJitter in
    let newDelay := if ltb newDelay zero then zero else newDelay in
    to_int64 arch newDelay.
Proof. reflexivity. Qed.

Section FiniteFraction.

Variable arch : Arch.
Variable rm : RetryManager.
Hypothesis fraction_not_nan : JitterFraction (options rm) <> NaN.

(** After its adjustments the fraction is a number in (0, 1]. *)
Lemma effective_fraction_range :
  exists mf ef, effectiveJitterFraction rm = Fin mf ef /\
                0 < dyadic mf ef /\ dyadic mf ef <= 1.
Proof.
  unfold effectiveJitterFraction. pose proof fraction_not_nan as Hnan.
  destruct (JitterFraction (options rm)) as [|[]|m e]; [congruence| | |].
  - exists 5404319552844595%Z, (-54)%Z. split; [reflexivity|]. split; reflexivity || discriminate.
  - exists 1%Z, 0%Z. split; [reflexivity|]. split; reflexivity || discriminate.
  - destruct (leb (Fin m e) zero) eqn:Hle.
    + exists 5404319552844595%Z, (-54)%Z. split; [reflexivity|]. split; reflexivity || discriminate.
    + destruct (ltb one (Fin m e)) eqn:Hlt.
      * exists 1%Z, 0%Z. split; [reflexivity|]. split; reflexivity || discriminate.
      * exists m, e. split; [reflexivity|].
        assert (H0 : ~ dyadic m e <= dyadic 0 0).
        { intros H. apply float_leb_spec in H. unfold zero in Hle. congruence. }
        assert (H1 : ~ dyadic 1 0 < dyadic m e).
        { intros H. apply float_ltb_spec in H. unfold one in Hlt. congruence. }
        rewrite dyadic_int in H0, H1.
        change (inject_Z 0) with 0 in H0. change (inject_Z 1) with 1 in H1.
        split; lra.
Qed.

(** Every intermediate value of [applyJitter] is enclosed by representable
    numbers, so rounding cannot carry it across them: with [C] the jitter
    range rounded up to a whole number, the result is within [C] of the
    delay. *)
Lemma applyJitter_sandwich mu eu delay :
  0 <= dyadic mu eu -> dyadic mu eu < 1 ->
  (0 <= delay < 2 ^ 52)%Z ->
  let C := Qceiling (inject_Z delay * to_Q (effectiveJitterFraction rm)) in
  (0 <= C <= delay)%Z /\
  (delay - C <= applyJitter arch rm (Fin mu eu) delay <= delay + C)%Z.
Proof.
  intros Hu0 Hu1 Hd C.
  destruct effective_fraction_range as (mf & ef & Hf & Hf0 & Hf1).
  rewrite applyJitter_unfold. subst C. rewrite Hf. simpl to_Q.
  set (f := dyadic mf ef) in *. set (C := Qceiling (inject_Z delay * f)).
  assert (HD0 : 0 <= inject_Z delay) by (rewrite Zle_Qle in Hd; apply Hd).
  assert (HC : (0 <= C <= delay)%Z).
  { split.
    - change 0%Z with (Qceiling 0). apply Qceiling_resp_le. nra.
    - rewrite <- (Qceiling_Z delay). apply Qceiling_resp_le. nra. }
  split; [exact HC|].
  assert (HCup : inject_Z delay * f <= inject_Z C) by apply Qle_ceiling.
  assert (Hpow : (2 ^ 52 < 2 ^ 53)%Z) by reflexivity.
  assert (HK : (2 ^ 53 < 2 ^ emax)%Z) by reflexivity.
  assert (Hrep0 : representable (inject_Z 0)) by (apply representable_int; discriminate).
  assert (HCle : inject_Z C <= inject_Z (2 ^ 52)) by (rewrite <- Zle_Qle; lia).
  cbv zeta.
  rewrite of_int_exact by (unfold prec; lia).
  (* jitterRange *)
  assert (HJ : exists mj ej, mul (Fin delay 0) (Fin mf ef) = Fin mj ej /\
                 0 <= dyadic mj ej /\ dyadic mj ej <= inject_Z C /\
                 representable (dyadic mj ej)).
  { apply (round_sandwich _ _ (inject_Z 0) (inject_Z C) (2 ^ 53));
      try assumption.
    - apply representable_int. unfold prec. lia.
    - rewrite dyadic_mul, dyadic_int. fold f. change (inject_Z 0) with 0. nra.
    - rewrite dyadic_mul, dyadic_int. exact HCup.
    - change (inject_Z 0) with 0. rewrite <- inject_Z_opp, <- (Zle_Qle _ 0). lia.
    - rewrite <- Zle_Qle. lia. }
  destruct HJ as (mj & ej & -> & HJ0 & HJC & HJrep).
  set (vj := dyadic mj ej) in *.
  (* u * 2 *)
  assert (H1 : exists m1 e1, mul (Fin mu eu) two = Fin m1 e1 /\
                 0 <= dyadic m1 e1 /\ dyadic m1 e1 <= 2).
  { destruct (round_sandwich (mu * 2) (eu + 0) (inject_Z 0) (inject_Z 2) (2 ^ 53))
      as (m1 & e1 & Hr & Hlo & Hhi & _); try assumption.
    - apply representable_int. discriminate.
    - rewrite dyadic_mul, dyadic_int. change (inject_Z 0) with 0. change (inject_Z 2) with 2. lra.
    - rewrite dyadic_mul, dyadic_int. change (inject_Z 2) with 2. lra.
    - vm_compute; discriminate.
    - vm_compute; discriminate.
    - exists m1, e1. auto. }
  destruct H1 as (m1 & e1 & -> & H10 & H12).
  (* u * 2 * jitterRange *)
  assert (H2 : exists m2 e2, mul (Fin m1 e1) (Fin mj ej) = Fin m2 e2 /\
                 0 <= dyadic m2 e2 /\ dyadic m2 e2 <= 2 * vj).
  { destruct (round_sandwich (m1 * mj) (e1 + ej) (inject_Z 0) (2 * vj) (2 ^ 53))
      as (m2 & e2 & Hr & Hlo & Hhi & _); try assumption.
    - auto with float64.
    - rewrite dyadic_mul. fold vj. change (inject_Z 0) with 0. nra.
    - rewrite dyadic_mul. fold vj. nra.
    - vm_compute; discriminate.
    - assert (inject_Z (2 ^ 53) == 2 * inject_Z (2 ^ 52)) by reflexivity. lra.
    - exists m2, e2. auto. }
  destruct H2 as (m2 & e2 & -> & H20 & H2J).
  (* ... - jitterRange *)
  assert (H3 : exists m3 e3, sub (Fin m2 e2) (Fin mj ej) = Fin m3 e3 /\
                 - vj <= dyadic m3 e3 /\ dyadic m3 e3 <= vj).
  { unfold sub, opp, add.
    destruct (round_sandwich (m2 * 2 ^ (e2 - Z.min e2 ej) + - mj * 2 ^ (ej - Z.min e2 ej))
                (Z.min e2 ej) (- vj) vj (2 ^ 53))
      as (m3 & e3 & Hr & Hlo & Hhi & _); try assumption.
    - auto with float64.
    - rewrite dyadic_add, dyadic_opp. fold vj. lra.
    - rewrite dyadic_add, dyadic_opp. fold vj. lra.
    - assert (inject_Z (2 ^ 52) <= inject_Z (2 ^ 53)) by (rewrite <- Zle_Qle; lia). lra.
    - assert (inject_Z (2 ^ 52) <= inject_Z (2 ^ 53)) by (rewrite <- Zle_Qle; lia). lra.
    - exists m3, e3. auto. }
  destruct H3 as (m3 & e3 & -> & H3lo & H3hi).
  (* delay + randomJitter *)
  assert (H4 : exists m4 e4, add (Fin delay 0) (Fin m3 e3) = Fin m4 e4 /\
                 inject_Z (delay - C) <= dyadic m4 e4 /\
                 dyadic m4 e4 <= inject_Z (delay + C)).
  { unfold add.
    destruct (round_sandwich (delay * 2 ^ (0 - Z.min 0 e3) + m3 * 2 ^ (e3 - Z.min 0 e3))
                (Z.min 0 e3) (inject_Z (delay - C)) (inject_Z (delay + C)) (2 ^ 53))
      as (m4 & e4 & Hr & Hlo & Hhi & _); try assumption.
    - apply representable_int. unfold prec. lia.
    - apply representable_int. unfold prec. lia.
    - rewrite dyadic_add, dyadic_int. unfold Zminus.
      rewrite inject_Z_plus, inject_Z_opp. lra.
    - rewrite dyadic_add, dyadic_int. rewrite inject_Z_plus. lra.
    - rewrite <- inject_Z_opp, <- Zle_Qle. lia.
    - rewrite <- Zle_Qle. lia.
    - exists m4, e4. auto. }
  destruct H4 as (m4 & e4 & -> & H4lo & H4hi).
  assert (Hnn : ltb (Fin m4 e4) zero = false).
  { destruct (ltb (Fin m4 e4) zero) eqn:Hlt; [|reflexivity].
    apply float_ltb_spec in Hlt. rewrite dyadic_int in Hlt.
    assert (inject_Z 0 <= inject_Z (delay - C)) by (rewrite <- Zle_Qle; lia).
    change (inject_Z 0) with 0 in *. lra. }
  rewrite Hnn.
  apply to_int64_sandwich; try assumption.
  - unfold GoInt.min_int. lia.
  - unfold GoInt.max_int. lia.
Qed.

End FiniteFraction.

End Jitter.

(** ** C6 *)

Section JitterBounds.
Import GoTime Float64 Models Retry.

(** Push [inject_Z] through sums and differences. *)
Ltac push_inject H :=
  unfold Z.sub in H |- *;
  rewrite ?inject_Z_plus, ?inject_Z_opp, ?inject_Z_plus, ?inject_Z_opp in H;
  rewrite ?inject_Z_plus, ?inject_Z_opp, ?inject_Z_plus, ?inject_Z_opp;
  change (inject_Z 1) with 1%Q in H |- *.

Lemma Qfloor_le_of_lt x n : (x < inject_Z (n + 1))%Q -> Qfloor x <= n.
Proof.
  intros H. pose proof (Qfloor_le x) as Hf.
  assert (Hlt : (inject_Z (Qfloor x) < inject_Z (n + 1))%Q) by lra.
  rewrite <- Zlt_Qlt in Hlt. lia.
Qed.

Lemma Qceiling_ge_of_lt x n : (inject_Z (n - 1) < x)%Q -> n <= Qceiling x.
Proof.
  intros H. pose proof (Qle_ceiling x) as Hc.
  assert (Hlt : (inject_Z (n - 1) < inject_Z (Qceiling x))%Q) by lra.
  rewrite <- Zlt_Qlt in Hlt. lia.
Qed.

(** C6 as stated fails: a delay of 1 ns with the default fraction and the
    draw 0 gives [1 - 0.3 = 0.7], which the conversion to [time.Duration]
    truncates to 0, below [delay * (1 - fraction)]. *)
Lemma jitter_interval_counterexample :
  ~ (forall arch rm u delay,
        is_finite u = true -> (0 <= to_Q u)%Q -> (to_Q u < 1)%Q ->
        0 <= delay <= GoInt.max_int ->
        let f := to_Q (effectiveJitterFraction rm) in
        let d' := applyJitter arch rm u delay in
        0 <= d' /\
        (inject_Z delay * (1 - f) <= inject_Z d')%Q /\
        (inject_Z d' <= inject_Z delay * (1 + f))%Q).
Proof.
  intros H.
  destruct (H amd64 (mkRetryManager NewRetryOptions) zero 1) as (_ & Hlo & _);
    try (vm_compute; (reflexivity || discriminate)).
  - split; discriminate.
  - vm_compute in Hlo. apply Hlo. reflexivity.
Qed.

(** C6, amended. With a configured fraction that is not NaN, a draw in
    [0, 1) and a delay of at least 0 and below 2^52 ns, the fraction used is
    in (0, 1], and the delay returned by [applyJitter] is never negative and
    lies between [delay * (1 - fraction)] rounded down and
    [delay * (1 + fraction)] rounded up to whole nanoseconds, whatever the
    architecture does with out-of-range conversions; this is the delay [CalculateDelay] returns when jitter is
    enabled. The fraction used is 0.3 for a configured fraction of at most
    0, 1 for one above 1, and the configured fraction otherwise. *)
Theorem jitter_stays_in_widened_interval arch rm u delay :
  JitterFraction (options rm) <> NaN ->
  is_finite u = true -> (0 <= to_Q u)%Q -> (to_Q u < 1)%Q ->
  0 <= delay < 2 ^ 52 ->
  let f := to_Q (effectiveJitterFraction rm) in
  let d' := applyJitter arch rm u delay in
  (0 < f)%Q /\ (f <= 1)%Q /\
  0 <= d' /\
  Qfloor (inject_Z delay * (1 - f)) <= d' /\
  d' <= Qceiling (inject_Z delay * (1 + f)) /\
  (forall attempt,
      Jitter (options rm) = true -> baseDelay arch rm attempt = delay ->
      CalculateDelay arch rm u attempt = d') /\
  (forall m e,
      JitterFraction (options rm) = Fin m e ->
      ((dyadic m e <= 0)%Q -> effectiveJitterFraction rm = three_tenths) /\
      ((1 < dyadic m e)%Q -> effectiveJitterFraction rm = one) /\
      ((0 < dyadic m e)%Q -> (dyadic m e <= 1)%Q ->
       effectiveJitterFraction rm = Fin m e)).
Proof.
  intros Hnan Hfin Hu0 Hu1 Hd f d'.
  assert (Hcalc : forall attempt,
             Jitter (options rm) = true -> baseDelay arch rm attempt = delay ->
             CalculateDelay arch rm u attempt = d').
  { intros attempt Hj <-. unfold CalculateDelay. rewrite Hj. reflexivity. }
  destruct u as [| |mu eu]; try discriminate. simpl in Hu0, Hu1.
  destruct (applyJitter_sandwich arch rm Hnan mu eu delay Hu0 Hu1 Hd) as [HC Hres].
  fold f in HC, Hres. fold d' in Hres.
  set (C := Qceiling (inject_Z delay * f)) in *.
  destruct (effective_fraction_range rm Hnan) as (mf & ef & Hf & Hf0 & Hf1).
  assert (Hfv : f = dyadic mf ef) by (unfold f; rewrite Hf; reflexivity).
  rewrite <- Hfv in Hf0, Hf1.
  split; [exact Hf0|]. split; [exact Hf1|]. split; [lia|].
  pose proof (Qceiling_lt (inject_Z delay * f)) as Hc. fold C in Hc.
  split; [|split; [|split; [exact Hcalc | apply effectiveJitterFraction_cases]]].
  - transitivity (delay - C); [|lia]. apply Qfloor_le_of_lt.
    replace (delay - C + 1) with (delay - (C - 1)) by ring.
    push_inject Hc. lra.
  - transitivity (delay + C); [lia|]. apply Qceiling_ge_of_lt.
    replace (delay + C - 1) with (delay + (C - 1)) by ring.
    push_inject Hc. lra.
Qed.

(** The default options, a delay of one second and the draw 1/4. *)
Lemma jitter_stays_in_widened_interval_witness :
  let rm := mkRetryManager NewRetryOptions in
  let u := Fin 1 (-2) in
  let delay := 1000 * Millisecond in
  JitterFraction (options rm) <> NaN /\
  is_finite u = true /\ (0 <= to_Q u)%Q /\ (to_Q u < 1)%Q /\
  0 <= delay < 2 ^ 52 /\
  applyJitter amd64 rm u delay = 850 * Millisecond /\
  Qfloor (inject_Z delay * (1 - to_Q (effectiveJitterFraction rm)))
    <= applyJitter amd64 rm u delay
    <= Qceiling (inject_Z delay * (1 + to_Q (effectiveJitterFraction rm))).
Proof.
  intros rm u delay.
  assert (Hnan : JitterFraction (options rm) <> NaN) by discriminate.
  assert (Hu0 : (0 <= to_Q u)%Q) by (vm_compute; discriminate).
  assert (Hu1 : (to_Q u < 1)%Q) by (vm_compute; reflexivity).
  assert (Hd : 0 <= delay < 2 ^ 52) by (split; [discriminate | reflexivity]).
  destruct (jitter_stays_in_widened_interval amd64 rm u delay Hnan eq_refl Hu0 Hu1 Hd)
    as (_ & _ & _ & Hlo & Hhi & _ & _).
  split; [exact Hnan|]. split; [reflexivity|]. split; [exact Hu0|].
  split; [exact Hu1|]. split; [exact Hd|]. split; [vm_compute; reflexivity|].
  split; [exact Hlo | exact Hhi].
Defined.

End JitterBounds.

(** ** C2 *)

Section Backoff.
Import GoTime Float64 Models Retry.

Lemma exponential_in_range arch rm n :
  0 <= n < emax ->
  Z.abs (InitialDelay (options rm)) < 2 ^ prec ->
  GoInt.in_range (InitialDelay (options rm) * 2 ^ n) ->
  calculateExponentialBackoff arch rm n = InitialDelay (options rm) * 2 ^ n.
Proof.
  intros Hn Hd Hr. unfold calculateExponentialBackoff.
  set (d := InitialDelay (options rm)) in *.
  rewrite (of_int_exact d Hd). unfold pow2.
  destruct (Z.leb_spec emax n); [lia|].
  destruct (Z.ltb_spec n emin); [unfold emin in *; lia|].
  unfold mul, round, round_fin.
  pose proof (digits_bound (d * 1) prec ltac:(unfold prec; lia) ltac:(rewrite Z.mul_1_r; exact Hd)) as Hdig.
  destruct (Z.ltb_spec 0 (Z.max (digits (d * 1) - prec) (emin - (0 + n)))) as [Hs|Hs];
    [unfold emin in Hs; lia|].
  assert (Hp : 0 < 2 ^ n) by (apply Z.pow_pos_nonneg; lia).
  assert (Hov : overflows (d * 1) (0 + n) = false).
  { unfold overflows. apply andb_false_intro2. apply Z.leb_gt.
    assert (2 ^ 63 < 2 ^ emax) by reflexivity.
    unfold GoInt.in_range, GoInt.min_int, GoInt.max_int in Hr.
    rewrite Z.mul_1_r, Z.add_0_l. rewrite <- (Z.abs_eq (2 ^ n)) by lia.
    rewrite <- Z.abs_mul. lia. }
  rewrite Hov. unfold to_int64, trunc.
  destruct (Z.leb_spec 0 (0 + n)); [|lia].
  rewrite Z.mul_1_r, Z.add_0_l.
  unfold GoInt.in_range in Hr.
  destruct (Z.leb_spec GoInt.min_int (d * 2 ^ n)); [|lia].
  destruct (Z.leb_spec (d * 2 ^ n) GoInt.max_int); [|lia].
  reflexivity.
Qed.

Lemma linear_in_range rm n :
  GoInt.in_range (n + 1) ->
  GoInt.in_range (InitialDelay (options rm) * (n + 1)) ->
  calculateLinearBackoff rm n = InitialDelay (options rm) * (n + 1).
Proof.
  intros Hn Hr. unfold calculateLinearBackoff, GoInt.mul, GoInt.add.
  rewrite (wrap_in_range (n + 1) Hn). apply wrap_in_range. exact Hr.
Qed.

(** With jitter disabled and every intermediate value representable, the
    delay is the strategy value capped by [MaxDelay]. *)
Lemma CalculateDelay_in_range arch rm u n :
  Jitter (options rm) = false ->
  let d := InitialDelay (options rm) in
  (Backoff (options rm) = BackoffFixed ->
   CalculateDelay arch rm u n = cap (MaxDelay (options rm)) d) /\
  (Backoff (options rm) = BackoffLinear ->
   GoInt.in_range (n + 1) -> GoInt.in_range (d * (n + 1)) ->
   CalculateDelay arch rm u n = cap (MaxDelay (options rm)) (d * (n + 1))) /\
  (Backoff (options rm) = BackoffExponential ->
   0 <= n < emax -> Z.abs d < 2 ^ prec -> GoInt.in_range (d * 2 ^ n) ->
   CalculateDelay arch rm u n = cap (MaxDelay (options rm)) (d * 2 ^ n)).
Proof.
  intros Hj d. unfold CalculateDelay, cap. rewrite Hj. repeat split.
  - intros ->. reflexivity.
  - intros -> Hn Hr. simpl. rewrite (linear_in_range rm n Hn Hr). reflexivity.
  - intros -> Hn Hd Hr. simpl. rewrite (exponential_in_range arch rm n Hn Hd Hr). reflexivity.
Qed.

(** The delays of the repository's tests: 100 ms initial delay, 10 s cap,
    jitter off. *)
Example backoff_test_values :
  let opts b := mkRetryOptions 3 (100 * Millisecond) (10 * Second) b
                               false three_tenths [] false 5 (60 * Second) 1 in
  List.map (CalculateDelay amd64 (mkRetryManager (opts BackoffExponential)) zero) [0; 1; 2; 3; 7]
    = [100 * Millisecond; 200 * Millisecond; 400 * Millisecond; 800 * Millisecond; 10 * Second] /\
  List.map (CalculateDelay amd64 (mkRetryManager (opts BackoffLinear)) zero) [0; 1; 2; 3]
    = [100 * Millisecond; 200 * Millisecond; 300 * Millisecond; 400 * Millisecond] /\
  List.map (CalculateDelay amd64 (mkRetryManager (opts BackoffFixed)) zero) [0; 1; 2; 3; 4]
    = [100 * Millisecond; 100 * Millisecond; 100 * Millisecond; 100 * Millisecond; 100 * Millisecond].
Proof. intros opts. split; [|split]; vm_compute; reflexivity. Qed.

(** C2 fails where the strategy value leaves the range of int64. Linear
    backoff: an initial delay of one hour at attempt 2562047 wraps around to
    a negative delay, which the cap lets through, on every architecture;
    the claim asks for [MaxDelay] (30 s). Exponential backoff: 100 ms at
    attempt 37 is 2^37 * 10^8 > 2^63 ns, whose conversion to
    [time.Duration] is left to the implementation and is the most negative
    int64 on amd64; the claim asks for [MaxDelay] (30 s). *)
Theorem backoff_overflow_escapes_cap :
  (forall arch u,
      CalculateDelay arch (mkRetryManager linearOverflowOptions) u 2562047
      = -9223371273709551616) /\
  cap (30 * Second) (3600 * Second * (2562047 + 1)) = 30 * Second /\
  (forall u,
      CalculateDelay amd64 (mkRetryManager exponentialOverflowOptions) u 37
      = GoInt.min_int) /\
  cap (30 * Second) (100 * Millisecond * 2 ^ 37) = 30 * Second.
Proof.
  repeat split; intros; vm_compute; reflexivity.
Qed.

End Backoff.

(** * Further properties of the circuit breaker *)

Section BreakerIsolation.
Import Models GoTime Breaker.

Lemma breaker_eq cb1 cb2 :
  circuits cb1 = circuits cb2 ->
  threshold cb1 = threshold cb2 ->
  timeout cb1 = timeout cb2 ->
  halfOpenRequests cb1 = halfOpenRequests cb2 ->
  cb1 = cb2.
Proof. destruct cb1, cb2. simpl. by intros -> -> -> ->. Qed.

(** No call changes the configuration. *)
Lemma step_config k o cb :
  threshold (snd (step k o cb)) = threshold cb /\
  timeout (snd (step k o cb)) = timeout cb /\
  halfOpenRequests (snd (step k o cb)) = halfOpenRequests cb.
Proof.
  destruct o as [t|t| |tF tO| |]; simpl; try done.
  - unfold CanAttempt. destruct (circuits cb !! k) as [c|]; [|done].
    destruct (CircuitBreakerState_eqb (state c) CircuitBreakerOpen).
    + destruct (timeout cb <=? Since t (openedAt c)); simpl; [|done].
      by destruct (halfOpenRequests cb <=? 0).
    + destruct (CircuitBreakerState_eqb (state c) CircuitBreakerHalfOpen); simpl; [|done].
      by destruct (halfOpenRequests cb <=? halfOpenAttempts c).
  - unfold RecordSuccess. destruct (circuits cb !! k) as [c|]; [|done].
    destruct (CircuitBreakerState_eqb (state c) CircuitBreakerHalfOpen).
    + simpl. by destruct (halfOpenRequests cb <=? GoInt.incr (halfOpenSuccessCount c)).
    + by destruct (CircuitBreakerState_eqb (state c) CircuitBreakerClosed).
Qed.

(** No call for [k] touches the record of another key. *)
Lemma step_other_key k k' o cb :
  k <> k' -> circuits (snd (step k o cb)) !! k' = circuits cb !! k'.
Proof.
  intros Hne. destruct o as [t|t| |tF tO| |]; simpl; try done.
  - unfold CanAttempt. destruct (circuits cb !! k) as [c|]; simpl;
      [|by apply store_lookup_ne].
    destruct (CircuitBreakerState_eqb (state c) CircuitBreakerOpen).
    + destruct (timeout cb <=? Since t (openedAt c)); simpl; [|done].
      destruct (halfOpenRequests cb <=? 0); simpl; by apply store_lookup_ne.
    + destruct (CircuitBreakerState_eqb (state c) CircuitBreakerHalfOpen); simpl;
        [destruct (halfOpenRequests cb <=? halfOpenAttempts c); simpl|];
        by apply store_lookup_ne.
  - unfold RecordSuccess. destruct (circuits cb !! k) as [c|]; [|done].
    destruct (CircuitBreakerState_eqb (state c) CircuitBreakerHalfOpen).
    + simpl. destruct (halfOpenRequests cb <=? GoInt.incr (halfOpenSuccessCount c));
        by apply store_lookup_ne.
    + destruct (CircuitBreakerState_eqb (state c) CircuitBreakerClosed);
        [by apply store_lookup_ne | done].
  - unfold RecordFailure. by apply store_lookup_ne.
  - unfold Reset. simpl. by apply lookup_delete_ne.
Qed.

Lemma step_other_key_same_for k k' o cb :
  k <> k' -> same_for k' cb (snd (step k o cb)).
Proof.
  intros Hne. destruct (step_config k o cb) as (Hth & Hto & Hho).
  unfold same_for. rewrite Hth, Hto, Hho, (step_other_key k k' o cb Hne). done.
Qed.

(** X1. Endpoints are isolated: a call for one endpoint leaves the record of
    every other endpoint and the configuration as they were, so the answers
    later given for another endpoint are those the breaker would have given
    without the call. *)
Theorem endpoint_isolation k k' o os cb :
  k <> k' ->
  circuits (snd (step k o cb)) !! k' = circuits cb !! k' /\
  threshold (snd (step k o cb)) = threshold cb /\
  timeout (snd (step k o cb)) = timeout cb /\
  halfOpenRequests (snd (step k o cb)) = halfOpenRequests cb /\
  fst (run k' os (snd (step k o cb))) = fst (run k' os cb).
Proof.
  intros Hne. split; [by apply step_other_key|].
  destruct (step_config k o cb) as (Hth & Hto & Hho).
  repeat (split; [assumption|]).
  symmetry. apply run_same_for. by apply step_other_key_same_for.
Qed.

Lemma endpoint_isolation_witness :
  let cb := RecordFailures [(1, 1); (2, 2)] "/fail" (NewCircuitBreaker 2 Second 1) in
  "/fail"%string <> "/success"%string /\
  fst (run "/success" [OpCanAttempt 3; OpGetState] (snd (step "/fail" (OpRecordFailure 3 3) cb)))
  = fst (run "/success" [OpCanAttempt 3; OpGetState] cb).
Proof.
  intros cb.
  assert (Hne : "/fail"%string <> "/success"%string) by discriminate.
  split; [exact Hne|].
  exact (proj2 (proj2 (proj2 (proj2
    (endpoint_isolation "/fail" "/success" (OpRecordFailure 3 3)
       [OpCanAttempt 3; OpGetState] cb Hne))))).
Defined.

(** X2. Calls for different endpoints commute: in whichever order the mutex
    serialises them, each caller observes the same answer and the breaker
    ends in the same state. *)
Theorem calls_on_distinct_endpoints_commute k1 k2 o1 o2 cb :
  k1 <> k2 ->
  fst (step k1 o1 cb) = fst (step k1 o1 (snd (step k2 o2 cb))) /\
  fst (step k2 o2 cb) = fst (step k2 o2 (snd (step k1 o1 cb))) /\
  snd (step k2 o2 (snd (step k1 o1 cb))) = snd (step k1 o1 (snd (step k2 o2 cb))).
Proof.
  intros Hne.
  pose proof (step_other_key_same_for k2 k1 o2 cb ltac:(congruence)) as H1.
  pose proof (step_other_key_same_for k1 k2 o1 cb Hne) as H2.
  destruct (step_same_for k1 o1 _ _ H1) as [Hobs1 Hrec1].
  destruct (step_same_for k2 o2 _ _ H2) as [Hobs2 Hrec2].
  split; [exact Hobs1|]. split; [exact Hobs2|].
  destruct (step_config k1 o1 cb) as (Ha1 & Ha2 & Ha3).
  destruct (step_config k2 o2 cb) as (Hb1 & Hb2 & Hb3).
  destruct (step_config k2 o2 (snd (step k1 o1 cb))) as (Hc1 & Hc2 & Hc3).
  destruct (step_config k1 o1 (snd (step k2 o2 cb))) as (Hd1 & Hd2 & Hd3).
  apply breaker_eq; [|congruence..].
  apply map_eq. intros i.
  destruct (decide (i = k1)) as [->|Hi1]; [|destruct (decide (i = k2)) as [->|Hi2]].
  - rewrite (step_other_key k2 k1 o2 _ ltac:(congruence)).
    destruct Hrec1 as (_ & _ & _ & Hk). exact Hk.
  - rewrite (step_other_key k1 k2 o1 (snd (step k2 o2 cb)) Hne).
    destruct Hrec2 as (_ & _ & _ & Hk). symmetry. exact Hk.
  - rewrite !step_other_key by congruence. reflexivity.
Qed.

Lemma calls_on_distinct_endpoints_commute_witness :
  let cb := NewCircuitBreaker 1 Second 1 in
  "/a"%string <> "/b"%string /\
  snd (step "/b" (OpCanAttempt 5) (snd (step "/a" (OpRecordFailure 3 4) cb)))
  = snd (step "/a" (OpRecordFailure 3 4) (snd (step "/b" (OpCanAttempt 5) cb))).
Proof.
  intros cb.
  assert (Hne : "/a"%string <> "/b"%string) by discriminate.
  split; [exact Hne|].
  exact (proj2 (proj2
    (calls_on_distinct_endpoints_commute "/a" "/b" (OpRecordFailure 3 4) (OpCanAttempt 5) cb Hne))).
Defined.

End BreakerIsolation.

Section BreakerInvariant.
Import Models GoTime Breaker.

Lemma breaker_ok_store k c cb :
  breaker_ok cb -> record_ok cb c -> breaker_ok (store k c cb).
Proof.
  intros Hok Hc i r. unfold store at 1. simpl.
  rewrite lookup_insert. case_decide as Hi.
  - intros [= <-]. exact Hc.
  - intros Hr. exact (Hok i r Hr).
Qed.

(** One call keeps the counters of every record within their bounds. *)
Lemma step_breaker_ok k o cb :
  1 <= threshold cb <= GoInt.max_int ->
  1 <= halfOpenRequests cb <= GoInt.max_int ->
  breaker_ok cb -> breaker_ok (snd (step k o cb)).
Proof.
  intros Hth Hho Hok.
  assert (Hmin : GoInt.min_int < 0) by reflexivity.
  destruct o as [t|t| |tF tO| |]; simpl; try exact Hok.
  - unfold CanAttempt. destruct (circuits cb !! k) as [c|] eqn:Hk; simpl.
    + destruct (Hok k c Hk) as [Hcl Hhalf].
      destruct c as [st fc lf oa hs ha]. simpl in *.
      destruct st; simpl.
      * apply breaker_ok_store; [exact Hok | exact (Hok k _ Hk)].
      * destruct (timeout cb <=? Since t oa); simpl; [|exact Hok].
        destruct (Z.leb_spec (halfOpenRequests cb) 0); simpl; [lia|].
        apply breaker_ok_store; [exact Hok|].
        split; simpl; [discriminate|]. intros _. change (GoInt.incr 0) with 1. lia.
      * specialize (Hhalf eq_refl).
        destruct (Z.leb_spec (halfOpenRequests cb) ha); simpl;
          [apply breaker_ok_store; [exact Hok | exact (Hok k _ Hk)]|].
        apply breaker_ok_store; [exact Hok|].
        split; simpl; [discriminate|]. intros _.
        rewrite incr_no_overflow by lia. lia.
    + apply breaker_ok_store; [exact Hok|].
      split; simpl; [lia | discriminate].
  - unfold RecordSuccess. destruct (circuits cb !! k) as [c|] eqn:Hk; [|exact Hok].
    destruct (Hok k c Hk) as [Hcl Hhalf].
    destruct c as [st fc lf oa hs ha]. simpl in *. destruct st; simpl.
    + apply breaker_ok_store; [exact Hok|]. split; simpl; [lia | discriminate].
    + exact Hok.
    + specialize (Hhalf eq_refl). rewrite incr_no_overflow by lia.
      destruct (Z.leb_spec (halfOpenRequests cb) (hs + 1)); simpl;
        (apply breaker_ok_store; [exact Hok|]); split; simpl;
        try discriminate; intros; lia.
  - unfold RecordFailure. destruct (circuits cb !! k) as [c|] eqn:Hk.
    + destruct (Hok k c Hk) as [Hcl Hhalf].
      destruct c as [st fc lf oa hs ha]. simpl in *. destruct st; simpl.
      * specialize (Hcl eq_refl). rewrite incr_no_overflow by lia.
        destruct (Z.leb_spec (threshold cb) (fc + 1)); simpl;
          (apply breaker_ok_store; [exact Hok|]); split; simpl;
          try discriminate; intros; lia.
      * apply breaker_ok_store; [exact Hok|]. split; simpl; discriminate.
      * apply breaker_ok_store; [exact Hok|]. split; simpl; discriminate.
    + simpl. change (GoInt.incr 0) with 1.
      destruct (Z.leb_spec (threshold cb) 1); simpl;
        (apply breaker_ok_store; [exact Hok|]); split; simpl;
        try discriminate; intros; lia.
  - intros i r. unfold Reset. simpl. rewrite lookup_delete.
    case_decide; [discriminate | apply Hok].
Qed.

(** X3. Starting from a new breaker with a threshold and a trial count of at
    least one, every sequence of calls, for any endpoints and clock
    readings, leaves every record within its bounds: a closed record has
    counted at least 0 and fewer than [threshold] failures, a half-open
    record at least 0 and fewer than [halfOpenRequests] successes and
    between 0 and [halfOpenRequests] attempts (so no counter of a closed or
    half-open record ever wraps around). *)
Theorem reachable_records_are_bounded th to ho calls :
  1 <= th <= GoInt.max_int ->
  1 <= ho <= GoInt.max_int ->
  breaker_ok (snd (run_all calls (NewCircuitBreaker th to ho))).
Proof.
  intros Hth Hho.
  assert (Hgen : forall cs cb,
             1 <= threshold cb <= GoInt.max_int ->
             1 <= halfOpenRequests cb <= GoInt.max_int ->
             breaker_ok cb -> breaker_ok (snd (run_all cs cb))).
  { induction cs as [|[k o] cs IH]; intros cb H1 H2 Hok; simpl; [exact Hok|].
    pose proof (step_breaker_ok k o cb H1 H2 Hok) as Hok1.
    destruct (step_config k o cb) as (Hc1 & _ & Hc3).
    destruct (step k o cb) as [x cb1]. simpl in *.
    specialize (IH cb1 ltac:(lia) ltac:(lia) Hok1).
    destruct (run_all cs cb1) as [xs cb2]. exact IH. }
  apply Hgen; simpl; try assumption.
  intros k r Hk. simpl in Hk. rewrite lookup_empty in Hk. discriminate.
Qed.

Lemma reachable_records_are_bounded_witness :
  let calls := [("/a"%string, OpRecordFailure 1 1); ("/a"%string, OpRecordFailure 2 2);
                ("/b"%string, OpCanAttempt 3); ("/a"%string, OpCanAttempt 2000000005);
                ("/a"%string, OpRecordSuccess)] in
  1 <= 2 <= GoInt.max_int /\ 1 <= 2 <= GoInt.max_int /\
  breaker_ok (snd (run_all calls (NewCircuitBreaker 2 Second 2))).
Proof.
  intros calls.
  assert (H : 1 <= 2 <= GoInt.max_int) by (split; discriminate).
  split; [exact H|]. split; [exact H|].
  exact (reachable_records_are_bounded 2 Second 2 calls H H).
Defined.

End BreakerInvariant.

Section BreakerPaths.
Import Models GoTime Breaker.

Lemma RecordFailures_app ts1 ts2 k cb :
  RecordFailures (ts1 ++ ts2) k cb = RecordFailures ts2 k (RecordFailures ts1 k cb).
Proof. unfold RecordFailures. apply fold_left_app. Qed.

Lemma RecordFailure_unseen tFail tOpen k cb :
  circuits cb !! k = None ->
  RecordFailure tFail tOpen k cb = RecordFailure tFail tOpen k (store k newCircuit cb).
Proof.
  intros Hk. unfold RecordFailure. rewrite Hk, store_lookup_eq. simpl.
  by rewrite store_store.
Qed.

Lemma RecordFailures_threshold ts : forall k cb,
  threshold (RecordFailures ts k cb) = threshold cb.
Proof.
  induction ts as [|t ts IH]; intros k cb; [done|].
  change (RecordFailures (t :: ts) k cb)
    with (RecordFailures ts k (RecordFailure (fst t) (snd t) k cb)).
  by rewrite IH.
Qed.

(** Failures on a closed record below the threshold only count. *)
Lemma RecordFailures_below_threshold ts : forall k cb r,
  circuits cb !! k = Some r ->
  state r = CircuitBreakerClosed ->
  0 <= failureCount r ->
  failureCount r + Z.of_nat (length ts) < threshold cb ->
  threshold cb <= GoInt.max_int ->
  exists r',
    circuits (RecordFailures ts k cb) !! k = Some r' /\
    state r' = CircuitBreakerClosed /\
    failureCount r' = failureCount r + Z.of_nat (length ts).
Proof.
  induction ts as [|t ts IH]; intros k cb r Hk Hs H0 Hlt Hmax.
  - exists r. simpl. repeat split; try done. lia.
  - change (RecordFailures (t :: ts) k cb)
      with (RecordFailures ts k (RecordFailure (fst t) (snd t) k cb)).
    set (r1 := set_lastFailureTime (fst t) (set_failureCount (failureCount r + 1) r)).
    assert (Hstep : RecordFailure (fst t) (snd t) k cb = store k r1 cb).
    { unfold RecordFailure. rewrite Hk.
      destruct r as [st fc lf oa hs ha]. simpl in *. subst st. simpl.
      rewrite incr_no_overflow by (unfold GoInt.min_int; lia).
      rewrite (proj2 (Z.leb_gt (threshold cb) (fc + 1))) by (simpl length in Hlt; lia).
      reflexivity. }
    rewrite Hstep.
    destruct (IH k (store k r1 cb) r1 (store_lookup_eq _ _ _)) as (r' & Hk' & Hs' & Hc');
      simpl; try assumption; try (simpl length in Hlt; lia).
    exists r'. split; [exact Hk'|]. split; [exact Hs'|].
    rewrite Hc'. simpl. simpl length. lia.
Qed.

(** X4. Only consecutive failures open a circuit. After a success has been
    recorded on a closed circuit (or for an endpoint not seen before), the
    next [threshold - 1] failures leave the circuit closed, whatever the
    clock readings, and the failure after them opens it, stamping
    [openedAt] with its clock reading. *)
Theorem consecutive_failures_open cb k ts t :
  1 <= threshold cb <= GoInt.max_int ->
  GetState k cb = CircuitBreakerClosed ->
  Z.of_nat (length ts) = threshold cb - 1 ->
  let cb0 := RecordSuccess k cb in
  (forall ts1 ts2, ts = ts1 ++ ts2 ->
     GetState k (RecordFailures ts1 k cb0) = CircuitBreakerClosed) /\
  (exists r',
     circuits (RecordFailures (ts ++ [t]) k cb0) !! k = Some r' /\
     state r' = CircuitBreakerOpen /\
     openedAt r' = snd t /\
     failureCount r' = threshold cb).
Proof.
  intros Hth Hclosed Hlen cb0.
  (* the same as starting from a closed record that has counted nothing *)
  set (z := set_failureCount 0
              (match circuits cb !! k with Some r => r | None => newCircuit end)).
  assert (Hz : state z = CircuitBreakerClosed /\ failureCount z = 0).
  { unfold z, GetState in *. destruct (circuits cb !! k) as [r|]; simpl; done. }
  destruct Hz as [Hzs Hzc].
  assert (Hbase : forall us, us <> [] ->
             RecordFailures us k cb0 = RecordFailures us k (store k z cb)).
  { intros [|u us] Hne; [done|].
    change (RecordFailures (u :: us) k cb0)
      with (RecordFailures us k (RecordFailure (fst u) (snd u) k cb0)).
    change (RecordFailures (u :: us) k (store k z cb))
      with (RecordFailures us k (RecordFailure (fst u) (snd u) k (store k z cb))).
    f_equal. unfold cb0, RecordSuccess, z, GetState in *.
    destruct (circuits cb !! k) as [r|] eqn:Hk.
    - rewrite Hclosed. reflexivity.
    - change (set_failureCount 0 newCircuit) with newCircuit.
      by apply RecordFailure_unseen. }
  assert (Hcfg : threshold (store k z cb) = threshold cb) by done.
  split.
  - intros ts1 ts2 Hsplit. destruct ts1 as [|u ts1].
    + simpl. unfold cb0, RecordSuccess, GetState in *.
      destruct (circuits cb !! k) as [r|] eqn:Hk; [|by rewrite Hk].
      rewrite Hclosed. simpl. by rewrite lookup_insert_eq.
    + rewrite Hbase by done.
      destruct (RecordFailures_below_threshold (u :: ts1) k (store k z cb) z
                  (store_lookup_eq _ _ _) Hzs) as (r' & Hk' & Hs' & _).
      * lia.
      * rewrite Hzc, Hcfg. subst ts. rewrite length_app in Hlen. lia.
      * rewrite Hcfg. lia.
      * unfold GetState. by rewrite Hk'.
  - rewrite Hbase by (destruct ts; done). rewrite RecordFailures_app.
    destruct (RecordFailures_below_threshold ts k (store k z cb) z
                (store_lookup_eq _ _ _) Hzs) as (r1 & Hk1 & Hs1 & Hc1);
      [lia | rewrite Hzc, Hcfg; lia | rewrite Hcfg; lia |].
    set (cb1 := RecordFailures ts k (store k z cb)) in *.
    assert (Hcfg1 : threshold cb1 = threshold cb).
    { unfold cb1. by rewrite RecordFailures_threshold. }
    change (RecordFailures [t] k cb1) with (RecordFailure (fst t) (snd t) k cb1).
    unfold RecordFailure. rewrite Hk1. rewrite Hzc in Hc1.
    destruct r1 as [st fc lf oa hs ha]. simpl in Hs1, Hc1. subst st. simpl.
    rewrite incr_no_overflow by (unfold GoInt.min_int; lia).
    rewrite Hcfg1.
    rewrite (proj2 (Z.leb_le (threshold cb) (fc + 1))) by lia. simpl.
    eexists. split; [apply store_lookup_eq|]. simpl. repeat split; lia.
Qed.

Lemma consecutive_failures_open_witness :
  let cb := RecordFailures [(1, 1); (2, 2)] "/test" (NewCircuitBreaker 3 Second 1) in
  1 <= threshold cb <= GoInt.max_int /\
  GetState "/test" cb = CircuitBreakerClosed /\
  Z.of_nat (length [(3, 3); (4, 4)]) = threshold cb - 1 /\
  GetState "/test" (RecordFailures [(3, 3); (4, 4)] "/test" (RecordSuccess "/test" cb))
    = CircuitBreakerClosed /\
  GetState "/test" (RecordFailures ([(3, 3); (4, 4)] ++ [(5, 6)]) "/test" (RecordSuccess "/test" cb))
    = CircuitBreakerOpen.
Proof.
  intros cb.
  assert (Hth : 1 <= threshold cb <= GoInt.max_int) by (split; discriminate).
  pose proof (consecutive_failures_open cb "/test" [(3, 3); (4, 4)] (5, 6) Hth eq_refl eq_refl)
    as H.
  cbv zeta in H. destruct H as [Hclosed (r' & Hk & Hs & _)].
  split; [exact Hth|]. split; [reflexivity|]. split; [reflexivity|].
  split; [exact (Hclosed [(3, 3); (4, 4)] [] eq_refl)|].
  rewrite <- Hs. unfold GetState.
  exact (f_equal (fun o => match o with
                           | Some circuit => state circuit
                           | None => CircuitBreakerClosed
                           end) Hk).
Defined.

End BreakerPaths.

Section BreakerRecovery.
Import Models GoTime Breaker.

(** Successes on a half-open record below the trial count only count. *)
Lemma RecordSuccesses_below_trials n : forall k cb r,
  circuits cb !! k = Some r ->
  state r = CircuitBreakerHalfOpen ->
  0 <= halfOpenSuccessCount r ->
  halfOpenSuccessCount r + Z.of_nat n < halfOpenRequests cb ->
  halfOpenRequests cb <= GoInt.max_int ->
  halfOpenRequests (RecordSuccesses n k cb) = halfOpenRequests cb /\
  circuits (RecordSuccesses n k cb) !! k
    = Some (set_halfOpenSuccessCount (halfOpenSuccessCount r + Z.of_nat n) r).
Proof.
  induction n as [|n IH]; intros k cb r Hk Hs H0 Hlt Hmax.
  - simpl. split; [done|]. rewrite Hk, Z.add_0_r. by destruct r.
  - destruct (IH k cb r Hk Hs H0 ltac:(lia) Hmax) as [Hcfg Hkn].
    change (RecordSuccesses (S n) k cb)
      with (RecordSuccess k (RecordSuccesses n k cb)).
    unfold RecordSuccess. rewrite Hkn, Hcfg.
    destruct r as [st fc lf oa hs ha]. simpl in *. subst st. simpl.
    rewrite incr_no_overflow by (unfold GoInt.min_int; lia).
    rewrite (proj2 (Z.leb_gt (halfOpenRequests cb) (hs + Z.of_nat n + 1))) by lia.
    split; [by rewrite <- Hcfg|].
    rewrite store_lookup_eq. unfold set_halfOpenSuccessCount. simpl.
    do 2 f_equal. lia.
Qed.

(** X5. Recovery. Once the timeout of an open circuit has elapsed and at
    least one trial is configured, the gate permits a trial; fewer than
    [halfOpenRequests] recorded successes leave the circuit half-open, and
    the [halfOpenRequests]-th success closes it with [failureCount] zero,
    after which the gate permits at any time. *)
Theorem trial_successes_close_the_circuit cb k r now :
  circuits cb !! k = Some r ->
  state r = CircuitBreakerOpen ->
  timeout cb <= Since now (openedAt r) ->
  1 <= halfOpenRequests cb <= GoInt.max_int ->
  let cb1 := snd (CanAttempt now k cb) in
  let n := Z.to_nat (halfOpenRequests cb) in
  fst (CanAttempt now k cb) = true /\
  (forall j, (j < n)%nat ->
     GetState k (RecordSuccesses j k cb1) = CircuitBreakerHalfOpen) /\
  (exists r',
     circuits (RecordSuccesses n k cb1) !! k = Some r' /\
     state r' = CircuitBreakerClosed /\ failureCount r' = 0) /\
  (forall now', fst (CanAttempt now' k (RecordSuccesses n k cb1)) = true).
Proof.
  intros Hk Hs Ht Hho cb1 n.
  set (r1 := set_halfOpenAttempts 1
               (set_halfOpenSuccessCount 0
                 (set_halfOpenAttempts 0 (set_state CircuitBreakerHalfOpen r)))).
  assert (Hgate : CanAttempt now k cb = (true, store k r1 cb)).
  { unfold CanAttempt. rewrite Hk, Hs. simpl.
    rewrite (proj2 (Z.leb_le (timeout cb) (Since now (openedAt r)))) by lia. simpl.
    rewrite (proj2 (Z.leb_gt (halfOpenRequests cb) 0)) by lia. reflexivity. }
  assert (Hcb1 : cb1 = store k r1 cb) by (unfold cb1; by rewrite Hgate).
  assert (Hk1 : circuits cb1 !! k = Some r1) by (rewrite Hcb1; apply store_lookup_eq).
  assert (Hcfg1 : halfOpenRequests cb1 = halfOpenRequests cb) by (by rewrite Hcb1).
  assert (Hbelow : forall j, (j < n)%nat ->
            halfOpenRequests (RecordSuccesses j k cb1) = halfOpenRequests cb /\
            circuits (RecordSuccesses j k cb1) !! k
              = Some (set_halfOpenSuccessCount (Z.of_nat j) r1)).
  { intros j Hj.
    destruct (RecordSuccesses_below_trials j k cb1 r1 Hk1 eq_refl) as [H1 H2].
    - change (halfOpenSuccessCount r1) with 0. lia.
    - change (halfOpenSuccessCount r1) with 0. rewrite Hcfg1. unfold n in Hj. lia.
    - rewrite Hcfg1. lia.
    - split; [congruence | exact H2]. }
  assert (Hlast : exists r',
            circuits (RecordSuccesses n k cb1) !! k = Some r' /\
            state r' = CircuitBreakerClosed /\ failureCount r' = 0).
  { assert (Hn : n = S (Nat.pred n)) by (unfold n; lia).
    destruct (Hbelow (Nat.pred n) ltac:(lia)) as [Hc Hkp].
    rewrite Hn.
    change (RecordSuccesses (S (Nat.pred n)) k cb1)
      with (RecordSuccess k (RecordSuccesses (Nat.pred n) k cb1)).
    unfold RecordSuccess at 1. rewrite Hkp, Hc. simpl.
    rewrite incr_no_overflow by (unfold GoInt.min_int, n; lia).
    rewrite (proj2 (Z.leb_le (halfOpenRequests cb) (Z.of_nat (Nat.pred n) + 1)))
      by (unfold n; lia).
    eexists. split; [apply store_lookup_eq|]. done. }
  split; [by rewrite Hgate|]. split; [|split; [exact Hlast|]].
  - intros j Hj. destruct (Hbelow j Hj) as [_ Hkj].
    unfold GetState. by rewrite Hkj.
  - intros now'. destruct Hlast as (r' & Hk' & Hs' & _).
    by rewrite (CanAttempt_closed now' k _ r' Hk' Hs').
Qed.

Lemma trial_successes_close_the_circuit_witness :
  let r := mkCircuit CircuitBreakerOpen 3 10 11 0 0 in
  let cb := store "/test" r (NewCircuitBreaker 3 Second 2) in
  let now := 11 + 2 * Second in
  circuits cb !! "/test"%string = Some r /\
  state r = CircuitBreakerOpen /\
  timeout cb <= Since now (openedAt r) /\
  1 <= halfOpenRequests cb <= GoInt.max_int /\
  fst (CanAttempt now "/test" cb) = true /\
  GetState "/test" (RecordSuccesses 1 "/test" (snd (CanAttempt now "/test" cb)))
    = CircuitBreakerHalfOpen.
Proof.
  intros r cb now.
  assert (Ht : timeout cb <= Since now (openedAt r)) by (vm_compute; discriminate).
  assert (Hho : 1 <= halfOpenRequests cb <= GoInt.max_int) by (split; discriminate).
  pose proof (trial_successes_close_the_circuit cb "/test" r now eq_refl eq_refl Ht Hho) as H.
  cbv zeta in H. destruct H as (Hgate & Hhalf & _).
  split; [reflexivity|]. split; [reflexivity|]. split; [exact Ht|].
  split; [exact Hho|]. split; [exact Hgate|].
  apply (Hhalf 1%nat). vm_compute. lia.
Defined.

(** X6. The gate denies in exactly three situations: the record is open
    and its timeout has not elapsed; the record is open, the timeout has
    elapsed, and no trial is configured; the record is half-open and its
    attempts have used up the trials. [IsOpen] answers true exactly in the
    first of them, so whenever [IsOpen] is true the gate denies. *)
Theorem gate_denies_iff cb k now :
  (fst (CanAttempt now k cb) = false <->
   exists r, circuits cb !! k = Some r /\
     ((state r = CircuitBreakerOpen /\ Since now (openedAt r) < timeout cb) \/
      (state r = CircuitBreakerOpen /\ timeout cb <= Since now (openedAt r) /\
       halfOpenRequests cb <= 0) \/
      (state r = CircuitBreakerHalfOpen /\ halfOpenRequests cb <= halfOpenAttempts r))) /\
  (IsOpen now k cb = true <->
   exists r, circuits cb !! k = Some r /\
     state r = CircuitBreakerOpen /\ Since now (openedAt r) < timeout cb) /\
  (IsOpen now k cb = true -> CanAttempt now k cb = (false, cb)).
Proof.
  assert (Hopen : IsOpen now k cb = true <->
            exists r, circuits cb !! k = Some r /\
              state r = CircuitBreakerOpen /\ Since now (openedAt r) < timeout cb).
  { unfold IsOpen. destruct (circuits cb !! k) as [r|].
    - destruct r as [st fc lf oa hs ha]. simpl.
      destruct st; simpl;
        try (split; [discriminate | intros (r' & [= <-] & Hs & _); discriminate]).
      destruct (Z.leb_spec (timeout cb) (Since now oa)).
      + split; [discriminate | intros (r' & [= <-] & _ & Hlt); simpl in Hlt; lia].
      + split; [intros _; eexists; split; [reflexivity|]; simpl; auto | reflexivity].
    - split; [discriminate | intros (r' & Hr & _); discriminate]. }
  split; [|split; [exact Hopen|]].
  - unfold CanAttempt. destruct (circuits cb !! k) as [r|].
    + destruct r as [st fc lf oa hs ha]. simpl. destruct st; simpl.
      * split; [discriminate|].
        intros (r' & [= <-] & [[Hs _]|[[Hs _]|[Hs _]]]); discriminate.
      * destruct (Z.leb_spec (timeout cb) (Since now oa)); simpl.
        -- destruct (Z.leb_spec (halfOpenRequests cb) 0); simpl.
           ++ split; [intros _|reflexivity]. eexists. split; [reflexivity|].
              right. left. simpl. auto.
           ++ split; [discriminate|].
              intros (r' & [= <-] & [[_ Hlt]|[(_ & _ & Hle)|[Hs _]]]);
                simpl in *; try lia; discriminate.
        -- split; [intros _|reflexivity]. eexists. split; [reflexivity|].
           left. simpl. auto.
      * destruct (Z.leb_spec (halfOpenRequests cb) ha); simpl.
        -- split; [intros _|reflexivity]. eexists. split; [reflexivity|].
           right. right. simpl. auto.
        -- split; [discriminate|].
           intros (r' & [= <-] & [[Hs _]|[[Hs _]|[_ Hle]]]);
             simpl in *; try lia; discriminate.
    + split; [discriminate | intros (r' & Hr & _); discriminate].
  - intros His. apply Hopen in His as (r & Hk & Hs & Hlt).
    by apply (CanAttempt_open_waiting now k cb r).
Qed.

Lemma gate_denies_iff_witness :
  let cb := RecordFailures [(1, 1); (2, 2)] "/test" (NewCircuitBreaker 2 Second 1) in
  IsOpen 3 "/test" cb = true /\
  CanAttempt 3 "/test" cb = (false, cb).
Proof.
  intros cb. split; [reflexivity|].
  exact (proj2 (proj2 (gate_denies_iff cb "/test" 3)) eq_refl).
Defined.

(** While no trial is configured, a record that is open, or half-open with
    its trials used up, stays so under every call that records no success. *)
Lemma step_no_trials k o cb r :
  halfOpenRequests cb <= 0 ->
  circuits cb !! k = Some r ->
  state r = CircuitBreakerOpen \/
    (state r = CircuitBreakerHalfOpen /\ halfOpenRequests cb <= halfOpenAttempts r) ->
  records_no_success o = true ->
  exists r',
    circuits (snd (step k o cb)) !! k = Some r' /\
    (state r' = CircuitBreakerOpen \/
     (state r' = CircuitBreakerHalfOpen /\ halfOpenRequests cb <= halfOpenAttempts r')).
Proof.
  intros Hho Hk Hs Ho. destruct o as [t|t| |tF tO| |]; simpl in *; try discriminate.
  - by exists r.
  - unfold CanAttempt. rewrite Hk.
    destruct r as [st fc lf oa hs ha]. simpl in *.
    destruct Hs as [->|[-> Hha]]; simpl.
    + destruct (timeout cb <=? Since t oa); simpl.
      * rewrite (proj2 (Z.leb_le (halfOpenRequests cb) 0)) by lia. simpl.
        eexists. split; [apply store_lookup_eq|]. simpl. right. split; [done | lia].
      * eexists. split; [exact Hk|]. by left.
    + rewrite (proj2 (Z.leb_le (halfOpenRequests cb) ha)) by lia. simpl.
      eexists. split; [apply store_lookup_eq|]. simpl. by right.
  - unfold RecordFailure. rewrite Hk.
    destruct r as [st fc lf oa hs ha]. simpl in *.
    destruct Hs as [->|[-> Hha]]; simpl;
      eexists; (split; [apply store_lookup_eq|]); simpl; by left.
  - by exists r.
Qed.

Lemma run_no_trials k os : forall cb r,
  halfOpenRequests cb <= 0 ->
  circuits cb !! k = Some r ->
  state r = CircuitBreakerOpen \/
    (state r = CircuitBreakerHalfOpen /\ halfOpenRequests cb <= halfOpenAttempts r) ->
  forallb records_no_success os = true ->
  halfOpenRequests (snd (run k os cb)) = halfOpenRequests cb /\
  exists r',
    circuits (snd (run k os cb)) !! k = Some r' /\
    (state r' = CircuitBreakerOpen \/
     (state r' = CircuitBreakerHalfOpen /\ halfOpenRequests cb <= halfOpenAttempts r')).
Proof.
  induction os as [|o os IH]; intros cb r Hho Hk Hs Hos; simpl in *.
  - split; [done|]. by exists r.
  - apply andb_true_iff in Hos as [Ho Hos].
    destruct (step_no_trials k o cb r Hho Hk Hs Ho) as (r1 & Hk1 & Hs1).
    destruct (step_config k o cb) as (_ & _ & Hcfg).
    destruct (step k o cb) as [x cb1]. simpl in *.
    rewrite <- Hcfg in Hs1.
    destruct (IH cb1 r1 ltac:(lia) Hk1 Hs1 Hos) as (Hcfg' & r' & Hk' & Hs').
    destruct (run k os cb1) as [xs cb2]. simpl in *.
    split; [congruence|]. exists r'. split; [exact Hk'|]. by rewrite <- Hcfg.
Qed.

(** X7. With [halfOpenRequests] at most 0 (the zero value of the option) an
    open circuit does not recover through the gate. After any sequence of
    [IsOpen], [CanAttempt], [GetState] and [RecordFailure] calls for the
    endpoint, whatever their clock readings, the circuit is not closed and
    the gate denies at every instant, so no call of the sequence was
    permitted either. A recorded success is the way out: once the gate has
    been asked after the timeout, which makes the record half-open, a single
    [RecordSuccess] closes the circuit, and the gate permits from then on. *)
Theorem no_trials_recovery_needs_success cb k r os :
  halfOpenRequests cb <= 0 ->
  circuits cb !! k = Some r ->
  state r = CircuitBreakerOpen ->
  forallb records_no_success os = true ->
  GetState k (snd (run k os cb)) <> CircuitBreakerClosed /\
  (forall now, fst (CanAttempt now k (snd (run k os cb))) = false) /\
  (forall now, timeout cb <= Since now (openedAt r) ->
     fst (CanAttempt now k cb) = false /\
     GetState k (snd (CanAttempt now k cb)) = CircuitBreakerHalfOpen /\
     GetState k (RecordSuccess k (snd (CanAttempt now k cb))) = CircuitBreakerClosed /\
     forall now', fst (CanAttempt now' k (RecordSuccess k (snd (CanAttempt now k cb)))) = true).
Proof.
  intros Hho Hk Hs Hos.
  destruct (run_no_trials k os cb r Hho Hk (or_introl Hs) Hos) as (Hcfg & r' & Hk' & Hs').
  split; [|split].
  - unfold GetState. rewrite Hk'. destruct Hs' as [->|[-> _]]; discriminate.
  - intros now. unfold CanAttempt. rewrite Hk', Hcfg.
    destruct r' as [st fc lf oa hs ha]. simpl in *.
    destruct Hs' as [->|[-> Hha]]; simpl.
    + destruct (_ <=? Since now oa); simpl; [|done].
      by rewrite (proj2 (Z.leb_le (halfOpenRequests cb) 0)) by lia.
    + by rewrite (proj2 (Z.leb_le (halfOpenRequests cb) ha)) by lia.
  - intros now Hel.
    unfold CanAttempt. rewrite Hk.
    destruct r as [st fc lf oa hs ha]. simpl in *. subst st. simpl.
    rewrite (proj2 (Z.leb_le (timeout cb) (Since now oa)) Hel). simpl.
    rewrite (proj2 (Z.leb_le (halfOpenRequests cb) 0)) by lia. simpl.
    split; [done|]. split; [unfold GetState; by rewrite store_lookup_eq|].
    unfold RecordSuccess. rewrite store_lookup_eq. simpl.
    change (GoInt.incr 0) with 1.
    rewrite (proj2 (Z.leb_le (halfOpenRequests cb) 1)) by lia.
    split; [unfold GetState; by rewrite store_lookup_eq|].
    intros now'. unfold CanAttempt. by rewrite store_lookup_eq.
Qed.

(** The threshold is 3 and no trial is configured. Three failures open the
    circuit; the gate is then asked before and after the timeout, with a
    further failure in between. *)
Lemma no_trials_recovery_needs_success_witness :
  let cb := RecordFailures [(1, 1); (2, 2); (3, 3)] "/test" (NewCircuitBreaker 3 Second 0) in
  let r := mkCircuit CircuitBreakerOpen 3 3 3 0 0 in
  let os := [OpCanAttempt 4; OpCanAttempt (5 + Second); OpRecordFailure 6 6;
             OpIsOpen 7; OpCanAttempt (8 + 3600 * Second); OpGetState] in
  halfOpenRequests cb <= 0 /\
  circuits cb !! "/test"%string = Some r /\
  state r = CircuitBreakerOpen /\
  forallb records_no_success os = true /\
  timeout cb <= Since (5 + Second) (openedAt r) /\
  fst (CanAttempt (9 + 7200 * Second) "/test" (snd (run "/test" os cb))) = false /\
  fst (CanAttempt 6 "/test"
         (RecordSuccess "/test" (snd (CanAttempt (5 + Second) "/test" cb)))) = true.
Proof.
  intros cb r os.
  assert (Hho : halfOpenRequests cb <= 0) by discriminate.
  assert (Hel : timeout cb <= Since (5 + Second) (openedAt r)) by discriminate.
  destruct (no_trials_recovery_needs_success cb "/test" r os Hho eq_refl eq_refl eq_refl)
    as (_ & Hdeny & Hout).
  split; [exact Hho|]. split; [reflexivity|]. split; [reflexivity|].
  split; [reflexivity|]. split; [exact Hel|].
  split; [exact (Hdeny (9 + 7200 * Second))|].
  exact (proj2 (proj2 (proj2 (Hout (5 + Second) Hel))) 6).
Defined.

End BreakerRecovery.

(** * Further properties of the retry manager *)

Section BackoffMore.
Import GoTime Float64 Models Retry.

Lemma cap_le maxDelay v : cap maxDelay v <= maxDelay.
Proof. unfold cap. destruct (Z.ltb_spec maxDelay v); lia. Qed.

Lemma cap_mono maxDelay v w : v <= w -> cap maxDelay v <= cap maxDelay w.
Proof.
  intros H. unfold cap.
  destruct (Z.ltb_spec maxDelay v), (Z.ltb_spec maxDelay w); lia.
Qed.

Lemma baseDelay_le_MaxDelay arch rm attempt :
  baseDelay arch rm attempt <= MaxDelay (options rm).
Proof.
  unfold baseDelay, CalculateDelay. simpl.
  match goal with |- (if ?m <? ?v then _ else _) <= _ =>
    destruct (Z.ltb_spec m v); lia end.
Qed.

(** X8. Without jitter the delay never exceeds [MaxDelay], for every
    strategy, attempt index, initial delay and architecture, including the
    inputs whose strategy value overflows. *)
Theorem delay_never_exceeds_MaxDelay arch rm u attempt :
  Jitter (options rm) = false ->
  CalculateDelay arch rm u attempt <= MaxDelay (options rm).
Proof.
  intros Hj. unfold CalculateDelay. rewrite Hj.
  match goal with |- (if ?m <? ?v then _ else _) <= _ =>
    destruct (Z.ltb_spec m v); lia end.
Qed.

Lemma delay_never_exceeds_MaxDelay_witness :
  Jitter linearOverflowOptions = false /\
  CalculateDelay amd64 (mkRetryManager linearOverflowOptions) zero 2562047 <= 30 * Second.
Proof.
  split; [reflexivity|].
  exact (delay_never_exceeds_MaxDelay amd64 (mkRetryManager linearOverflowOptions)
           zero 2562047 eq_refl).
Defined.

(** X9. Without jitter, and as long as the strategy value of the later
    attempt is computed exactly, a non-negative initial delay gives delays
    that never decrease from one attempt to a later one. *)
Theorem delay_is_monotone_in_attempt arch rm u n n' :
  Jitter (options rm) = false ->
  0 <= InitialDelay (options rm) ->
  0 <= n <= n' ->
  let d := InitialDelay (options rm) in
  (Backoff (options rm) = BackoffFixed ->
   CalculateDelay arch rm u n = CalculateDelay arch rm u n') /\
  (Backoff (options rm) = BackoffLinear ->
   GoInt.in_range (n' + 1) -> GoInt.in_range (d * (n' + 1)) ->
   CalculateDelay arch rm u n <= CalculateDelay arch rm u n') /\
  (Backoff (options rm) = BackoffExponential ->
   n' < emax -> d < 2 ^ prec -> GoInt.in_range (d * 2 ^ n') ->
   CalculateDelay arch rm u n <= CalculateDelay arch rm u n').
Proof.
  intros Hj Hd Hn d.
  destruct (CalculateDelay_in_range arch rm u n Hj) as (Hf & Hl & He).
  destruct (CalculateDelay_in_range arch rm u n' Hj) as (Hf' & Hl' & He').
  fold d in Hf, Hl, He, Hf', Hl', He'.
  split; [intros Hb; by rewrite Hf, Hf'|]. split.
  - intros Hb Hr1 Hr2. unfold GoInt.in_range, GoInt.min_int, GoInt.max_int in *.
    rewrite Hl, Hl' by (try assumption; unfold GoInt.in_range, GoInt.min_int, GoInt.max_int; nia).
    apply cap_mono. nia.
  - intros Hb Hn' Hd' Hr.
    assert (Hpow : 2 ^ n <= 2 ^ n') by (apply Z.pow_le_mono_r; lia).
    assert (Hpos : 0 < 2 ^ n) by (apply Z.pow_pos_nonneg; lia).
    unfold GoInt.in_range, GoInt.min_int, GoInt.max_int in *.
    rewrite He, He'; try assumption; try lia;
      try (unfold GoInt.in_range, GoInt.min_int, GoInt.max_int; nia).
    apply cap_mono. nia.
Qed.

Lemma delay_is_monotone_in_attempt_witness :
  let rm := mkRetryManager exponentialOverflowOptions in
  Jitter (options rm) = false /\
  0 <= InitialDelay (options rm) /\
  0 <= 2 <= 9 /\
  CalculateDelay amd64 rm zero 2 <= CalculateDelay amd64 rm zero 9.
Proof.
  intros rm.
  assert (Hd : 0 <= InitialDelay (options rm)) by discriminate.
  assert (Hn : 0 <= 2 <= 9) by lia.
  destruct (delay_is_monotone_in_attempt amd64 rm zero 2 9 eq_refl Hd Hn) as (_ & _ & He).
  split; [reflexivity|]. split; [exact Hd|]. split; [exact Hn|].
  apply He; [reflexivity | reflexivity | reflexivity |].
  split; vm_compute; discriminate.
Defined.

End BackoffMore.

Section JitterMore.
Import GoTime Float64 Models Retry.

(** X10. With jitter enabled, a fraction that is not NaN, a draw in [0, 1)
    and [MaxDelay] below 2^52 ns, a non-negative capped delay is returned
    jittered by at most itself: [CalculateDelay] is at least 0 and at most
    twice the capped delay, hence at most twice [MaxDelay]. *)
Theorem jittered_delay_at_most_doubles arch rm u attempt :
  Jitter (options rm) = true ->
  JitterFraction (options rm) <> NaN ->
  is_finite u = true -> (0 <= to_Q u)%Q -> (to_Q u < 1)%Q ->
  MaxDelay (options rm) < 2 ^ 52 ->
  0 <= baseDelay arch rm attempt ->
  0 <= CalculateDelay arch rm u attempt /\
  CalculateDelay arch rm u attempt <= 2 * baseDelay arch rm attempt /\
  CalculateDelay arch rm u attempt <= 2 * MaxDelay (options rm).
Proof.
  intros Hj Hnan Hfin Hu0 Hu1 Hmax Hbase.
  pose proof (baseDelay_le_MaxDelay arch rm attempt) as Hcap.
  assert (Hcalc : CalculateDelay arch rm u attempt
                  = applyJitter arch rm u (baseDelay arch rm attempt)).
  { unfold CalculateDelay. rewrite Hj. reflexivity. }
  rewrite Hcalc.
  destruct u as [| |mu eu]; try discriminate. simpl in Hu0, Hu1.
  destruct (applyJitter_sandwich arch rm Hnan mu eu (baseDelay arch rm attempt)
              Hu0 Hu1 ltac:(lia)) as [HC Hres].
  lia.
Qed.

Lemma jittered_delay_at_most_doubles_witness :
  let rm := mkRetryManager NewRetryOptions in
  let u := Fin 3 (-2) in
  Jitter (options rm) = true /\
  JitterFraction (options rm) <> NaN /\
  is_finite u = true /\ (0 <= to_Q u)%Q /\ (to_Q u < 1)%Q /\
  MaxDelay (options rm) < 2 ^ 52 /\
  0 <= baseDelay amd64 rm 20 /\
  0 <= CalculateDelay amd64 rm u 20 <= 60 * Second.
Proof.
  intros rm u.
  assert (Hnan : JitterFraction (options rm) <> NaN) by discriminate.
  assert (Hu0 : (0 <= to_Q u)%Q) by (vm_compute; discriminate).
  assert (Hu1 : (to_Q u < 1)%Q) by (vm_compute; reflexivity).
  assert (Hmax : MaxDelay (options rm) < 2 ^ 52) by reflexivity.
  assert (Hbase : 0 <= baseDelay amd64 rm 20) by (vm_compute; discriminate).
  destruct (jittered_delay_at_most_doubles amd64 rm u 20 eq_refl Hnan eq_refl Hu0 Hu1 Hmax Hbase)
    as (H0 & _ & H2).
  split; [reflexivity|]. split; [exact Hnan|]. split; [reflexivity|].
  split; [exact Hu0|]. split; [exact Hu1|]. split; [exact Hmax|].
  split; [exact Hbase|]. split; [exact H0 | exact H2].
Defined.

Lemma mul_NaN_r x : mul x NaN = NaN.
Proof. by destruct x. Qed.

Lemma add_NaN_r x : add x NaN = NaN.
Proof. by destruct x. Qed.

Lemma sub_NaN_r x : sub x NaN = NaN.
Proof. by destruct x. Qed.

Lemma trunc_nonneg m e : 0 <= m -> 0 <= trunc m e.
Proof.
  intros Hm. unfold trunc. destruct (Z.leb_spec 0 e).
  - apply Z.mul_nonneg_nonneg; [exact Hm | apply Z.pow_nonneg; lia].
  - apply Z.quot_pos; [exact Hm | apply Z.pow_pos_nonneg; lia].
Qed.

Lemma not_ltb_zero m e : ltb (Fin m e) zero = false -> 0 <= m.
Proof.
  intros H. destruct (Z_lt_le_dec m 0) as [Hneg|]; [|assumption].
  exfalso. assert (Hlt : ltb (Fin m e) zero = true); [|congruence].
  apply float_ltb_spec. rewrite dyadic_int.
  assert (Hz : (dyadic 0 e == inject_Z 0)%Q) by (unfold dyadic; simpl; ring).
  rewrite <- Hz. apply dyadic_lt. exact Hneg.
Qed.

(** The saturating conversion of arm64 answers no negative number for a
    value that is not below zero. *)
Lemma arm64_saturates x : ltb x zero = false -> 0 <= out_of_range arm64 x.
Proof.
  destruct x as [|[]|m e]; simpl; intros H; try discriminate; try done.
  pose proof (not_ltb_zero m e H) as Hm.
  destruct (Z.ltb_spec m 0); [lia | done].
Qed.

(** X11. [applyJitter] returns a negative delay only through the conversion
    of a value that has no int64 representation: on an architecture whose
    conversion answers no negative number for values that are not below zero
    (a saturating one, such as arm64) the result is at least 0 for every
    delay, fraction (NaN included) and draw; on amd64 a NaN fraction makes
    it the most negative int64. *)
Theorem jitter_sign_follows_conversion arch rm u delay :
  (forall x, ltb x zero = false -> 0 <= out_of_range arch x) ->
  0 <= applyJitter arch rm u delay /\
  (forall u' delay',
     JitterFraction (options rm) = NaN ->
     applyJitter amd64 rm u' delay' = GoInt.min_int).
Proof.
  intros Harch. split.
  - unfold applyJitter.
    match goal with |- 0 <= to_int64 arch (if ltb ?nd zero then zero else ?nd) =>
      destruct (ltb nd zero) eqn:Hlt; [vm_compute; discriminate|];
      destruct nd as [|s|m e] eqn:Hnd
    end; simpl; try (apply Harch; exact Hlt).
    pose proof (trunc_nonneg m e (not_ltb_zero m e Hlt)) as Ht.
    destruct (Z.leb_spec GoInt.min_int (trunc m e)); simpl; [|apply Harch; exact Hlt].
    destruct (Z.leb_spec (trunc m e) GoInt.max_int); [exact Ht | apply Harch; exact Hlt].
  - intros u' delay' Hnan. unfold applyJitter. rewrite Hnan. simpl.
    rewrite !mul_NaN_r, sub_NaN_r, add_NaN_r. reflexivity.
Qed.

Lemma jitter_sign_follows_conversion_witness :
  (forall x, ltb x zero = false -> 0 <= out_of_range arm64 x) /\
  0 <= applyJitter arm64 (mkRetryManager NewRetryOptions) (Fin 1 (-1)) GoInt.max_int.
Proof.
  split; [exact arm64_saturates|].
  exact (proj1 (jitter_sign_follows_conversion arm64 (mkRetryManager NewRetryOptions)
                  (Fin 1 (-1)) GoInt.max_int arm64_saturates)).
Defined.

End JitterMore.

(** * Properties of the client configuration *)

Section ConfigFacts.
Import GoTime Configs.

Lemma copy_entries_union (src dst : gmap string string) :
  copy_entries src dst = src ∪ dst.
Proof.
  unfold copy_entries.
  apply (map_fold_weak_ind (fun r (m : gmap string string) => r = m ∪ dst)).
  - by rewrite (left_id_L ∅ (∪)).
  - intros i x m r Hi ->. by rewrite insert_union_l.
Qed.

Lemma fresh_map_unused (h : heap) :
  header_maps h !! fresh (dom (header_maps h)) = None.
Proof. apply not_elem_of_dom. apply is_fresh. Qed.

Lemma fresh_options_unused (h : heap) :
  retry_options h !! fresh (dom (retry_options h)) = None.
Proof. apply not_elem_of_dom. apply is_fresh. Qed.

Lemma fresh_array_unused (h : heap) :
  arrays h !! fresh (dom (arrays h)) = None.
Proof. apply not_elem_of_dom. apply is_fresh. Qed.

Lemma extends_refl h : extends h h.
Proof. by repeat split. Qed.

Lemma extends_trans h1 h2 h3 : extends h1 h2 -> extends h2 h3 -> extends h1 h3.
Proof. intros (A1 & B1 & C1) (A2 & B2 & C2). repeat split; eauto. Qed.

(** A slice within its array has as many elements as its length says. *)
Lemma elements_length h s : slice_ok h s -> length (elements h s) = slice_len s.
Proof.
  unfold slice_ok, elements. intros [Hle Hs].
  destruct (slice_array s) as [a|]; [|simpl; lia].
  destruct Hs as (xs & -> & Hxs). simpl. rewrite length_take, length_drop. lia.
Qed.

Lemma extends_slice h h' s :
  extends h h' -> slice_ok h s -> elements h' s = elements h s /\ slice_ok h' s.
Proof.
  intros (_ & _ & Ha) [Hle Hs]. unfold elements, slice_ok.
  destruct (slice_array s) as [a|]; [|done].
  destruct Hs as (xs & Hxs & Hlen). rewrite (Ha a xs Hxs), Hxs. eauto.
Qed.

Lemma extends_contents h h' c :
  extends h h' -> allocated h c ->
  contents h' c = contents h c /\ codes_room h' c = codes_room h c /\ allocated h' c.
Proof.
  intros Hext [Ha1 Ha2]. pose proof Hext as (Hm & Ho & Harr). split; [|split].
  - unfold contents. f_equal; [f_equal|].
    + unfold headers_at. destruct (Headers c) as [l|]; [|done].
      destruct (Ha1 l eq_refl) as [m Hl]. by rewrite (Hm l m Hl), Hl.
    + unfold options_at. destruct (RetryOptions c) as [l|]; [|done].
      destruct (Ha2 l eq_refl) as (o & Hl & Hok). rewrite (Ho l o Hl), Hl. simpl.
      unfold read_options. by rewrite (proj1 (extends_slice h h' _ Hext Hok)).
  - unfold codes_room. destruct (RetryOptions c) as [l|]; [|done].
    destruct (Ha2 l eq_refl) as (o & Hl & Hok). by rewrite (Ho l o Hl), Hl.
  - split; intros l Hl.
    + destruct (Ha1 l Hl) as [m Hm']. exists m. by apply Hm.
    + destruct (Ha2 l Hl) as (o & Ho' & Hok). exists o. split; [by apply Ho|].
      exact (proj2 (extends_slice h h' _ Hext Hok)).
Qed.

Lemma new_map_extends m h : extends h (snd (new_map m h)).
Proof.
  unfold new_map. simpl. split; [|done]. intros l m' Hl. simpl.
  rewrite lookup_insert_ne; [done|]. intros <-. by rewrite fresh_map_unused in Hl.
Qed.

Lemma new_options_extends o h : extends h (snd (new_options o h)).
Proof.
  unfold new_options. simpl. split; [done|]. split; [|done]. intros l o' Hl. simpl.
  rewrite lookup_insert_ne; [done|]. intros <-. by rewrite fresh_options_unused in Hl.
Qed.

(** [make] followed by [copy], as in [Clone]: a new array holding the
    elements of the source. *)
Lemma make_copy h s :
  slice_ok h s ->
  let s' := fst (make_slice (slice_len s) h) in
  let h' := copy_slice s' s (snd (make_slice (slice_len s) h)) in
  header_maps h' = header_maps h /\
  retry_options h' = retry_options h /\
  exists a,
    s' = mkSlice (Some a) 0 (slice_len s) (slice_len s) /\
    arrays h !! a = None /\
    arrays h' = <[a := elements h s]> (arrays h).
Proof.
  intros Hok. unfold make_slice, copy_slice. simpl.
  split; [done|]. split; [done|].
  exists (fresh (dom (arrays h))). split; [done|]. split; [apply fresh_array_unused|].
  rewrite lookup_insert_eq, insert_insert_eq. simpl. f_equal.
  rewrite Nat.min_id.
  assert (He : elements
                 (mkHeap (header_maps h) (retry_options h)
                    (<[fresh (dom (arrays h)) := replicate (slice_len s) 0]> (arrays h))) s
               = elements h s).
  { unfold elements. destruct Hok as [_ Hs].
    destruct (slice_array s) as [a|]; [|done]. simpl.
    destruct Hs as (xs & Hxs & _).
    rewrite lookup_insert_ne; [done|]. intros <-. by rewrite fresh_array_unused in Hxs. }
  rewrite He. pose proof (elements_length h s Hok) as Hlen.
  rewrite take_ge by lia.
  rewrite <- (app_nil_r (replicate (slice_len s) 0)).
  rewrite list_inserts_0_r by (by rewrite length_replicate).
  by rewrite app_nil_r.
Qed.

(** The status codes of the struct copy in [Clone]: with elements, a new
    array holding them; without, the slice value of the original. *)
Lemma Clone_codes h o :
  slice_ok h (Mem.RetryOnStatusCodes o) ->
  let r :=
    if (0 <? slice_len (Mem.RetryOnStatusCodes o))%nat then
      let '(codes', h2) := make_slice (slice_len (Mem.RetryOnStatusCodes o)) h in
      (Mem.set_RetryOnStatusCodes codes' o,
       copy_slice codes' (Mem.RetryOnStatusCodes o) h2)
    else (o, h) in
  header_maps (snd r) = header_maps h /\
  retry_options (snd r) = retry_options h /\
  extends h (snd r) /\
  slice_ok (snd r) (Mem.RetryOnStatusCodes (fst r)) /\
  read_options (snd r) (fst r) = read_options h o /\
  if (0 <? slice_len (Mem.RetryOnStatusCodes o))%nat
  then exists a', slice_array (Mem.RetryOnStatusCodes (fst r)) = Some a' /\
                  arrays h !! a' = None
  else fst r = o.
Proof.
  intros Hok r. subst r. destruct (0 <? slice_len (Mem.RetryOnStatusCodes o))%nat.
  - pose proof (make_copy h _ Hok) as (Hhm & Hro & a & Hs' & Hfresh & Harr).
    destruct (make_slice (slice_len (Mem.RetryOnStatusCodes o)) h) as [s' h2].
    simpl in *. subst s'.
    set (h3 := copy_slice _ _ h2) in *. clearbody h3.
    pose proof (elements_length h _ Hok) as Hlen.
    split; [exact Hhm|]. split; [exact Hro|]. split; [|split; [|split]].
    + split; [by rewrite Hhm|]. split; [by rewrite Hro|].
      intros l xs Hl. rewrite Harr, lookup_insert_ne; [done|]. congruence.
    + split; [done|]. simpl. exists (elements h (Mem.RetryOnStatusCodes o)).
      rewrite Harr, lookup_insert_eq. split; [done | lia].
    + unfold read_options. simpl. f_equal.
      unfold elements at 1. simpl. rewrite Harr, lookup_insert_eq. simpl.
      rewrite drop_0, take_ge; [done | lia].
    + by exists a.
  - simpl. split; [done|]. split; [done|]. split; [apply extends_refl|]. done.
Qed.

(** What [Clone] does, in one statement: the copy has a new map and a new
    struct with the contents of the original, the heap only grows, and the
    status codes have a new array exactly when there are any. *)
Lemma Clone_spec c h :
  allocated h c ->
  let c' := fst (Clone c h) in
  let h' := snd (Clone c h) in
  extends h h' /\ allocated h' c' /\ contents h' c' = contents h c /\
  (exists l, Headers c' = Some l /\ header_maps h !! l = None) /\
  (forall l, RetryOptions c' = Some l -> retry_options h !! l = None) /\
  (RetryOptions c' = None <-> RetryOptions c = None) /\
  (forall l o, RetryOptions c = Some l -> retry_options h !! l = Some o ->
     exists l' o', RetryOptions c' = Some l' /\ retry_options h' !! l' = Some o' /\
       if (0 <? slice_len (Mem.RetryOnStatusCodes o))%nat
       then exists a', slice_array (Mem.RetryOnStatusCodes o') = Some a' /\
                       arrays h !! a' = None
       else o' = o).
Proof.
  intros [Ha1 Ha2]. unfold Clone, new_map. rewrite copy_entries_union.
  rewrite (right_id_L ∅ (∪)).
  set (lh := fresh (dom (header_maps h))).
  set (h1 := mkHeap (<[lh := headers_at h (Headers c)]> (header_maps h))
                    (retry_options h) (arrays h)).
  assert (Hext1 : extends h h1) by apply (new_map_extends (headers_at h (Headers c)) h).
  assert (Hlh : header_maps h !! lh = None) by apply fresh_map_unused.
  destruct (RetryOptions c) as [l|] eqn:Hro.
  - destruct (Ha2 l eq_refl) as (o & Ho & Hok).
    change (retry_options h1) with (retry_options h). rewrite Ho. cbv zeta.
    pose proof (Clone_codes h1 o (proj2 (extends_slice h h1 _ Hext1 Hok)))
      as (Hhm & Hopt & Hext2 & Hok2 & Hread & Hcodes).
    cbv zeta in Hhm, Hopt, Hext2, Hok2, Hread, Hcodes.
    destruct (if (0 <? slice_len (Mem.RetryOnStatusCodes o))%nat
              then let '(codes', h2) := make_slice (slice_len (Mem.RetryOnStatusCodes o)) h1 in
                   (Mem.set_RetryOnStatusCodes codes' o,
                    copy_slice codes' (Mem.RetryOnStatusCodes o) h2)
              else (o, h1)) as [o' h2].
    simpl in Hhm, Hopt, Hext2, Hok2, Hread, Hcodes.
    unfold new_options. simpl.
    set (lo := fresh (dom (retry_options h2))).
    assert (Hlo : retry_options h !! lo = None).
    { unfold lo. rewrite Hopt. apply fresh_options_unused. }
    set (h3 := mkHeap (header_maps h2) (<[lo := o']> (retry_options h2)) (arrays h2)).
    assert (Hext3 : extends h2 h3) by apply (new_options_extends o' h2).
    assert (Hext : extends h h3) by eauto using extends_trans.
    split; [exact Hext|]. split; [|split].
    { split; simpl.
      - intros l0 [= <-]. rewrite Hhm. simpl. rewrite lookup_insert_eq. eauto.
      - intros l0 [= <-]. exists o'. rewrite lookup_insert_eq. split; [done|].
        exact (proj2 (extends_slice h2 h3 _ Hext3 Hok2)). }
    { unfold contents. simpl. rewrite lookup_insert_eq, Hhm. simpl.
      rewrite lookup_insert_eq. simpl. f_equal. rewrite Hro. simpl. rewrite Ho. simpl.
      f_equal.
      transitivity (read_options h2 o').
      - unfold read_options. by rewrite (proj1 (extends_slice h2 h3 _ Hext3 Hok2)).
      - rewrite Hread. unfold read_options.
        by rewrite (proj1 (extends_slice h h1 _ Hext1 Hok)). }
    split; [exists lh; done|].
    split; [by intros l0 [= <-]|].
    split; [split; discriminate|].
    intros l0 o0 [= <-] Ho0. rewrite Ho in Ho0. injection Ho0 as <-.
    exists lo, o'. split; [done|]. split; [by rewrite lookup_insert_eq|].
    destruct (0 <? slice_len (Mem.RetryOnStatusCodes o))%nat; [|done].
    exact Hcodes.
  - simpl. split; [exact Hext1|]. split.
    { split; simpl; [intros l0 [= <-]; rewrite lookup_insert_eq; eauto | discriminate]. }
    split.
    { unfold contents. simpl. rewrite ?lookup_insert_eq. simpl. by rewrite ?Hro. }
    split; [exists lh; done|].
    split; [discriminate|]. split; [done|]. discriminate.
Qed.

Lemma contents_eq_inv h h' c c' :
  contents h' c' = contents h c ->
  BaseURL c' = BaseURL c /\ Timeout c' = Timeout c /\
  headers_at h' (Headers c') = headers_at h (Headers c) /\
  StatusValidator c' = StatusValidator c /\
  options_at h' (RetryOptions c') = options_at h (RetryOptions c).
Proof. unfold contents. intros H. inversion H. done. Qed.

(** Reading the retry options takes the structs and the arrays only. *)
Lemma options_at_same h h' p :
  retry_options h' = retry_options h -> arrays h' = arrays h ->
  options_at h' p = options_at h p.
Proof.
  intros Ho Ha. unfold options_at, read_options, elements. by rewrite Ho, Ha.
Qed.

Lemma slice_ok_same h h' s :
  arrays h' = arrays h -> slice_ok h s -> slice_ok h' s.
Proof. intros Ha. unfold slice_ok. by rewrite Ha. Qed.

Lemma slice_ok_update h h1 s :
  (forall a xs, arrays h !! a = Some xs ->
     exists xs', arrays h1 !! a = Some xs' /\ length xs' = length xs) ->
  slice_ok h s -> slice_ok h1 s.
Proof.
  intros Hup [Hle Hs]. split; [exact Hle|].
  destruct (slice_array s) as [a|]; [|exact Hs].
  destruct Hs as (xs & Hxs & Hlen). destruct (Hup a xs Hxs) as (xs' & Hxs' & Hl).
  exists xs'. split; [exact Hxs' | lia].
Qed.

(** What a write through [x] can touch: the map and the struct [x] points
    to, and the array of its status codes, provided that has capacity.
    Arrays keep their length, and the status codes of [x] afterwards are in
    the array they were in, with the same capacity, or in a new one. *)
Lemma write_footprint x w h :
  allocated h x ->
  let h1 := apply_write x w h in
  allocated h1 x /\
  (forall l, Headers x <> Some l -> header_maps h1 !! l = header_maps h !! l) /\
  (forall l, RetryOptions x <> Some l -> retry_options h1 !! l = retry_options h !! l) /\
  (forall a xs, arrays h !! a = Some xs ->
     arrays h1 !! a = Some xs \/
     exists lx ox xs',
       RetryOptions x = Some lx /\ retry_options h !! lx = Some ox /\
       slice_array (Mem.RetryOnStatusCodes ox) = Some a /\
       (0 < slice_cap (Mem.RetryOnStatusCodes ox))%nat /\
       arrays h1 !! a = Some xs' /\ length xs' = length xs) /\
  (forall lx ox1 a,
     RetryOptions x = Some lx -> retry_options h1 !! lx = Some ox1 ->
     slice_array (Mem.RetryOnStatusCodes ox1) = Some a ->
     arrays h !! a = None \/
     exists ox, retry_options h !! lx = Some ox /\
                slice_array (Mem.RetryOnStatusCodes ox) = Some a /\
                slice_cap (Mem.RetryOnStatusCodes ox1) = slice_cap (Mem.RetryOnStatusCodes ox)).
Proof.
  intros Hx. pose proof Hx as [Hx1 Hx2].
  assert (Hsame : forall h1,
            header_maps h1 = header_maps h -> retry_options h1 = retry_options h ->
            arrays h1 = arrays h ->
            allocated h1 x /\
            (forall l, Headers x <> Some l -> header_maps h1 !! l = header_maps h !! l) /\
            (forall l, RetryOptions x <> Some l ->
               retry_options h1 !! l = retry_options h !! l) /\
            (forall a xs, arrays h !! a = Some xs ->
               arrays h1 !! a = Some xs \/
               exists lx ox xs',
                 RetryOptions x = Some lx /\ retry_options h !! lx = Some ox /\
                 slice_array (Mem.RetryOnStatusCodes ox) = Some a /\
                 (0 < slice_cap (Mem.RetryOnStatusCodes ox))%nat /\
                 arrays h1 !! a = Some xs' /\ length xs' = length xs) /\
            (forall lx ox1 a,
               RetryOptions x = Some lx -> retry_options h1 !! lx = Some ox1 ->
               slice_array (Mem.RetryOnStatusCodes ox1) = Some a ->
               arrays h !! a = None \/
               exists ox, retry_options h !! lx = Some ox /\
                          slice_array (Mem.RetryOnStatusCodes ox) = Some a /\
                          slice_cap (Mem.RetryOnStatusCodes ox1) =
                            slice_cap (Mem.RetryOnStatusCodes ox))).
  { intros h1 E1 E2 E3. split.
    { split; intros l Hl.
      - rewrite E1. by apply Hx1.
      - rewrite E2. destruct (Hx2 l Hl) as (o & Ho & Hok). exists o. split; [done|].
        by apply (slice_ok_same h). }
    split; [intros l _; by rewrite E1|]. split; [intros l _; by rewrite E2|].
    split; [intros a xs Ha; left; by rewrite E3|].
    intros lx ox1 a Hlx Hox1 Ha. right. exists ox1. by rewrite <- E2. }
  destruct w as [k v|o|i v|v spare]; simpl.
  - (* SetHeader *)
    destruct (Headers x) as [l|] eqn:Hl; [|by apply Hsame].
    unfold store_header. split.
    { split; simpl.
      - intros l0 Hl0. assert (l0 = l) as -> by congruence.
        rewrite lookup_insert_eq. eauto.
      - intros l0 Hl0. destruct (Hx2 l0 Hl0) as (o & Ho & Hok). by exists o. }
    split; [intros l0 Hne; simpl; rewrite lookup_insert_ne; [done | congruence]|].
    split; [done|]. split; [intros a xs Ha; by left|].
    intros lx ox1 a Hlx Hox1 Ha. right. by exists ox1.
  - (* SetScalars *)
    destruct (RetryOptions x) as [l|] eqn:Hl; [|by apply Hsame].
    destruct (Hx2 l eq_refl) as (cur & Hcur & Hok). rewrite Hcur.
    unfold store_options. split.
    { split; simpl; [exact Hx1|].
      intros l0 Hl0. assert (l0 = l) as -> by congruence.
          rewrite lookup_insert_eq. eexists. split; [done|]. exact Hok. }
    split; [done|].
    split; [intros l0 Hne; simpl; rewrite lookup_insert_ne; [done | congruence]|].
    split; [intros a xs Ha; by left|].
    intros lx ox1 a [= <-] Hox1 Ha. simpl in Hox1. rewrite lookup_insert_eq in Hox1.
    injection Hox1 as <-. right. by exists cur.
  - (* SetCode *)
    destruct (RetryOptions x) as [l|] eqn:Hl; [|by apply Hsame].
    destruct (Hx2 l eq_refl) as (cur & Hcur & Hok). rewrite Hcur.
    unfold store_element.
    destruct (slice_array (Mem.RetryOnStatusCodes cur)) as [a|] eqn:Harr; [|by apply Hsame].
    destruct (Nat.ltb_spec i (slice_len (Mem.RetryOnStatusCodes cur))) as [Hi|Hi];
      [|by apply Hsame].
    pose proof Hok as [Hle Hs]. rewrite Harr in Hs. destruct Hs as (ys & Hys & Hlen).
    rewrite Hys. simpl.
    assert (Hup : forall a0 xs, arrays h !! a0 = Some xs ->
              exists xs', <[a := <[(slice_offset (Mem.RetryOnStatusCodes cur) + i)%nat := v]> ys]>
                            (arrays h) !! a0 = Some xs' /\ length xs' = length xs).
    { intros a0 xs Ha0. destruct (decide (a = a0)) as [<-|Hne].
      - rewrite lookup_insert_eq. eexists. split; [done|].
        rewrite length_insert. congruence.
      - rewrite lookup_insert_ne by done. by exists xs. }
    split.
    { split; simpl; [exact Hx1|].
      intros l0 Hl0. assert (l0 = l) as -> by congruence. exists cur. split; [done|].
      by apply (slice_ok_update h). }
    split; [done|]. split; [done|]. split.
    { intros a0 xs Ha0. simpl. destruct (decide (a = a0)) as [<-|Hne].
      - right. exists l, cur. eexists. split; [done|]. split; [done|]. split; [done|].
        split; [lia|]. rewrite lookup_insert_eq. split; [done|].
        rewrite length_insert. congruence.
      - left. by rewrite lookup_insert_ne. }
    intros lx ox1 a0 [= <-] Hox1 Ha0. right. by exists ox1.
  - (* AppendCode *)
    destruct (RetryOptions x) as [l|] eqn:Hl; [|by apply Hsame].
    destruct (Hx2 l eq_refl) as (cur & Hcur & Hok). rewrite Hcur.
    pose proof (elements_length h _ Hok) as Helen.
    unfold append.
    destruct (slice_array (Mem.RetryOnStatusCodes cur)) as [a|] eqn:Harr.
    + pose proof Hok as [Hle Hs]. rewrite Harr in Hs. destruct Hs as (ys & Hys & Hlen).
      destruct (Nat.ltb_spec (slice_len (Mem.RetryOnStatusCodes cur))
                             (slice_cap (Mem.RetryOnStatusCodes cur))) as [Hroom|Hfull].
      * (* within the capacity *)
        rewrite Hys. unfold store_options. simpl.
        set (ys' := <[(slice_offset (Mem.RetryOnStatusCodes cur) +
                       slice_len (Mem.RetryOnStatusCodes cur))%nat := v]> ys).
        assert (Hys' : length ys' = length ys) by apply length_insert.
        split.
        { split; simpl; [exact Hx1|].
          intros l0 Hl0. assert (l0 = l) as -> by congruence.
          rewrite lookup_insert_eq. eexists. split; [done|].
          split; simpl; [lia|]. exists ys'. rewrite lookup_insert_eq. split; [done | lia]. }
        split; [done|].
        split; [intros l0 Hne; simpl; rewrite lookup_insert_ne; [done | congruence]|].
        split.
        { intros a0 xs Ha0. destruct (decide (a = a0)) as [<-|Hne].
          - right. exists l, cur, ys'. split; [done|]. split; [done|]. split; [done|].
            split; [lia|]. rewrite lookup_insert_eq. split; [done | congruence].
          - left. by rewrite lookup_insert_ne. }
        intros lx ox1 a0 [= <-] Hox1 Ha0. rewrite lookup_insert_eq in Hox1.
        injection Hox1 as <-. simpl in Ha0. injection Ha0 as <-.
        right. by exists cur.
      * (* a new array *)
        unfold store_options. simpl.
        set (a' := fresh (dom (arrays h))).
        assert (Ha' : arrays h !! a' = None) by apply fresh_array_unused.
        split.
        { split; simpl; [exact Hx1|].
          intros l0 Hl0. assert (l0 = l) as -> by congruence.
          rewrite lookup_insert_eq. eexists. split; [done|].
          split; simpl; [lia|]. eexists. rewrite lookup_insert_eq. split; [done|].
          rewrite length_app. simpl. rewrite length_replicate. lia. }
        split; [done|].
        split; [intros l0 Hne; simpl; rewrite lookup_insert_ne; [done | congruence]|].
        split.
        { intros a0 xs Ha0. left. rewrite lookup_insert_ne; [done | congruence]. }
        intros lx ox1 a0 [= <-] Hox1 Ha0. rewrite lookup_insert_eq in Hox1.
        injection Hox1 as <-. simpl in Ha0. injection Ha0 as <-. by left.
    + unfold store_options. simpl.
      set (a' := fresh (dom (arrays h))).
      assert (Ha' : arrays h !! a' = None) by apply fresh_array_unused.
      split.
      { split; simpl; [exact Hx1|].
        intros l0 Hl0. assert (l0 = l) as -> by congruence.
          rewrite lookup_insert_eq. eexists. split; [done|].
        split; simpl; [lia|]. eexists. rewrite lookup_insert_eq. split; [done|].
        simpl. rewrite length_replicate. lia. }
      split; [done|].
      split; [intros l0 Hne; simpl; rewrite lookup_insert_ne; [done | congruence]|].
      split.
      { intros a0 xs Ha0. left. rewrite lookup_insert_ne; [done | congruence]. }
      intros lx ox1 a0 [= <-] Hox1 Ha0. rewrite lookup_insert_eq in Hox1.
      injection Hox1 as <-. simpl in Ha0. injection Ha0 as <-. by left.
Qed.

Lemma slice_write (ys : list Z) off len i v :
  (i < len)%nat -> (off + len <= length ys)%nat ->
  take len (drop off (<[(off + i)%nat := v]> ys)) = <[i := v]> (take len (drop off ys)).
Proof.
  intros Hi Hlen. rewrite drop_insert_ge by lia. rewrite take_insert_lt by lia.
  by replace (off + i - off)%nat with i by lia.
Qed.

Lemma slice_grow (ys : list Z) off len v :
  (off + len < length ys)%nat ->
  take (S len) (drop off (<[(off + len)%nat := v]> ys)) = take len (drop off ys) ++ [v].
Proof.
  intros Hlen. rewrite drop_insert_ge by lia.
  replace (off + len - off)%nat with len by lia.
  rewrite (take_S_r _ _ v).
  - by rewrite take_insert_ge.
  - apply list_lookup_insert_eq. rewrite length_drop. lia.
Qed.

Lemma separate_sym h x y : separate h x y -> separate h y x.
Proof.
  intros (S1 & S2 & S3). split; [|split].
  - intros l Hy Hx. exact (S1 l Hx Hy).
  - intros l Hy Hx. exact (S2 l Hx Hy).
  - intros ly lx oy ox a Hly Hoy Hlx Hox Hay Hax.
    destruct (S3 lx ly ox oy a Hlx Hox Hly Hoy Hax Hay). done.
Qed.

(** A write through [x] leaves a configuration separate from [x] as it is. *)
Lemma write_frame x y w h :
  allocated h x -> allocated h y -> separate h x y ->
  let h1 := apply_write x w h in
  allocated h1 x /\ allocated h1 y /\ separate h1 x y /\
  contents h1 y = contents h y /\ codes_room h1 y = codes_room h y.
Proof.
  intros Hx Hy (S1 & S2 & S3) h1.
  destruct (write_footprint x w h Hx) as (Hx' & Fh & Fo & Fa & Fs). fold h1 in Hx', Fh, Fo, Fa, Fs.
  destruct Hy as [Hy1 Hy2].
  assert (Hhd : forall l, Headers y = Some l -> header_maps h1 !! l = header_maps h !! l).
  { intros l Hl. apply Fh. intros Hxl. exact (S1 l Hxl Hl). }
  assert (Hop : forall l, RetryOptions y = Some l ->
                          retry_options h1 !! l = retry_options h !! l).
  { intros l Hl. apply Fo. intros Hxl. exact (S2 l Hxl Hl). }
  assert (Har : forall l o a, RetryOptions y = Some l -> retry_options h !! l = Some o ->
                  slice_array (Mem.RetryOnStatusCodes o) = Some a ->
                  arrays h1 !! a = arrays h !! a).
  { intros l o a Hl Ho Ha. destruct (Hy2 l Hl) as (o' & Ho' & [_ Hs]).
    assert (o' = o) as -> by congruence. rewrite Ha in Hs.
    destruct Hs as (xs & Hxs & _). rewrite Hxs.
    destruct (Fa a xs Hxs) as [Hsame|(lx & ox & xs' & Hlx & Hox & Hax & Hcap & _)];
      [exact Hsame|].
    destruct (S3 lx l ox o a Hlx Hox Hl Ho Hax Ha). lia. }
  assert (Hel : forall l o, RetryOptions y = Some l -> retry_options h !! l = Some o ->
                  elements h1 (Mem.RetryOnStatusCodes o) = elements h (Mem.RetryOnStatusCodes o)).
  { intros l o Hl Ho. unfold elements.
    destruct (slice_array (Mem.RetryOnStatusCodes o)) as [a|] eqn:Ha; [|done].
    by rewrite (Har l o a Hl Ho Ha). }
  split; [exact Hx'|]. split; [|split; [|split]].
  - split.
    + intros l Hl. rewrite (Hhd l Hl). by apply Hy1.
    + intros l Hl. destruct (Hy2 l Hl) as (o & Ho & Hok). exists o.
      rewrite (Hop l Hl). split; [done|]. destruct Hok as [Hle Hs]. split; [done|].
      destruct (slice_array (Mem.RetryOnStatusCodes o)) as [a|] eqn:Ha; [|done].
      by rewrite (Har l o a Hl Ho Ha).
  - split; [exact S1|]. split; [exact S2|].
    intros lx ly ox1 oy a Hlx Hox1 Hly Hoy Hax Hay.
    rewrite (Hop ly Hly) in Hoy.
    destruct (Fs lx ox1 a Hlx Hox1 Hax) as [Hnew|(ox & Hox & Hax0 & Hcap)].
    + destruct (Hy2 ly Hly) as (o' & Ho' & [_ Hs]).
      assert (o' = oy) as -> by congruence. rewrite Hay in Hs.
      destruct Hs as (xs & Hxs & _). congruence.
    + rewrite Hcap. exact (S3 lx ly ox oy a Hlx Hox Hly Hoy Hax0 Hay).
  - unfold contents. f_equal; [f_equal|].
    + unfold headers_at. destruct (Headers y) as [l|] eqn:Hl; [|done].
      by rewrite (Hhd l eq_refl).
    + unfold options_at. destruct (RetryOptions y) as [l|] eqn:Hl; [|done].
      rewrite (Hop l eq_refl). destruct (retry_options h !! l) as [o|] eqn:Ho; [|done].
      simpl. unfold read_options. by rewrite (Hel l o eq_refl Ho).
  - unfold codes_room. destruct (RetryOptions y) as [l|] eqn:Hl; [|done].
    by rewrite (Hop l eq_refl).
Qed.

(** What a write through [x] makes of what [x] says is a function of what
    [x] said, and of the length and capacity of its status codes: it does
    not depend on where in the heap the objects of [x] lie. *)
Lemma write_effect x w :
  exists (fh : gmap string string -> gmap string string)
         (fo : option Models.RetryOptions -> option Models.RetryOptions)
         (fr : option (nat * nat) -> option (nat * nat)),
  forall h, allocated h x ->
    headers_at (apply_write x w h) (Headers x) = fh (headers_at h (Headers x)) /\
    options_at (apply_write x w h) (RetryOptions x) = fo (options_at h (RetryOptions x)) /\
    codes_room (apply_write x w h) x = fr (codes_room h x).
Proof.
  assert (Hid : exists (fh : gmap string string -> gmap string string)
                       (fo : option Models.RetryOptions -> option Models.RetryOptions)
                       (fr : option (nat * nat) -> option (nat * nat)),
            forall h, allocated h x ->
              headers_at h (Headers x) = fh (headers_at h (Headers x)) /\
              options_at h (RetryOptions x) = fo (options_at h (RetryOptions x)) /\
              codes_room h x = fr (codes_room h x)).
  { by exists id, id, id. }
  destruct w as [k v|o|i v|v spare]; simpl.
  - (* SetHeader *)
    destruct (Headers x) as [l|] eqn:Hl; [|exact Hid].
    exists (fun m => <[k := v]> m), id, id. intros h _. split; [|done].
    unfold headers_at, store_header. simpl. by rewrite lookup_insert_eq.
  - (* SetScalars *)
    destruct (RetryOptions x) as [l|] eqn:Hl; [|exact Hid].
    exists id, (fun ro => (fun r => with_status_codes (Models.RetryOnStatusCodes r) o) <$> ro), id.
    intros h [_ Hx2]. destruct (Hx2 l Hl) as (cur & Hcur & Hok). rewrite Hcur.
    unfold store_options, codes_room, options_at. rewrite Hl. simpl.
    rewrite lookup_insert_eq, Hcur. done.
  - (* SetCode *)
    destruct (RetryOptions x) as [l|] eqn:Hl; [|exact Hid].
    exists id,
      (fun ro => (fun r => with_status_codes (<[i := v]> (Models.RetryOnStatusCodes r)) r) <$> ro),
      id.
    intros h [_ Hx2]. destruct (Hx2 l Hl) as (cur & Hcur & Hok). rewrite Hcur.
    pose proof (elements_length h _ Hok) as Helen.
    unfold store_element, codes_room, options_at. rewrite Hl.
    destruct (slice_array (Mem.RetryOnStatusCodes cur)) as [a|] eqn:Harr.
    + destruct (Nat.ltb_spec i (slice_len (Mem.RetryOnStatusCodes cur))) as [Hi|Hi].
      * pose proof Hok as [Hle Hs]. rewrite Harr in Hs. destruct Hs as (ys & Hys & Hlen).
        simpl. rewrite Hcur, Hys. simpl. split; [done|]. split; [|done].
        unfold read_options, with_status_codes, elements. simpl.
        rewrite Harr. simpl. rewrite lookup_insert_eq, Hys. simpl.
        rewrite slice_write by lia. done.
      * rewrite Hcur. simpl. split; [done|]. split; [|done].
        unfold read_options, with_status_codes. simpl.
        rewrite list_insert_ge by lia. done.
    + rewrite Hcur. simpl. split; [done|]. split; [|done].
      unfold read_options, with_status_codes, elements. simpl. rewrite Harr. done.
  - (* AppendCode *)
    destruct (RetryOptions x) as [l|] eqn:Hl; [|exact Hid].
    exists id,
      (fun ro => (fun r => with_status_codes (Models.RetryOnStatusCodes r ++ [v]) r) <$> ro),
      (fun rm => (fun lc => (S (fst lc),
                             if (fst lc <? snd lc)%nat then snd lc
                             else (S (fst lc) + spare)%nat)) <$> rm).
    intros h [_ Hx2]. destruct (Hx2 l Hl) as (cur & Hcur & Hok). rewrite Hcur.
    pose proof (elements_length h _ Hok) as Helen.
    unfold append, codes_room, options_at. rewrite Hl.
    destruct (slice_array (Mem.RetryOnStatusCodes cur)) as [a|] eqn:Harr.
    + pose proof Hok as [Hle Hs]. rewrite Harr in Hs. destruct Hs as (ys & Hys & Hlen).
      destruct (Nat.ltb_spec (slice_len (Mem.RetryOnStatusCodes cur))
                             (slice_cap (Mem.RetryOnStatusCodes cur))) as [Hroom|Hfull].
      * unfold store_options. simpl. rewrite lookup_insert_eq, Hcur, Hys. simpl.
        split; [done|]. split; [|by rewrite (proj2 (Nat.ltb_lt _ _) Hroom)].
        unfold read_options, with_status_codes, elements. simpl.
        rewrite Harr. simpl. rewrite lookup_insert_eq, Hys. simpl.
        rewrite slice_grow by lia. done.
      * unfold store_options. simpl. rewrite lookup_insert_eq, Hcur. simpl.
        split; [done|]. split; [|by rewrite (proj2 (Nat.ltb_ge _ _) Hfull)].
        unfold read_options, with_status_codes. simpl. f_equal.
        unfold elements at 1. simpl. rewrite lookup_insert_eq. simpl.
        rewrite drop_0. rewrite (cons_middle v), (assoc_L (++)).
        rewrite take_app_length'; [done|]. rewrite length_app. simpl. lia.
    + pose proof Hok as [Hle Hs]. rewrite Harr in Hs.
      unfold store_options. simpl. rewrite lookup_insert_eq, Hcur. simpl.
      split; [done|]. split.
      * unfold read_options, with_status_codes, elements. simpl.
        rewrite Harr. simpl. rewrite lookup_insert_eq. done.
      * f_equal. f_equal; [lia|].
        destruct (Nat.ltb_spec (slice_len (Mem.RetryOnStatusCodes cur))
                               (slice_cap (Mem.RetryOnStatusCodes cur))); lia.
Qed.

Lemma write_allocated x w h : allocated h x -> allocated (apply_write x w h) x.
Proof. intros H. exact (proj1 (write_footprint x w h H)). Qed.

(** The same write through [x] in two heaps in which [x] says the same. *)
Lemma write_view x w hA hB :
  allocated hA x -> allocated hB x ->
  contents hA x = contents hB x -> codes_room hA x = codes_room hB x ->
  contents (apply_write x w hA) x = contents (apply_write x w hB) x /\
  codes_room (apply_write x w hA) x = codes_room (apply_write x w hB) x.
Proof.
  intros HA HB Hc Hr. destruct (write_effect x w) as (fh & fo & fr & Hf).
  destruct (Hf hA HA) as (A1 & A2 & A3). destruct (Hf hB HB) as (B1 & B2 & B3).
  apply contents_eq_inv in Hc as (_ & _ & Hh & _ & Ho).
  split; [|by rewrite A3, B3, Hr].
  unfold contents. by rewrite A1, A2, B1, B2, Hh, Ho.
Qed.

(** Two separate configurations, written through in any order: each says
    what it would say had only its own writes been made. *)
Lemma interleaved_writes x y ws : forall hA hX hY,
  allocated hA x -> allocated hA y -> separate hA x y ->
  allocated hX x -> contents hA x = contents hX x -> codes_room hA x = codes_room hX x ->
  allocated hY y -> contents hA y = contents hY y -> codes_room hA y = codes_room hY y ->
  contents (apply_both x y ws hA) x = contents (apply_writes x (own_writes true ws) hX) x /\
  contents (apply_both x y ws hA) y = contents (apply_writes y (own_writes false ws) hY) y.
Proof.
  induction ws as [|[b w] ws IH]; intros hA hX hY HAx HAy Hsep HX HcX HrX HY HcY HrY.
  - done.
  - destruct b.
    + destruct (write_frame x y w hA HAx HAy Hsep) as (HAx' & HAy' & Hsep' & Hcy & Hry).
      destruct (write_view x w hA hX HAx HX HcX HrX) as (Hcx' & Hrx').
      apply (IH (apply_write x w hA) (apply_write x w hX) hY); try done.
      * by apply write_allocated.
      * congruence.
      * congruence.
    + destruct (write_frame y x w hA HAy HAx (separate_sym _ _ _ Hsep))
        as (HAy' & HAx' & Hsep' & Hcx & Hrx).
      destruct (write_view y w hA hY HAy HY HcY HrY) as (Hcy' & Hry').
      apply (IH (apply_write y w hA) hX (apply_write y w hY)); try done.
      * by apply separate_sym.
      * congruence.
      * congruence.
      * by apply write_allocated.
Qed.

(** Unless the status codes of the original have spare capacity, the copy
    is separate from the original. *)
Lemma Clone_separate c h :
  allocated h c -> has_spare_capacity h c = false ->
  separate (snd (Clone c h)) c (fst (Clone c h)).
Proof.
  intros Hc Hspare.
  destruct (Clone_spec c h Hc)
    as (Hext & Halloc & _ & (lm & Hlm & Hfresh) & Hro & _ & Hcodes).
  destruct Hc as [Hc1 Hc2]. destruct Hext as (_ & Heo & _).
  split; [|split].
  - intros l Hl. rewrite Hlm. intros [= ->]. destruct (Hc1 l Hl) as [m Hm]. congruence.
  - intros l Hl Hl'. destruct (Hc2 l Hl) as (o & Ho & _). rewrite (Hro l Hl') in Ho. done.
  - intros lx ly ox oy a Hlx Hox Hly Hoy Hax Hay.
    destruct (Hc2 lx Hlx) as (o & Ho & [Hle Hs]).
    assert (ox = o) as -> by (rewrite (Heo lx o Ho) in Hox; congruence).
    destruct (Hcodes lx o Hlx Ho) as (l' & o' & Hl' & Ho' & Hcase).
    assert (l' = ly) as -> by congruence. assert (o' = oy) as -> by congruence.
    destruct (Nat.ltb_spec 0 (slice_len (Mem.RetryOnStatusCodes o))) as [Hpos|Hzero].
    + destruct Hcase as (a' & Ha' & Hnew). assert (a' = a) as -> by congruence.
      rewrite Hax in Hs. destruct Hs as (xs & Hxs & _). congruence.
    + subst oy. unfold has_spare_capacity, codes_room in Hspare.
      rewrite Hlx, Ho in Hspare. simpl in Hspare.
      apply andb_false_iff in Hspare as [Hs1|Hs2].
      * apply Nat.eqb_neq in Hs1. lia.
      * apply Nat.ltb_ge in Hs2. lia.
Qed.

(** An append within the capacity, spelled out. *)
Lemma append_in_place x l o a ys v spare h :
  RetryOptions x = Some l -> retry_options h !! l = Some o ->
  slice_array (Mem.RetryOnStatusCodes o) = Some a -> arrays h !! a = Some ys ->
  (slice_len (Mem.RetryOnStatusCodes o) < slice_cap (Mem.RetryOnStatusCodes o))%nat ->
  apply_write x (AppendCode v spare) h =
    mkHeap (header_maps h)
           (<[l := Mem.set_RetryOnStatusCodes
                     (mkSlice (Some a) (slice_offset (Mem.RetryOnStatusCodes o))
                              (S (slice_len (Mem.RetryOnStatusCodes o)))
                              (slice_cap (Mem.RetryOnStatusCodes o))) o]> (retry_options h))
           (<[a := <[(slice_offset (Mem.RetryOnStatusCodes o) +
                      slice_len (Mem.RetryOnStatusCodes o))%nat := v]> ys]> (arrays h)).
Proof.
  intros Hl Ho Ha Hys Hroom. simpl. rewrite Hl, Ho. unfold append.
  rewrite Ha, Hys, (proj2 (Nat.ltb_lt _ _) Hroom). reflexivity.
Qed.

(** X12. [Clone] copies the header map and the [RetryOptions] struct, and
    the status codes when there are any: the copy says what the original
    says, and whatever is then written through the two, in any order
    (header entries, option fields, status-code elements, appended status
    codes), each says what it would say had only its own writes been made.
    The exception is a status-code slice that is empty but has capacity:
    [Clone] leaves it in the copy as it is, so the two share the backing
    array, and a status code appended through the copy is overwritten by
    the one appended through the original afterwards. *)
Theorem Clone_shares_only_spare_capacity c h :
  allocated h c ->
  let c' := fst (Clone c h) in
  let h' := snd (Clone c h) in
  contents h' c' = contents h c /\
  contents h' c = contents h c /\
  (has_spare_capacity h c = false ->
   forall ws,
     contents (apply_both c c' ws h') c =
       contents (apply_writes c (own_writes true ws) h') c /\
     contents (apply_both c c' ws h') c' =
       contents (apply_writes c' (own_writes false ws) h') c') /\
  (has_spare_capacity h c = true ->
   forall v w n1 n2,
     Models.RetryOnStatusCodes <$>
       options_at (apply_writes c' [AppendCode v n1] h') (RetryOptions c') = Some [v] /\
     Models.RetryOnStatusCodes <$>
       options_at (apply_both c c' [(false, AppendCode v n1); (true, AppendCode w n2)] h')
                  (RetryOptions c') = Some [w]).
Proof.
  intros Hc c' h'.
  destruct (Clone_spec c h Hc)
    as (Hext & Halloc & Hcont & _ & Hro & _ & Hcodes).
  fold c' h' in Hext, Halloc, Hcont, Hro, Hcodes.
  destruct (extends_contents h h' c Hext Hc) as (Hsame & _ & Hc').
  split; [exact Hcont|]. split; [exact Hsame|]. split.
  - intros Hspare ws.
    apply interleaved_writes; try done. by apply Clone_separate.
  - intros Hspare v w n1 n2.
    unfold has_spare_capacity, codes_room in Hspare.
    destruct (RetryOptions c) as [l|] eqn:Hl; [|done].
    destruct Hc as [_ Hc2]. destruct (Hc2 l Hl) as (o & Ho & [Hle Hs]).
    rewrite Ho in Hspare. simpl in Hspare.
    apply andb_true_iff in Hspare as [Hlen Hcap].
    apply Nat.eqb_eq in Hlen. apply Nat.ltb_lt in Hcap.
    destruct (slice_array (Mem.RetryOnStatusCodes o)) as [a|] eqn:Ha; [|lia].
    destruct Hs as (ys & Hys & Hbound).
    destruct (Hcodes l o eq_refl Ho) as (l' & o' & Hl' & Ho' & Hcase).
    rewrite Hlen in Hcase. simpl in Hcase. subst o'.
    assert (Hne : l' <> l).
    { intros ->. rewrite (Hro l Hl') in Ho. done. }
    destruct Hext as (_ & Heo & Hea).
    pose proof (Heo l o Ho) as Ho1. pose proof (Hea a ys Hys) as Hys1.
    change (apply_writes c' [AppendCode v n1] h')
      with (apply_write c' (AppendCode v n1) h').
    change (apply_both c c' [(false, AppendCode v n1); (true, AppendCode w n2)] h')
      with (apply_write c (AppendCode w n2) (apply_write c' (AppendCode v n1) h')).
    rewrite (append_in_place c' l' o a ys v n1 h' Hl' Ho' Ha Hys1) by lia.
    rewrite Hl'. split.
    + unfold options_at. simpl. rewrite lookup_insert_eq. simpl.
      unfold elements. simpl. rewrite lookup_insert_eq. simpl.
      rewrite Hlen, slice_grow by lia. by rewrite take_0.
    + set (hB := mkHeap _ _ _).
      assert (HoB : retry_options hB !! l = Some o).
      { simpl. by rewrite lookup_insert_ne. }
      assert (HysB : arrays hB !! a =
                Some (<[(slice_offset (Mem.RetryOnStatusCodes o) +
                         slice_len (Mem.RetryOnStatusCodes o))%nat := v]> ys)).
      { simpl. by rewrite lookup_insert_eq. }
      rewrite (append_in_place c l o a _ w n2 hB Hl HoB Ha HysB) by lia.
      unfold options_at. simpl. rewrite lookup_insert_ne by done.
      rewrite lookup_insert_eq. simpl.
      unfold elements. simpl. rewrite lookup_insert_eq. simpl.
      rewrite Hlen, slice_grow by (rewrite length_insert; lia). by rewrite take_0.
Qed.

(** The original has [make([]int, 0, 4)] for its status codes: 429 appended
    through the copy reads as 500 once 500 is appended through the
    original. The second heap holds the status codes 429 and 503 instead. *)
Lemma Clone_shares_only_spare_capacity_witness :
  let c := mkConfig "https://api.example" (30 * Second) (Some 1%positive)
                    (Some DefaultStatusValidator) (Some 1%positive) in
  let headers : gmap loc (gmap string string) :=
    {[ 1%positive := {[ "Accept"%string := "application/json"%string ]} ]} in
  let h := mkHeap headers
             {[ 1%positive := Mem.with_codes (mkSlice (Some 1%positive) 0 0 4)
                                             Models.NewRetryOptions ]}
             {[ 1%positive := [0; 0; 0; 0] ]} in
  let h0 := mkHeap headers
              {[ 1%positive := Mem.with_codes (mkSlice (Some 1%positive) 0 2 2)
                                              Models.NewRetryOptions ]}
              {[ 1%positive := [429; 503] ]} in
  let ws := [(false, AppendCode 500 0); (true, SetCode 0 408); (true, AppendCode 404 1);
             (false, SetHeader "Accept" "text/plain")] in
  allocated h c /\ has_spare_capacity h c = true /\
  Models.RetryOnStatusCodes <$>
    options_at (apply_both c (fst (Clone c h))
                  [(false, AppendCode 429 0); (true, AppendCode 500 0)] (snd (Clone c h)))
               (RetryOptions (fst (Clone c h))) = Some [500] /\
  allocated h0 c /\ has_spare_capacity h0 c = false /\
  contents (apply_both c (fst (Clone c h0)) ws (snd (Clone c h0))) (fst (Clone c h0)) =
    contents (apply_writes (fst (Clone c h0)) (own_writes false ws) (snd (Clone c h0)))
             (fst (Clone c h0)).
Proof.
  intros c headers h h0 ws.
  assert (Hc : allocated h c).
  { split; intros l [= <-]; [by eexists|].
    eexists. split; [reflexivity|]. split; simpl; [lia|].
    eexists. split; [reflexivity|]. simpl. lia. }
  assert (Hc0 : allocated h0 c).
  { split; intros l [= <-]; [by eexists|].
    eexists. split; [reflexivity|]. split; simpl; [lia|].
    eexists. split; [reflexivity|]. simpl. lia. }
  split; [exact Hc|]. split; [reflexivity|].
  split; [exact (proj2 (proj2 (proj2 (proj2 (Clone_shares_only_spare_capacity c h Hc)))
                         eq_refl 429 500 0%nat 0%nat))|].
  split; [exact Hc0|]. split; [reflexivity|].
  exact (proj2 (proj1 (proj2 (proj2 (Clone_shares_only_spare_capacity c h0 Hc0)))
                  eq_refl ws)).
Defined.

(** What [Merge] does, in one statement. *)
Lemma Merge_spec c other h :
  allocated h c -> allocated h other ->
  let m := fst (Merge c other h) in
  let h' := snd (Merge c other h) in
  extends h h' /\ allocated h' m /\
  BaseURL m = (if String.eqb (BaseURL other) "" then BaseURL c else BaseURL other) /\
  Timeout m = (if Timeout other =? 0 then Timeout c else Timeout other) /\
  headers_at h' (Headers m) = headers_at h (Headers other) ∪ headers_at h (Headers c) /\
  StatusValidator m = match StatusValidator other with
                      | Some f => Some f
                      | None => StatusValidator c
                      end /\
  options_at h' (RetryOptions m) = match RetryOptions other with
                                   | Some l => options_at h (Some l)
                                   | None => options_at h (RetryOptions c)
                                   end /\
  (exists l, Headers m = Some l /\ header_maps h !! l = None) /\
  (RetryOptions m = match RetryOptions other with
                    | Some l => Some l
                    | None => RetryOptions (fst (Clone c h))
                    end) /\
  retry_options h' = retry_options (snd (Clone c h)) /\
  arrays h' = arrays (snd (Clone c h)).
Proof.
  intros Hc Hother.
  destruct (Clone_spec c h Hc)
    as (Hext & Halloc & Hcont & (lm & Hlm & Hfresh) & Hro & Hnil & _).
  unfold Merge. destruct (Clone c h) as [merged h1]. simpl in *.
  apply contents_eq_inv in Hcont as (Hb & Ht & Hh & Hv & Ho).
  destruct (extends_contents h h1 other Hext Hother) as (Hco & _ & Hao).
  apply contents_eq_inv in Hco as (_ & _ & Hho & _ & Hoo).
  rewrite Hlm. simpl. rewrite copy_entries_union.
  destruct Hext as (Hem & Heo & Hea). destruct Halloc as [Ham Hap].
  assert (Hlm1 : default ∅ (header_maps h1 !! lm) = headers_at h (Headers c)).
  { rewrite <- Hh, Hlm. reflexivity. }
  set (h2 := mkHeap _ (retry_options h1) (arrays h1)).
  assert (Hsame : forall p, options_at h2 p = options_at h1 p).
  { intros p. by apply options_at_same. }
  split.
  { split; [|split]; simpl; [|exact Heo|exact Hea]. intros l x Hl.
    rewrite lookup_insert_ne; [by apply Hem|]. intros <-. congruence. }
  split.
  { split; simpl.
    - intros l [= <-]. rewrite lookup_insert_eq. eauto.
    - destruct Hao as [_ Hop]. destruct (RetryOptions other) as [lo|] eqn:Hro2.
      + intros l [= <-]. destruct (Hop lo eq_refl) as (o & Hlo & Hok).
        exists o. split; [done|]. by apply (slice_ok_same h1).
      + intros l Hl. destruct (Hap l Hl) as (o & Hlo & Hok).
        exists o. split; [done|]. by apply (slice_ok_same h1). }
  split; [by rewrite Hb|]. split; [by rewrite Ht|].
  split; [rewrite lookup_insert_eq; simpl; by rewrite Hho, Hlm1|].
  split; [by rewrite Hv|].
  split.
  { rewrite Hsame. destruct (RetryOptions other) as [lo|] eqn:Hro2; [exact Hoo | exact Ho]. }
  split; [exists lm; split; [done | exact Hfresh]|].
  split; [reflexivity|]. split; reflexivity.
Qed.

(** A new configuration in an empty heap is allocated. *)
Lemma NewConfig_allocated :
  allocated (snd (NewConfig empty_heap)) (fst (NewConfig empty_heap)).
Proof.
  split; simpl; [|discriminate].
  intros l [= <-]. rewrite lookup_insert_eq. eauto.
Qed.

(** X13. [Merge] gives precedence to [other] wherever [other] says
    something: its base URL unless empty, its timeout unless zero, its status
    validator and retry options unless nil, and for the headers the union of
    both maps in which a key present in both carries the value of [other].
    Neither [c] nor [other] is changed. *)
Theorem Merge_prefers_other c other h :
  allocated h c -> allocated h other ->
  let m := fst (Merge c other h) in
  let h' := snd (Merge c other h) in
  BaseURL m = (if String.eqb (BaseURL other) "" then BaseURL c else BaseURL other) /\
  Timeout m = (if Timeout other =? 0 then Timeout c else Timeout other) /\
  (forall k,
     headers_at h' (Headers m) !! k =
       match headers_at h (Headers other) !! k with
       | Some v => Some v
       | None => headers_at h (Headers c) !! k
       end) /\
  StatusValidator m = match StatusValidator other with
                      | Some f => Some f
                      | None => StatusValidator c
                      end /\
  options_at h' (RetryOptions m) = match RetryOptions other with
                                   | Some l => options_at h (Some l)
                                   | None => options_at h (RetryOptions c)
                                   end /\
  contents h' c = contents h c /\
  contents h' other = contents h other.
Proof.
  intros Hc Hother m h'.
  destruct (Merge_spec c other h Hc Hother)
    as (Hext & _ & Hb & Ht & Hh & Hv & Ho & _).
  fold m h' in Hext, Hb, Ht, Hh, Hv, Ho.
  split; [exact Hb|]. split; [exact Ht|]. split.
  { intros k. rewrite Hh, lookup_union.
    destruct (headers_at h (Headers other) !! k), (headers_at h (Headers c) !! k); done. }
  split; [exact Hv|]. split; [exact Ho|].
  split; [exact (proj1 (extends_contents h h' c Hext Hc))
         | exact (proj1 (extends_contents h h' other Hext Hother))].
Qed.

Lemma Merge_prefers_other_witness :
  let c := fst (NewConfig empty_heap) in
  let h := snd (NewConfig empty_heap) in
  let other := mkConfig "https://b.example" 0 None None None in
  allocated h c /\ allocated h other /\
  BaseURL (fst (Merge c other h)) = "https://b.example"%string /\
  Timeout (fst (Merge c other h)) = 30 * Second.
Proof.
  intros c h other.
  assert (Ho : allocated h other) by (split; discriminate).
  split; [exact NewConfig_allocated|]. split; [exact Ho|].
  destruct (Merge_prefers_other c other h NewConfig_allocated Ho) as (Hb & Ht & _).
  split; [exact Hb | exact Ht].
Defined.

(** X14. [Merge] shares the retry options of [other] and copies those of
    its receiver. When [other] has retry options, the merged configuration
    holds the very same pointer, so option fields assigned afterwards
    through [other] are what the merged configuration says. When it has
    none, the merged configuration holds the copy that [Clone] makes of the
    receiver's: unless the receiver's status codes have spare capacity,
    whatever is then written through the receiver and the merged
    configuration, in any order, each says what it would say had only its
    own writes been made. The header map is never shared with either. *)
Theorem Merge_shares_retry_options_of_other c other h :
  allocated h c -> allocated h other ->
  let m := fst (Merge c other h) in
  let h' := snd (Merge c other h) in
  (forall l, RetryOptions other = Some l ->
     RetryOptions m = Some l /\
     forall o,
       options_at (apply_write other (SetScalars o) h') (RetryOptions m) =
         (fun r => with_status_codes (Models.RetryOnStatusCodes r) o)
           <$> options_at h (RetryOptions other)) /\
  (RetryOptions other = None -> has_spare_capacity h c = false ->
   forall ws,
     contents (apply_both c m ws h') c =
       contents (apply_writes c (own_writes true ws) h') c /\
     contents (apply_both c m ws h') m =
       contents (apply_writes m (own_writes false ws) h') m) /\
  Headers m <> Headers c /\ Headers m <> Headers other.
Proof.
  intros Hc Hother m h'.
  destruct (Merge_spec c other h Hc Hother)
    as (Hext & Halloc & _ & _ & _ & _ & Ho & (lm & Hlm & Hfresh) & Hptr & Hheap & _).
  fold m h' in Hext, Halloc, Ho, Hlm, Hptr, Hheap.
  destruct (extends_contents h h' c Hext Hc) as (_ & _ & Hc').
  destruct (extends_contents h h' other Hext Hother) as (Hoc & _ & Hother').
  split; [|split; [|split]].
  - intros l Hl. rewrite Hl in Hptr. split; [exact Hptr|]. intros o.
    apply contents_eq_inv in Hoc as (_ & _ & _ & _ & Hoo).
    rewrite <- Hoo, Hptr, Hl. simpl. rewrite Hl.
    destruct Hother' as [_ Ho2]. destruct (Ho2 l Hl) as (cur & Hcur & _).
    rewrite Hcur. unfold store_options. simpl. rewrite lookup_insert_eq. done.
  - intros Hnone Hspare ws. rewrite Hnone in Hptr.
    destruct (Clone_separate c h Hc Hspare) as (S1 & S2 & S3).
    apply interleaved_writes; try done.
    split; [|split].
    + intros l Hl. rewrite Hlm. intros [= ->].
      destruct Hc as [Hc1 _]. destruct (Hc1 l Hl) as [x Hx]. congruence.
    + rewrite Hptr. exact S2.
    + rewrite Hptr, Hheap. exact S3.
  - rewrite Hlm. intros Heq. destruct Hc as [Hc1 _].
    destruct (Hc1 lm (eq_sym Heq)) as [x Hx]. congruence.
  - rewrite Hlm. intros Heq. destruct Hother as [Ho1 _].
    destruct (Ho1 lm (eq_sym Heq)) as [x Hx]. congruence.
Qed.

(** The receiver retries 429; [other] points to retry options of its own,
    [plain] has none. *)
Lemma Merge_shares_retry_options_of_other_witness :
  let c := mkConfig "" 0 (Some 1%positive) None (Some 1%positive) in
  let other := mkConfig "" 0 None None (Some 2%positive) in
  let plain := mkConfig "https://b.example" 0 None None None in
  let h := mkHeap {[ 1%positive := ∅ ]}
             {[ 1%positive := Mem.with_codes (mkSlice (Some 1%positive) 0 1 1)
                                             Models.NewRetryOptions;
                2%positive := Mem.with_codes (mkSlice None 0 0 0)
                                             Models.NewRetryOptions ]}
             {[ 1%positive := [429] ]} in
  let ws := [(true, AppendCode 503 0); (false, SetCode 0 408); (true, SetCode 0 404)] in
  allocated h c /\ allocated h other /\ allocated h plain /\
  RetryOptions plain = None /\ has_spare_capacity h c = false /\
  RetryOptions (fst (Merge c other h)) = Some 2%positive /\
  contents (apply_both c (fst (Merge c plain h)) ws (snd (Merge c plain h)))
           (fst (Merge c plain h)) =
    contents (apply_writes (fst (Merge c plain h)) (own_writes false ws)
                           (snd (Merge c plain h)))
             (fst (Merge c plain h)).
Proof.
  intros c other plain h ws.
  assert (Hc : allocated h c).
  { split; intros l [= <-]; [by eexists|].
    eexists. split; [reflexivity|]. split; simpl; [lia|].
    eexists. split; [reflexivity|]. simpl. lia. }
  assert (Hother : allocated h other).
  { split; [discriminate|]. intros l [= <-].
    eexists. split; [reflexivity|]. split; simpl; [lia | reflexivity]. }
  assert (Hplain : allocated h plain) by (split; discriminate).
  split; [exact Hc|]. split; [exact Hother|]. split; [exact Hplain|].
  split; [reflexivity|]. split; [reflexivity|].
  split.
  - exact (proj1 (proj1 (Merge_shares_retry_options_of_other c other h Hc Hother)
                    2%positive eq_refl)).
  - exact (proj2 (proj1 (proj2 (Merge_shares_retry_options_of_other c plain h Hc Hplain))
                    eq_refl eq_refl ws)).
Defined.

(** X15. Merging the zero configuration changes nothing: [c.Merge(&Config{})]
    is [c.Clone()], the same configuration in the same heap. *)
Theorem Merge_zero_is_Clone c h :
  Merge c zeroConfig h = Clone c h.
Proof.
  unfold Merge. destruct (Clone c h) as [merged h1] eqn:Hclone. simpl.
  assert (Hh : exists l, Headers merged = Some l /\
                         is_Some (header_maps h1 !! l)).
  { unfold Clone, new_map in Hclone.
    set (lh := fresh (dom (header_maps h))) in *.
    set (h0 := mkHeap _ (retry_options h) (arrays h)) in *.
    assert (H0 : header_maps h0 !! lh = Some (copy_entries (headers_at h (Headers c)) ∅)).
    { simpl. apply lookup_insert_eq. }
    clearbody h0.
    destruct (RetryOptions c) as [l|].
    - destruct (retry_options h0 !! l) as [o|].
      + cbv zeta in Hclone.
        destruct (0 <? slice_len (Mem.RetryOnStatusCodes o))%nat.
        * unfold make_slice, copy_slice, new_options in Hclone. simpl in Hclone.
          injection Hclone as <- <-. simpl. eauto.
        * unfold new_options in Hclone. simpl in Hclone.
          injection Hclone as <- <-. simpl. eauto.
      + injection Hclone as <- <-. simpl. eauto.
    - injection Hclone as <- <-. simpl. eauto. }
  destruct Hh as (l & Hl & [x Hx]). rewrite Hl. simpl. rewrite Hx. simpl.
  rewrite copy_entries_union, (left_id_L ∅ (∪)), (insert_id _ _ _ Hx).
  destruct merged, h1. simpl in *. by rewrite Hl.
Qed.

Lemma tuple5_inv {A B C D E} (a1 a2 : A) (b1 b2 : B) (c1 c2 : C) (d1 d2 : D) (e1 e2 : E) :
  (a1, b1, c1, d1, e1) = (a2, b2, c2, d2, e2) ->
  a1 = a2 /\ b1 = b2 /\ c1 = c2 /\ d1 = d2 /\ e1 = e2.
Proof. intros H. by simplify_eq. Qed.

(** The contents of a merged configuration, from those of its parts. *)
Lemma Merge_contents c other h :
  allocated h c -> allocated h other ->
  contents (snd (Merge c other h)) (fst (Merge c other h)) =
    (if String.eqb (BaseURL other) "" then BaseURL c else BaseURL other,
     if Timeout other =? 0 then Timeout c else Timeout other,
     headers_at h (Headers other) ∪ headers_at h (Headers c),
     match StatusValidator other with
     | Some f => Some f
     | None => StatusValidator c
     end,
     match options_at h (RetryOptions other) with
     | Some o => Some o
     | None => options_at h (RetryOptions c)
     end).
Proof.
  intros Hc Hother.
  destruct (Merge_spec c other h Hc Hother)
    as (_ & _ & Hb & Ht & Hh & Hv & Ho & _).
  unfold contents. rewrite Hb, Ht, Hh, Hv, Ho.
  do 4 f_equal. destruct Hother as [_ Ho2].
  destruct (RetryOptions other) as [l|]; [|done].
  destruct (Ho2 l eq_refl) as (o & Hl & _). simpl. by rewrite Hl.
Qed.

(** X16. Merging is associative in what the result says:
    [c.Merge(a).Merge(b)] and [c.Merge(a.Merge(b))] have the same base URL,
    timeout, headers, status validator and retry options. *)
Theorem Merge_is_associative c a b h :
  allocated h c -> allocated h a -> allocated h b ->
  let ca := Merge c a h in
  let left := Merge (fst ca) b (snd ca) in
  let ab := Merge a b h in
  let right := Merge c (fst ab) (snd ab) in
  contents (snd left) (fst left) = contents (snd right) (fst right).
Proof.
  intros Hc Ha Hb ca left ab right.
  destruct (Merge_spec c a h Hc Ha) as (Hext1 & Halloc1 & _).
  destruct (Merge_spec a b h Ha Hb) as (Hext2 & Halloc2 & _).
  fold ca in Hext1, Halloc1. fold ab in Hext2, Halloc2.
  destruct (extends_contents h (snd ca) b Hext1 Hb) as (Hb1 & _ & Hballoc).
  destruct (extends_contents h (snd ab) c Hext2 Hc) as (Hc2 & _ & Hcalloc).
  pose proof (Merge_contents c a h Hc Ha) as Hca. fold ca in Hca.
  pose proof (Merge_contents a b h Ha Hb) as Hab. fold ab in Hab.
  pose proof (Merge_contents (fst ca) b (snd ca) Halloc1 Hballoc) as Hl.
  pose proof (Merge_contents c (fst ab) (snd ab) Hcalloc Halloc2) as Hr.
  fold left in Hl. fold right in Hr. rewrite Hl, Hr.
  apply contents_eq_inv in Hb1 as (_ & _ & Hbh & _ & Hbo).
  apply contents_eq_inv in Hc2 as (_ & _ & Hch & _ & Hco).
  unfold contents in Hca, Hab.
  apply tuple5_inv in Hca as (Hca1 & Hca2 & Hca3 & Hca4 & Hca5).
  apply tuple5_inv in Hab as (Hab1 & Hab2 & Hab3 & Hab4 & Hab5).
  rewrite Hbh, Hbo, Hch, Hco.
  rewrite Hca1, Hca2, Hca3, Hca4, Hca5, Hab1, Hab2, Hab3, Hab4, Hab5.
  f_equal; [f_equal; [f_equal; [f_equal|]|]|].
  - destruct (String.eqb (BaseURL b) "") eqn:Eb, (String.eqb (BaseURL a) "") eqn:Ea;
      rewrite ?Eb, ?Ea; reflexivity.
  - destruct (Timeout b =? 0) eqn:Eb, (Timeout a =? 0) eqn:Ea;
      rewrite ?Eb, ?Ea; reflexivity.
  - by rewrite (assoc_L (∪)).
  - destruct (StatusValidator b), (StatusValidator a); reflexivity.
  - destruct (options_at h (RetryOptions b)), (options_at h (RetryOptions a)); reflexivity.
Qed.

Lemma Merge_is_associative_witness :
  let c := fst (NewConfig empty_heap) in
  let h := snd (NewConfig empty_heap) in
  let a := mkConfig "https://a.example" 0 None None None in
  let b := mkConfig "" (5 * Second) None None None in
  allocated h c /\ allocated h a /\ allocated h b /\
  contents (snd (Merge (fst (Merge c a h)) b (snd (Merge c a h))))
           (fst (Merge (fst (Merge c a h)) b (snd (Merge c a h))))
  = contents (snd (Merge c (fst (Merge a b h)) (snd (Merge a b h))))
             (fst (Merge c (fst (Merge a b h)) (snd (Merge a b h)))).
Proof.
  intros c h a b.
  assert (Ha : allocated h a) by (split; discriminate).
  assert (Hb : allocated h b) by (split; discriminate).
  split; [exact NewConfig_allocated|]. split; [exact Ha|]. split; [exact Hb|].
  exact (Merge_is_associative c a b h NewConfig_allocated Ha Hb).
Defined.

End ConfigFacts.

(** * Properties of the JavaScript bridge *)

Section WasmFacts.
Import GoTime Wasm.

(** X17. [durationFromMillis] is exact for every number of milliseconds up
    to 9223372036854 in absolute value (about 292 years): the duration is
    that many times 10^6 nanoseconds, and dividing it by [time.Millisecond]
    gives the milliseconds back. *)
Theorem durationFromMillis_exact ms :
  Z.abs ms <= 9223372036854 ->
  durationFromMillis ms = ms * 1000000 /\
  Z.quot (durationFromMillis ms) Millisecond = ms.
Proof.
  intros Hms. unfold durationFromMillis, GoInt.mul, Millisecond.
  rewrite wrap_in_range by (unfold GoInt.in_range, GoInt.min_int, GoInt.max_int; lia).
  split; [reflexivity|]. apply Z.quot_mul. discriminate.
Qed.

Lemma durationFromMillis_exact_witness :
  Z.abs 30000 <= 9223372036854 /\ durationFromMillis 30000 = 30 * Second.
Proof.
  assert (H : Z.abs 30000 <= 9223372036854) by discriminate.
  split; [exact H|]. exact (proj1 (durationFromMillis_exact 30000 H)).
Defined.

End WasmFacts.

(** * The retry set and the default status validator *)

Section StatusClasses.
Import Models Configs.

(** X18. A status that the default validator accepts (2xx) is retried only
    if it has been configured as an additional retry code: the codes retried
    by default and the codes accepted by default never overlap. *)
Theorem accepted_status_retried_only_if_configured r statusCode :
  DefaultStatusValidator statusCode = true ->
  ShouldRetryStatus r statusCode = true ->
  In statusCode (RetryOnStatusCodes r).
Proof.
  unfold DefaultStatusValidator. intros Hok Hretry.
  apply andb_true_iff in Hok as [H200 H300].
  apply Z.leb_le in H200. apply Z.ltb_lt in H300.
  apply ShouldRetryStatus_spec in Hretry as [Hr|Hin]; [lia | exact Hin].
Qed.

Lemma accepted_status_retried_only_if_configured_witness :
  let r := mkRetryOptions 3 100000000 30000000000 BackoffExponential
                          true Float64.three_tenths [202; 429] false 5 60000000000 1 in
  DefaultStatusValidator 202 = true /\
  ShouldRetryStatus r 202 = true /\
  In 202 (RetryOnStatusCodes r).
Proof.
  intros r. split; [reflexivity|]. split; [reflexivity|].
  exact (accepted_status_retried_only_if_configured r 202 eq_refl eq_refl).
Defined.

End StatusClasses.
